(** * iNatJS: the request queue, the RISON encoder and the URL parameter
      parser of [inatjs.js], embedded in Rocq.

    JavaScript strings are represented by the bytes of their UTF-8 encoding
    ([String.string]).  The delimiters the program looks at ([,] [&] [?] [=]
    [%]) are ASCII, so splitting, searching and concatenating commute with
    that encoding. *)

From Stdlib Require Import ZArith List Bool Ascii String DecimalString Lia.
From stdpp Require Import base option list strings gmap.

Import ListNotations.
Set Warnings "-register-all".
Local Open Scope string_scope.
Local Open Scope Z_scope.

(** ** JavaScript values *)

(** The values the program receives or produces.  Numbers are the
    integers of magnitude up to [2^53], which are numbers of JavaScript and
    which it prints digit by digit; a plain object is the list of its own
    enumerable properties in [Object.entries] order.  There are no
    functions among the values, so no property of an object is callable. *)
Inductive JSValue : Type :=
| JUndefined
| JNull
| JBool (b : bool)
| JNum (n : Z)
| JStr (s : string)
| JArr (elems : list JSValue)
| JObj (props : list (string * JSValue)).

(** Induction over values that reaches inside arrays and objects. *)
Fixpoint JSValue_nested_ind (P : JSValue -> Prop)
  (Hundef : P JUndefined) (Hnull : P JNull)
  (Hbool : forall b, P (JBool b)) (Hnum : forall n, P (JNum n))
  (Hstr : forall s, P (JStr s))
  (Harr : forall elems, Forall P elems -> P (JArr elems))
  (Hobj : forall props, Forall (fun kv => P (snd kv)) props -> P (JObj props))
  (v : JSValue) {struct v} : P v :=
  match v with
  | JUndefined => Hundef
  | JNull => Hnull
  | JBool b => Hbool b
  | JNum n => Hnum n
  | JStr s => Hstr s
  | JArr elems =>
      Harr elems
        ((fix go (l : list JSValue) : Forall P l :=
            match l with
            | [] => List.Forall_nil P
            | e :: l' =>
                @List.Forall_cons _ P e l'
                  (JSValue_nested_ind P Hundef Hnull Hbool Hnum Hstr Harr Hobj e)
                  (go l')
            end) elems)
  | JObj props =>
      Hobj props
        ((fix go (l : list (string * JSValue)) : Forall (fun kv => P (snd kv)) l :=
            match l with
            | [] => List.Forall_nil _
            | kv :: l' =>
                @List.Forall_cons _ (fun kv => P (snd kv)) kv l'
                  (JSValue_nested_ind P Hundef Hnull Hbool Hnum Hstr Harr Hobj (snd kv))
                  (go l')
            end) props)
  end.

(** Exceptions raised by the host operations the program calls. *)
Inductive JSError : Type := TypeError | URIError.

(** The outcome of a call: a returned value or a thrown exception. *)
Inductive Completion (A : Type) : Type :=
| Return (a : A)
| Throw (e : JSError).
Arguments Return {A} a.
Arguments Throw {A} e.

Definition cbind {A B} (c : Completion A) (k : A -> Completion B) : Completion B :=
  match c with
  | Return a => k a
  | Throw e => Throw e
  end.

Notation "'try!' x := c 'in' k" := (cbind c (fun x => k))
  (at level 10, x name, c at level 100, k at level 200).

(** [typeof v == "object"] *)
Definition typeof_object (v : JSValue) : bool :=
  match v with
  | JNull | JArr _ | JObj _ => true
  | _ => false
  end.

(** [Array.prototype.join] on strings already converted. *)
Fixpoint join (sep : string) (l : list string) : string :=
  match l with
  | [] => ""
  | [s] => s
  | s :: rest => s ++ sep ++ join sep rest
  end.

(** [Number.prototype.toString] on the integers of magnitude up to
    [2^53]. *)
Definition number_to_string (n : Z) : string :=
  NilZero.string_of_int (Z.to_int n).

(** The value of the own property [name] of an object, if it has one. *)
Fixpoint own_property (name : string) (props : list (string * JSValue))
  : option JSValue :=
  match props with
  | [] => None
  | (key, val) :: rest =>
      if String.eqb key name then Some val else own_property name rest
  end.

(** Whether the string conversion of a value returns.  The conversion of
    an object calls its [toString] member: the one inherited from
    [Object.prototype], unless the object has an own property of that name,
    which is not callable, and then the conversion throws a [TypeError]
    (the inherited [valueOf] gives back the object, no primitive).  An array
    is converted by joining the conversions of its elements. *)
Fixpoint converts (v : JSValue) : bool :=
  match v with
  | JObj props =>
      match own_property "toString" props with
      | Some _ => false
      | None => true
      end
  | JArr elems => forallb converts elems
  | _ => true
  end.

(** [ToString]: what string concatenation and [join] apply to a value, on
    the values for which it returns ([converts]).  Inside [join], [null]
    and [undefined] elements give the empty string. *)
Fixpoint ToString (v : JSValue) : string :=
  match v with
  | JUndefined => "undefined"
  | JNull => "null"
  | JBool true => "true"
  | JBool false => "false"
  | JNum n => number_to_string n
  | JStr s => s
  | JArr elems =>
      join "," (map (fun e => match e with
                              | JUndefined | JNull => ""
                              | _ => ToString e
                              end) elems)
  | JObj _ => "[object Object]"
  end.

Definition join_element (e : JSValue) : string :=
  match e with
  | JUndefined | JNull => ""
  | _ => ToString e
  end.

(** [arr.join(sep)] *)
Definition array_join (sep : string) (elems : list JSValue) : string :=
  join sep (map join_element elems).

(** [ToBoolean] *)
Definition truthy (v : JSValue) : bool :=
  match v with
  | JUndefined | JNull => false
  | JBool b => b
  | JNum n => negb (n =? 0)
  | JStr s => negb (String.eqb s "")
  | JArr _ | JObj _ => true
  end.

(** [v == ""] (loose equality against the empty string): [null] and
    [undefined] equal only each other; a boolean or a number is compared
    with [ToNumber("") = 0]; an array or object through its primitive
    string. *)
Definition loose_eq_empty (v : JSValue) : bool :=
  match v with
  | JUndefined | JNull => false
  | JBool b => negb b
  | JNum n => n =? 0
  | JStr s => String.eqb s ""
  | JArr _ | JObj _ => String.eqb (ToString v) ""
  end.

(** [s.includes(",")] and [s.split(",")] *)
Definition comma : ascii := ","%char.

Fixpoint includes_char (c : ascii) (s : string) : bool :=
  match s with
  | EmptyString => false
  | String a rest => if Ascii.eqb a c then true else includes_char c rest
  end.

Fixpoint split_char (c : ascii) (s : string) : list string :=
  match s with
  | EmptyString => [""]
  | String a rest =>
      if Ascii.eqb a c then "" :: split_char c rest
      else match split_char c rest with
           | [] => [String a ""]
           | piece :: pieces => String a piece :: pieces
           end
  end.

(** ** toRISON *)

(** The array branch of [toRISON]: ["(" + arr.join(":!t,") + ":!t)"]. *)
Definition rison_of_array (elems : list JSValue) : string :=
  "(" ++ array_join ":!t," elems ++ ":!t)".

(** [toRISON] on an array: the [join] converts the elements to strings and
    throws when one of them has no conversion. *)
Definition toRISON_array (elems : list JSValue) : Completion JSValue :=
  if forallb converts elems
  then Return (JStr (rison_of_array elems))
  else Throw TypeError.

(** [toRISON(arr)].  Reading [arr.constructor] throws a [TypeError] on
    [null] and [undefined].  On a plain object it gives [Object], inherited
    from the prototype, unless the object has an own property named
    [constructor]: its value is then what is read, and being no function it
    is none of [Object], [Array], [String], so that [return(false)] is
    reached.  Numbers and booleans have the constructors [Number] and
    [Boolean] and reach [return(false)] too.  The string branch calls
    [toRISON] on the array [arr.split(",")], which takes the array
    branch. *)
Fixpoint toRISON (arr : JSValue) : Completion JSValue :=
  match arr with
  | JObj props =>
      match own_property "constructor" props with
      | None =>
          let fix entries (ps : list (string * JSValue)) : Completion (list string) :=
            match ps with
            | [] => Return []
            | (key, val) :: ps' =>
                try! piece := (if typeof_object val
                               then (try! r := toRISON val in
                                     Return (key ++ ":" ++ ToString r))
                               else Return (key ++ ":!t")) in
                try! rest := entries ps' in
                Return (piece :: rest)
            end in
          try! param := entries props in
          Return (JStr ("(" ++ join "," param ++ ")"))
      | Some _ => Return (JBool false)
      end
  | JArr elems => toRISON_array elems
  | JStr s =>
      if includes_char comma s
      then toRISON_array (map JStr (split_char comma s))
      else Return (JStr ("(" ++ s ++ ":!t)"))
  | JNum _ | JBool _ => Return (JBool false)
  | JUndefined | JNull => Throw TypeError
  end.

(** The loop over [Object.entries(arr)], named so that it can be reasoned
    about: [toRISON] on an object whose constructor is [Object] is this
    loop followed by the join. *)
Fixpoint rison_entries (ps : list (string * JSValue)) : Completion (list string) :=
  match ps with
  | [] => Return []
  | (key, val) :: ps' =>
      try! piece := (if typeof_object val
                     then (try! r := toRISON val in
                           Return (key ++ ":" ++ ToString r))
                     else Return (key ++ ":!t")) in
      try! rest := rison_entries ps' in
      Return (piece :: rest)
  end.

(** ** getUrlParams *)

(** *** decodeURIComponent

    First every [%XY] escape is read (a [%] not followed by two hexadecimal
    digits is a [URIError]); then the escaped octets must form well-formed
    UTF-8 sequences, which stand for the decoded character. *)

Inductive UriToken : Type :=
| Lit (c : ascii)
| Octet (b : N).

Definition hex_digit (c : ascii) : option N :=
  let n := N_of_ascii c in
  if (48 <=? n)%N && (n <=? 57)%N then Some (n - 48)%N
  else if (65 <=? n)%N && (n <=? 70)%N then Some (n - 55)%N
  else if (97 <=? n)%N && (n <=? 102)%N then Some (n - 87)%N
  else None.

Fixpoint uri_tokens (s : string) : Completion (list UriToken) :=
  match s with
  | EmptyString => Return []
  | String c rest =>
      if Ascii.eqb c "%" then
        match rest with
        | String h (String l rest') =>
            match hex_digit h, hex_digit l with
            | Some hi, Some lo =>
                try! ts := uri_tokens rest' in
                Return (Octet (16 * hi + lo)%N :: ts)
            | _, _ => Throw URIError
            end
        | _ => Throw URIError
        end
      else
        try! ts := uri_tokens rest in
        Return (Lit c :: ts)
  end.

(** A continuation octet [10xxxxxx]. *)
Definition continuation (b : N) : bool := ((128 <=? b) && (b <=? 191))%N.

(** Well-formed two-, three- and four-octet sequences (no overlong forms,
    no surrogates, nothing above U+10FFFF). *)
Definition valid2 (b c1 : N) : bool := ((194 <=? b) && continuation c1)%N.

Definition valid3 (b c1 c2 : N) : bool :=
  (continuation c1 && continuation c2
   && (negb (b =? 224) || (160 <=? c1))
   && (negb (b =? 237) || (c1 <=? 159)))%N.

Definition valid4 (b c1 c2 c3 : N) : bool :=
  (continuation c1 && continuation c2 && continuation c3
   && (b <=? 244)
   && (negb (b =? 240) || (144 <=? c1))
   && (negb (b =? 244) || (c1 <=? 143)))%N.

Definition octet_char (b : N) : ascii := ascii_of_N b.

Fixpoint utf8_decode (ts : list UriToken) : Completion string :=
  match ts with
  | [] => Return ""
  | Lit c :: rest =>
      try! s := utf8_decode rest in Return (String c s)
  | Octet b :: rest =>
      if (b <? 128)%N then
        try! s := utf8_decode rest in Return (String (octet_char b) s)
      else if (b <? 192)%N then Throw URIError
      else if (b <? 224)%N then
        match rest with
        | Octet c1 :: rest1 =>
            if valid2 b c1 then
              try! s := utf8_decode rest1 in
              Return (String (octet_char b) (String (octet_char c1) s))
            else Throw URIError
        | _ => Throw URIError
        end
      else if (b <? 240)%N then
        match rest with
        | Octet c1 :: Octet c2 :: rest2 =>
            if valid3 b c1 c2 then
              try! s := utf8_decode rest2 in
              Return (String (octet_char b) (String (octet_char c1)
                       (String (octet_char c2) s)))
            else Throw URIError
        | _ => Throw URIError
        end
      else if (b <? 248)%N then
        match rest with
        | Octet c1 :: Octet c2 :: Octet c3 :: rest3 =>
            if valid4 b c1 c2 c3 then
              try! s := utf8_decode rest3 in
              Return (String (octet_char b) (String (octet_char c1)
                       (String (octet_char c2) (String (octet_char c3) s))))
            else Throw URIError
        | _ => Throw URIError
        end
      else Throw URIError
  end.

Definition decodeURIComponent (s : string) : Completion string :=
  try! ts := uri_tokens s in utf8_decode ts.

(** Whether [s] starts with two hexadecimal digits, as an escape needs
    after its [%]. *)
Definition two_hex_digits (s : string) : bool :=
  match s with
  | String h (String l _) =>
      match hex_digit h, hex_digit l with
      | Some _, Some _ => true
      | _, _ => false
      end
  | _ => false
  end.

(** *** The regular expression of [url.replace]

    An optional [?] or [&]; the key group, one or more characters other
    than [=] and [&]; an [=]; the value group, any number of characters
    other than [&].  The expression is global. *)

(** The character class of the key and the character class of the value. *)
Definition key_char (c : ascii) : bool :=
  negb (Ascii.eqb c "=") && negb (Ascii.eqb c "&").

Definition value_char (c : ascii) : bool := negb (Ascii.eqb c "&").

(** The longest prefix of [s] inside a class, and what follows it. *)
Fixpoint span (p : ascii -> bool) (s : string) : string * string :=
  match s with
  | EmptyString => ("", "")
  | String c rest =>
      if p c then let (run, after) := span p rest in (String c run, after)
      else ("", s)
  end.

(** The key group, the [=] and the value group at the start of [s]: the key, the value and the
    text after the match.  The greedy key is the longest run of the class;
    a shorter run is followed by a character of the class, never by [=], so
    giving characters back cannot make the match succeed. *)
Definition match_groups (s : string) : option (string * string * string) :=
  let (key, after) := span key_char s in
  match key, after with
  | String _ _, String c after' =>
      if Ascii.eqb c "=" then
        let (value, rest) := span value_char after' in
        Some (key, value, rest)
      else None
  | _, _ => None
  end.

(** The whole expression at the start of [s]: the optional prefix first takes the
    character if it can, and matches the empty string when the rest fails
    that way. *)
Definition match_here (s : string) : option (string * string * string) :=
  match s with
  | EmptyString => None
  | String c rest =>
      if Ascii.eqb c "?" || Ascii.eqb c "&" then
        match match_groups rest with
        | Some m => Some m
        | None => match_groups s
        end
      else match_groups s
  end.

(** The matches of the global expression, left to right: after a match the
    search resumes where it ended, after a failure one character further.
    Every match consumes at least one character, so [length s] rounds
    suffice. *)
Fixpoint scan (fuel : nat) (s : string) : list (string * string) :=
  match fuel with
  | O => []
  | S fuel' =>
      match match_here s with
      | Some (key, value, rest) => (key, value) :: scan fuel' rest
      | None =>
          match s with
          | EmptyString => []
          | String _ s' => scan fuel' s'
          end
      end
  end.

Definition url_matches (url : string) : list (string * string) :=
  scan (String.length url) url.

(** *** The [params] object *)

(** The property names [params] inherits from [Object.prototype]. *)
Definition object_prototype_names : list string :=
  [ "constructor"; "__defineGetter__"; "__defineSetter__"; "hasOwnProperty";
    "__lookupGetter__"; "__lookupSetter__"; "isPrototypeOf";
    "propertyIsEnumerable"; "toString"; "valueOf"; "__proto__";
    "toLocaleString" ].

Definition inherited_name (key : string) : bool :=
  existsb (String.eqb key) object_prototype_names.

(** [params[key] = value] with a string value: an own property is created
    or overwritten, except that [__proto__] is the inherited setter, which
    ignores a value that is not an object. *)
Definition assign_param (key value : string) (params : gmap string string)
  : gmap string string :=
  if String.eqb key "__proto__" then params else <[key := value]> params.

(** What reading [params[key]] gives. *)
Inductive PropertyValue : Type :=
| OwnString (s : string)
| InheritedMember (name : string)
| PropUndefined.

Definition read_param (params : gmap string string) (key : string) : PropertyValue :=
  match params !! key with
  | Some v => OwnString v
  | None => if inherited_name key then InheritedMember key else PropUndefined
  end.

(** The callback of [url.replace], run on every match in turn. *)
Fixpoint store_matches (ms : list (string * string)) (params : gmap string string)
  : Completion (gmap string string) :=
  match ms with
  | [] => Return params
  | (key, value) :: ms' =>
      try! decoded := decodeURIComponent value in
      store_matches ms' (assign_param key decoded params)
  end.

Inductive UrlParamsResult : Type :=
| WholeObject (params : gmap string string)
| OneValue (v : PropertyValue).

(** [getUrlParams(url, key)]; an omitted [key] is [JUndefined].  A [key]
    that is given has a string conversion ([converts]), as the string has
    that the function is documented to take. *)
Definition getUrlParams (url : string) (key : JSValue) : Completion UrlParamsResult :=
  try! params := store_matches (url_matches url) ∅ in
  Return (if truthy key
          then OneValue (read_param params (ToString key))
          else WholeObject params).

(** ** The request queue and its dispatcher *)

Definition base_url : string := "https://api.inaturalist.org".

(** The rate-limiting options; [apiOptions] holds the values of the source. *)
Record ApiOptions : Type := {
  APITimeout : Z;
  RequestsPerMinute : Z
}.

Definition apiOptions : ApiOptions :=
  {| APITimeout := 1000; RequestsPerMinute := 60 |}.

(** The [headers] key of a request: absent, the shared global [headers]
    object (held by reference, read when the request is sent), or an object
    of the caller's own. *)
Inductive HeadersRef : Type :=
| NoHeaders
| SharedHeaders
| OwnHeaders (authorization : JSValue).

(** The [success] and [error] functions of a request: a pair supplied by
    the application, named by a number, or the two closures that
    [checkAuthentication] builds around its [callback]. *)
Inductive Callbacks : Type :=
| AppCallbacks (id : nat)
| ProbeCallbacks (callback : nat).

Record Request : Type := {
  method : string;
  headers : HeadersRef;
  apiVersion : string;
  endpoint : string;
  params : JSValue;
  fields : JSValue;
  data : JSValue;
  callbacks : Callbacks
}.

(** What the program does to the outside, in the order it does it. *)
Inductive Effect : Type :=
| AjaxSent (time : Z) (request : Request) (url : string) (authorization : option JSValue)
| SuccessCalled (cb : Callbacks)
| ErrorCalled (cb : Callbacks)
| AjaxCompleted (time : Z)
| TimeoutSet (time delay : Z)
| VerifyCalled (callback : nat) (ok : bool).

(** The global variables of the module, and the host's side of it: the
    clock, the [$.ajax] calls that have not completed, the pending
    [setTimeout(makeINatRequest, _)] timers (by due time), and the effects
    so far. *)
Record World : Type := {
  iNatAPIQueue : list Request;
  iNatAPIQueued : bool;
  iNatAPIRateLimiting : bool;
  iNatAuthorized : JSValue;
  headers_Authorization : JSValue;
  clock : Z;
  pending_ajax : list Request;
  pending_timers : list Z;
  effects : list Effect
}.

Definition initial_world : World :=
  {| iNatAPIQueue := [];
     iNatAPIQueued := false;
     iNatAPIRateLimiting := false;
     iNatAuthorized := JBool false;
     headers_Authorization := JStr "";
     clock := 0;
     pending_ajax := [];
     pending_timers := [];
     effects := [] |}.

Definition set_queue (q : list Request) (w : World) : World :=
  {| iNatAPIQueue := q;
     iNatAPIQueued := iNatAPIQueued w;
     iNatAPIRateLimiting := iNatAPIRateLimiting w;
     iNatAuthorized := iNatAuthorized w;
     headers_Authorization := headers_Authorization w;
     clock := clock w;
     pending_ajax := pending_ajax w;
     pending_timers := pending_timers w;
     effects := effects w |}.

Definition set_flags (queued limiting : bool) (w : World) : World :=
  {| iNatAPIQueue := iNatAPIQueue w;
     iNatAPIQueued := queued;
     iNatAPIRateLimiting := limiting;
     iNatAuthorized := iNatAuthorized w;
     headers_Authorization := headers_Authorization w;
     clock := clock w;
     pending_ajax := pending_ajax w;
     pending_timers := pending_timers w;
     effects := effects w |}.

Definition set_auth (authorization identity : JSValue) (w : World) : World :=
  {| iNatAPIQueue := iNatAPIQueue w;
     iNatAPIQueued := iNatAPIQueued w;
     iNatAPIRateLimiting := iNatAPIRateLimiting w;
     iNatAuthorized := identity;
     headers_Authorization := authorization;
     clock := clock w;
     pending_ajax := pending_ajax w;
     pending_timers := pending_timers w;
     effects := effects w |}.

Definition set_host (now : Z) (ajax : list Request) (timers : list Z) (w : World) : World :=
  {| iNatAPIQueue := iNatAPIQueue w;
     iNatAPIQueued := iNatAPIQueued w;
     iNatAPIRateLimiting := iNatAPIRateLimiting w;
     iNatAuthorized := iNatAuthorized w;
     headers_Authorization := headers_Authorization w;
     clock := now;
     pending_ajax := ajax;
     pending_timers := timers;
     effects := effects w |}.

Definition emit (e : Effect) (w : World) : World :=
  {| iNatAPIQueue := iNatAPIQueue w;
     iNatAPIQueued := iNatAPIQueued w;
     iNatAPIRateLimiting := iNatAPIRateLimiting w;
     iNatAuthorized := iNatAuthorized w;
     headers_Authorization := headers_Authorization w;
     clock := clock w;
     pending_ajax := pending_ajax w;
     pending_timers := pending_timers w;
     effects := effects w ++ [e] |}.

(** A call the application makes: [queueINatRequest(request)] or
    [checkAuthentication(apiToken, callback)]. *)
Inductive AppCall : Type :=
| QueueRequest (request : Request)
| CheckAuthentication (apiToken : JSValue) (callback : nat).

(** How the transport settles a call: with a response, of which the
    program reads [results[0].login] only (in the probe's [success]), or
    with an error.  The transport is taken as [$.ajax] documents it: every
    call settles once, after [$.ajax] has returned, by running [success] or
    [error] and then [complete]; the callbacks return normally. *)
Inductive Outcome : Type :=
| Succeeds (login : JSValue)
| Fails.

(** What happens next.  [AjaxDone k o calls]: the [k]-th outstanding
    [$.ajax] call settles with [o]; the application callback it invokes
    makes [calls] before it returns.  [TimerFires k]: the [k]-th pending
    timer runs, which the host allows once it is due.  [Elapse dt]: time
    passes. *)
Inductive Event : Type :=
| Calls (c : AppCall)
| AjaxDone (k : nat) (o : Outcome) (calls : list AppCall)
| TimerFires (k : nat)
| Elapse (dt : Z).

Section Dispatcher.

(** [$.param] of jQuery, which serialises the [params] object. *)
Variable jq_param : JSValue -> string.

(** The current [apiOptions]. *)
Variable options : ApiOptions.

(** The url after the [params] step of [makeINatRequest]: the three
    parts joined by [/], then the serialised [params] when
    [typeof request.params == 'object']. *)
Definition params_url (request : Request) : string :=
  let url := join "/" [base_url; apiVersion request; endpoint request] in
  if typeof_object (params request)
  then url ++ "?" ++ jq_param (params request)
  else url.

(** The url that [makeINatRequest] sends: the [fields] are added when
    [request.apiVersion == "v2" & request.fields != ""] (both operands
    are booleans, so the bitwise [&] is their conjunction).  The [fields]
    have a string conversion ([converts]), as the string has that a
    request is documented to carry. *)
Definition request_url (request : Request) : string :=
  let url := params_url request in
  if String.eqb (apiVersion request) "v2" && negb (loose_eq_empty (fields request))
  then url ++ (if typeof_object (params request) then "&" else "?")
           ++ "fields=" ++ ToString (fields request)
  else url.

(** The [Authorization] header a request is sent with. *)
Definition sent_authorization (request : Request) (w : World) : option JSValue :=
  match headers request with
  | NoHeaders => None
  | SharedHeaders => Some (headers_Authorization w)
  | OwnHeaders a => Some a
  end.

(** [makeINatRequest()], up to the return of [$.ajax]. *)
Definition makeINatRequest (w : World) : World :=
  match iNatAPIQueue w with
  | request :: rest =>
      let w := set_queue rest w in
      let w := if RequestsPerMinute options <? Z.of_nat (length rest)
               then set_flags (iNatAPIQueued w) true w
               else w in
      let w := emit (AjaxSent (clock w) request (request_url request)
                              (sent_authorization request w)) w in
      set_host (clock w) (pending_ajax w ++ [request]) (pending_timers w) w
  | [] => set_flags false false w
  end.

(** [queueINatRequest(request)] *)
Definition queueINatRequest (request : Request) (w : World) : World :=
  let w := set_queue (iNatAPIQueue w ++ [request]) w in
  let w := if negb (iNatAPIQueued w) then makeINatRequest w else w in
  set_flags true (iNatAPIRateLimiting w) w.

(** The request that [checkAuthentication] queues. *)
Definition probe_request (callback : nat) : Request :=
  {| method := "GET";
     headers := SharedHeaders;
     apiVersion := "v2";
     endpoint := "users/me";
     params := JUndefined;
     fields := JStr "login";
     data := JUndefined;
     callbacks := ProbeCallbacks callback |}.

(** [checkAuthentication(apiToken, callback)] *)
Definition checkAuthentication (apiToken : JSValue) (callback : nat) (w : World) : World :=
  if truthy apiToken
  then queueINatRequest (probe_request callback)
         (set_auth apiToken (iNatAuthorized w) w)
  else emit (VerifyCalled callback false) w.

Definition app_call (c : AppCall) (w : World) : World :=
  match c with
  | QueueRequest request => queueINatRequest request w
  | CheckAuthentication apiToken callback => checkAuthentication apiToken callback w
  end.

(** The [success] or [error] function of [$.ajax], which runs the
    request's own; for the probe these are the closures of
    [checkAuthentication]. *)
Definition settle (request : Request) (o : Outcome) (w : World) : World :=
  match o, callbacks request with
  | Succeeds _, AppCallbacks id => emit (SuccessCalled (AppCallbacks id)) w
  | Fails, AppCallbacks id => emit (ErrorCalled (AppCallbacks id)) w
  | Succeeds login, ProbeCallbacks callback =>
      let w := emit (SuccessCalled (ProbeCallbacks callback)) w in
      let w := set_auth (headers_Authorization w) login w in
      emit (VerifyCalled callback true) w
  | Fails, ProbeCallbacks callback =>
      let w := emit (ErrorCalled (ProbeCallbacks callback)) w in
      let w := set_auth (JStr "") (JBool false) w in
      emit (VerifyCalled callback false) w
  end.

(** The [complete] function of [$.ajax]. *)
Definition complete (w : World) : World :=
  let w := emit (AjaxCompleted (clock w)) w in
  if iNatAPIRateLimiting w
  then
    let w := emit (TimeoutSet (clock w) (APITimeout options)) w in
    set_host (clock w) (pending_ajax w)
             (pending_timers w ++ [clock w + APITimeout options]) w
  else makeINatRequest w.

(** One event; [None] when it cannot happen in [w]. *)
Definition step (e : Event) (w : World) : option World :=
  match e with
  | Calls c => Some (app_call c w)
  | AjaxDone k o calls =>
      match pending_ajax w !! k with
      | Some request =>
          let w := set_host (clock w) (delete k (pending_ajax w)) (pending_timers w) w in
          let w := settle request o w in
          let w := fold_left (fun w c => app_call c w) calls w in
          Some (complete w)
      | None => None
      end
  | TimerFires k =>
      match pending_timers w !! k with
      | Some due =>
          if due <=? clock w
          then Some (makeINatRequest
                       (set_host (clock w) (pending_ajax w)
                                 (delete k (pending_timers w)) w))
          else None
      | None => None
      end
  | Elapse dt =>
      if 0 <=? dt
      then Some (set_host (clock w + dt) (pending_ajax w) (pending_timers w) w)
      else None
  end.

Fixpoint run (es : list Event) (w : World) : option World :=
  match es with
  | [] => Some w
  | e :: es' =>
      match step e w with
      | Some w' => run es' w'
      | None => None
      end
  end.

(** *** Running the queue to rest *)

(** The host event that is possible in [w] when the application makes no
    further call: the outstanding call settles (as [outcome] says for its
    request), or the pending timer becomes due and runs. *)
Definition next_host_event (outcome : Request -> Outcome) (w : World) : option Event :=
  match pending_ajax w, pending_timers w with
  | request :: _, _ => Some (AjaxDone 0 (outcome request) [])
  | [], due :: _ =>
      if due <=? clock w then Some (TimerFires 0) else Some (Elapse (due - clock w))
  | [], [] => None
  end.

Fixpoint settle_all (outcome : Request -> Outcome) (fuel : nat) (w : World) : World :=
  match fuel with
  | O => w
  | S fuel' =>
      match next_host_event outcome w with
      | Some e =>
          match step e w with
          | Some w' => settle_all outcome fuel' w'
          | None => w
          end
      | None => w
      end
  end.

End Dispatcher.

(** *** Reading a history *)

(** The requests a call passes to [queueINatRequest]. *)
Definition call_requests (c : AppCall) : list Request :=
  match c with
  | QueueRequest request => [request]
  | CheckAuthentication apiToken callback =>
      if truthy apiToken then [probe_request callback] else []
  end.

Definition event_requests (e : Event) : list Request :=
  match e with
  | Calls c => call_requests c
  | AjaxDone _ _ calls => flat_map call_requests calls
  | TimerFires _ | Elapse _ => []
  end.

(** All requests queued during [es], in the order of the calls. *)
Definition requested (es : list Event) : list Request :=
  flat_map event_requests es.

(** The request callbacks that have run, in the order they ran. *)
Fixpoint fired (effs : list Effect) : list Callbacks :=
  match effs with
  | [] => []
  | SuccessCalled cb :: rest => cb :: fired rest
  | ErrorCalled cb :: rest => cb :: fired rest
  | _ :: rest => fired rest
  end.

(** The requests sent, each with the time it was sent at, in order. *)
Fixpoint sent (effs : list Effect) : list (Z * Request) :=
  match effs with
  | [] => []
  | AjaxSent time request _ _ :: rest => (time, request) :: sent rest
  | _ :: rest => sent rest
  end.

(** The world that the history [es] leads to from the initial one (the
    initial one itself when [es] cannot happen). *)
Definition world_after (jq : JSValue -> string) (options : ApiOptions)
  (es : list Event) : World :=
  match run jq options es initial_world with
  | Some w => w
  | None => initial_world
  end.

(** A plain request with the application callbacks [id], and [n] such
    requests queued one after the other. *)
Definition sample_request (id : nat) : Request :=
  {| method := "GET";
     headers := NoHeaders;
     apiVersion := "v1";
     endpoint := "observations";
     params := JUndefined;
     fields := JUndefined;
     data := JUndefined;
     callbacks := AppCallbacks id |}.

Definition burst (n : nat) : list Event :=
  map (fun id => Calls (QueueRequest (sample_request id))) (seq 0 n).

(** A history under a threshold of one request: four requests in a row,
    cooldowns from the second completion on, up to the last timer. *)
Definition small_options : ApiOptions :=
  {| APITimeout := 1000; RequestsPerMinute := 1 |}.

Definition drained_but_for_the_timer : list Event :=
  burst 4 ++ [AjaxDone 0 Fails []; AjaxDone 0 Fails []; Elapse 1000; TimerFires 0;
              AjaxDone 0 (Succeeds JNull) []; Elapse 1000; TimerFires 0;
              AjaxDone 0 Fails []; Elapse 1000].

(** Nothing outstanding: no call in flight and no timer pending. *)
Definition at_rest (w : World) : Prop :=
  pending_ajax w = [] /\ pending_timers w = [].

(** The shape of the dispatcher between two events: an active queue has
    exactly one call in flight or one timer pending; an inactive one has
    nothing queued and nothing outstanding. *)
Definition queue_inv (w : World) : Prop :=
  if iNatAPIQueued w
  then (length (pending_ajax w) + length (pending_timers w) = 1)%nat
  else iNatAPIQueue w = [] /\ pending_ajax w = [] /\ pending_timers w = [].

(** A bound on the number of host events that bring [w] to rest: each
    request still costs a completion and, when rate-limited, a wait and a
    timer. *)
Definition work (w : World) : nat :=
  (4 * length (iNatAPIQueue w) + 4 * length (pending_ajax w)
   + fold_right (fun due n => (if (due <=? clock w)%Z then 2 else 3) + n) 0
       (pending_timers w))%nat.

(** ** Query strings, for the statements about [getUrlParams] *)

Fixpoint all_chars (p : ascii -> bool) (s : string) : bool :=
  match s with
  | EmptyString => true
  | String c rest => p c && all_chars p rest
  end.

(** A pair that a query string can carry: a non-empty key without [=] and
    [&], a value without [&]. *)
Definition query_pair (kv : string * string) : bool :=
  negb (String.eqb (fst kv) "") && all_chars key_char (fst kv)
  && all_chars value_char (snd kv).

(** A piece of a query string: a pair [key=value], or a text without
    [=], which carries no pair. *)
Inductive QueryPiece : Type :=
| PairPiece (key value : string)
| PlainPiece (text : string).

Definition piece_text (piece : QueryPiece) : string :=
  match piece with
  | PairPiece key value => key ++ "=" ++ value
  | PlainPiece text => text
  end.

(** A well-formed piece: a pair that a query string can carry, or a text
    without [=] and [&]. *)
Definition query_piece (piece : QueryPiece) : bool :=
  match piece with
  | PairPiece key value => query_pair (key, value)
  | PlainPiece text => all_chars key_char text
  end.

(** The pieces joined by [&]. *)
Fixpoint query_string (pieces : list QueryPiece) : string :=
  match pieces with
  | [] => ""
  | piece :: rest =>
      piece_text piece ++ match rest with
                          | [] => ""
                          | _ :: _ => String "&" (query_string rest)
                          end
  end.

(** The text that follows a piece inside a query string. *)
Definition query_tail (rest : list QueryPiece) : string :=
  match rest with
  | [] => ""
  | _ :: _ => String "&" (query_string rest)
  end.

(** What follows a piece: the end of the text, or an [&]. *)
Definition ends_piece (tail : string) : bool :=
  match tail with
  | EmptyString => true
  | String c _ => Ascii.eqb c "&"
  end.

(** The pairs among the pieces, in order. *)
Fixpoint query_pairs (pieces : list QueryPiece) : list (string * string) :=
  match pieces with
  | [] => []
  | PairPiece key value :: rest => (key, value) :: query_pairs rest
  | PlainPiece _ :: rest => query_pairs rest
  end.

(** What may stand before the pieces of a query string: nothing, a [?] or
    an [&].  With nothing before it, a key in the first piece does not
    start with a [?], which the expression would take for its optional
    prefix. *)
Definition query_lead (lead : string) (pieces : list QueryPiece) : bool :=
  match lead with
  | EmptyString =>
      match pieces with
      | PairPiece (String c _) _ :: _ => negb (Ascii.eqb c "?")
      | _ => true
      end
  | String c EmptyString => Ascii.eqb c "?" || Ascii.eqb c "&"
  | _ => false
  end.

(** The value of the last pair of [pairs] whose key is [key]. *)
Fixpoint last_value (key : string) (pairs : list (string * string)) : option string :=
  match pairs with
  | [] => None
  | (k, v) :: rest =>
      match last_value key rest with
      | Some v' => Some v'
      | None => if String.eqb k key then Some v else None
      end
  end.

(** *** The parser as the specification words it

    "Scans the input for key=value pairs separated by & or ?,
    percent-decodes each value, returns the full mapping (later duplicate
    keys overwrite earlier ones) or, if a key is specified, just that key's
    decoded value (undefined if absent)." *)

Definition separator (c : ascii) : bool := Ascii.eqb c "&" || Ascii.eqb c "?".

(** The pieces of [s] between separators. *)
Fixpoint spec_pieces (s : string) : list string :=
  match s with
  | EmptyString => [""]
  | String a rest =>
      if separator a then "" :: spec_pieces rest
      else match spec_pieces rest with
           | [] => [String a ""]
           | piece :: pieces => String a piece :: pieces
           end
  end.

(** A piece [key=value] with a non-empty key. *)
Definition spec_pair (piece : string) : option (string * string) :=
  let (key, after) := span (fun c => negb (Ascii.eqb c "=")) piece in
  match key, after with
  | String _ _, String _ value => Some (key, value)
  | _, _ => None
  end.

Definition spec_pairs (url : string) : list (string * string) :=
  omap spec_pair (spec_pieces url).

Fixpoint spec_mapping (pairs : list (string * string)) (m : gmap string string)
  : Completion (gmap string string) :=
  match pairs with
  | [] => Return m
  | (key, value) :: rest =>
      try! decoded := decodeURIComponent value in
      spec_mapping rest (<[key := decoded]> m)
  end.

Definition spec_parseURLParams (url : string) (key : JSValue) : Completion UrlParamsResult :=
  try! m := spec_mapping (spec_pairs url) ∅ in
  Return (match key with
          | JUndefined => WholeObject m
          | _ => OneValue (match m !! ToString key with
                           | Some v => OwnString v
                           | None => PropUndefined
                           end)
          end).

(** ** checkiNatQueue *)

(** The poller's side of the world: the dispatcher's world it reads, the
    pending [setTimeout(checkiNatQueue, freq, freq, callback)] timers (due
    time, then the two arguments), and the values its callbacks were called
    with, in order. *)
Record Poller : Type := {
  polled : World;
  poll_timers : list (Z * (Z * nat));
  reports : list (nat * bool)
}.

(** [checkiNatQueue(freq, callback)]: with an active queue the timer is set
    first, then [callback(true)] runs; otherwise [callback(false)]. *)
Definition checkiNatQueue (freq : Z) (callback : nat) (p : Poller) : Poller :=
  if iNatAPIQueued (polled p)
  then {| polled := polled p;
          poll_timers := poll_timers p ++ [(clock (polled p) + freq, (freq, callback))];
          reports := reports p ++ [(callback, true)] |}
  else {| polled := polled p;
          poll_timers := poll_timers p;
          reports := reports p ++ [(callback, false)] |}.

(** What happens next around a poller: an event of the dispatcher, a call
    of [checkiNatQueue] by the application, or the [k]-th poll timer
    running, once it is due. *)
Inductive PollEvent : Type :=
| Dispatcher (e : Event)
| PollCalled (freq : Z) (callback : nat)
| PollTimerFires (k : nat).

Definition poll_step (jq : JSValue -> string) (options : ApiOptions)
  (e : PollEvent) (p : Poller) : option Poller :=
  match e with
  | Dispatcher e =>
      match step jq options e (polled p) with
      | Some w => Some {| polled := w;
                          poll_timers := poll_timers p;
                          reports := reports p |}
      | None => None
      end
  | PollCalled freq callback => Some (checkiNatQueue freq callback p)
  | PollTimerFires k =>
      match poll_timers p !! k with
      | Some (due, (freq, callback)) =>
          if due <=? clock (polled p)
          then Some (checkiNatQueue freq callback
                       {| polled := polled p;
                          poll_timers := delete k (poll_timers p);
                          reports := reports p |})
          else None
      | None => None
      end
  end.

Fixpoint poll_run (jq : JSValue -> string) (options : ApiOptions)
  (es : list PollEvent) (p : Poller) : option Poller :=
  match es with
  | [] => Some p
  | e :: es' =>
      match poll_step jq options e p with
      | Some p' => poll_run jq options es' p'
      | None => None
      end
  end.

(** An event that is no call of [checkiNatQueue]. *)
Definition no_poll_call (e : PollEvent) : bool :=
  match e with
  | PollCalled _ _ => false
  | _ => true
  end.

(** The chain of polls started by one call: reports of [true], one timer
    pending after each, until one report of [false], after which no timer
    is left. *)
Definition poll_chain_state (freq : Z) (callback : nat) (p : Poller) : Prop :=
  queue_inv (polled p)
  /\ exists n,
       (reports p = repeat (callback, true) (S n)
        /\ exists t, poll_timers p = [(t + freq, (freq, callback))]
                     /\ t <= clock (polled p))
       \/ (reports p = (repeat (callback, true) n ++ [(callback, false)])%list
           /\ poll_timers p = []).

(** ** Reading the times off the effects *)

(** The due time of the latest cooldown timer after which nothing has been
    sent yet, if there is one. *)
Fixpoint cooling (due : option Z) (effs : list Effect) : option Z :=
  match effs with
  | [] => due
  | TimeoutSet time delay :: rest => cooling (Some (time + delay)) rest
  | AjaxSent _ _ _ _ :: rest => cooling None rest
  | _ :: rest => cooling due rest
  end.

(** Every request sent after a cooldown timer was set (and before
    anything else was sent) is sent when the timer is due or later. *)
Fixpoint cooled (due : option Z) (effs : list Effect) : Prop :=
  match effs with
  | [] => True
  | TimeoutSet time delay :: rest => cooled (Some (time + delay)) rest
  | AjaxSent time _ _ _ :: rest =>
      match due with
      | Some x => x <= time
      | None => True
      end /\ cooled None rest
  | _ :: rest => cooled due rest
  end.

(** Effects that neither send a request nor set a timer. *)
Definition quiet (effs : list Effect) : bool :=
  forallb (fun e => match e with
                    | AjaxSent _ _ _ _ | TimeoutSet _ _ => false
                    | _ => true
                    end) effs.

(** The times of the effects agree with the pending timer. *)
Definition cool_inv (w : World) : Prop :=
  cooled None (effects w)
  /\ match cooling None (effects w) with
     | Some x => pending_timers w = [x] \/ (pending_timers w = [] /\ x <= clock w)
     | None => pending_timers w = []
     end.

(** ** Further notions for the statements *)

(** Whether [toRISON] comes to something it cannot go through: a [null]
    or [undefined] whose [constructor] it reads, or an array one of whose
    elements has no string conversion; and this at the input itself or at a
    value of an object it descends into.  It descends into the values of
    type "object" ([undefined] is not one) of the objects that have no own
    property [constructor]; arrays are joined, not descended into, and a
    [null] element of an array is joined as the empty string. *)
Fixpoint reaches_failure (v : JSValue) : bool :=
  match v with
  | JUndefined | JNull => true
  | JArr elems => negb (forallb converts elems)
  | JObj props =>
      match own_property "constructor" props with
      | Some _ => false
      | None =>
          existsb (fun kv => typeof_object (snd kv) && reaches_failure (snd kv)) props
      end
  | _ => false
  end.

(** A field name with its marker, as the encoding writes it. *)
Definition marked (name : string) : string := name ++ ":!t".

(** The history in which the application queues [requests] one after the
    other. *)
Definition enqueue_all (requests : list Request) : list Event :=
  map (fun request => Calls (QueueRequest request)) requests.

(** What the dispatcher holds and has sent, leaving out the credentials
    and the callbacks run. *)
Definition queue_view (w : World)
  : list Request * bool * bool * Z * list Request * list Z * list (Z * Request) :=
  (iNatAPIQueue w, iNatAPIQueued w, iNatAPIRateLimiting w, clock w,
   pending_ajax w, pending_timers w, sent (effects w)).

(** Two events that differ at most in how a call settles. *)
Definition same_but_outcome (e1 e2 : Event) : Prop :=
  match e1, e2 with
  | AjaxDone k1 _ calls1, AjaxDone k2 _ calls2 => k1 = k2 /\ calls1 = calls2
  | _, _ => e1 = e2
  end.

(** The timers set by [complete], in the order they were set. *)
Fixpoint timeouts (effs : list Effect) : list (Z * Z) :=
  match effs with
  | [] => []
  | TimeoutSet time delay :: rest => (time, delay) :: timeouts rest
  | _ :: rest => timeouts rest
  end.

(** * Properties *)

(** ** Small checks of the definitions against the source's behaviour *)

Example toRISON_nested :
  toRISON (JObj [("user", JObj [("login", JBool true)]); ("id", JNum 1)])
  = Return (JStr "(user:(login:!t),id:!t)").
Proof. reflexivity. Qed.

Example toRISON_single_field : toRISON (JStr "login") = Return (JStr "(login:!t)").
Proof. reflexivity. Qed.

Example toRISON_empty_array_value :
  toRISON (JObj [("a", JArr [])]) = Return (JStr "(a:(:!t))").
Proof. reflexivity. Qed.

Example toRISON_own_constructor_null :
  toRISON (JObj [("constructor", JNull)]) = Return (JBool false).
Proof. reflexivity. Qed.

Example toRISON_nested_own_constructor :
  toRISON (JObj [("user", JObj [("constructor", JNum 1); ("login", JNull)])])
  = Return (JStr "(user:false)").
Proof. reflexivity. Qed.

Example toRISON_element_without_conversion :
  toRISON (JArr [JStr "id"; JObj [("toString", JNum 1)]]) = Throw TypeError.
Proof. reflexivity. Qed.

Example toRISON_object_element :
  toRISON (JArr [JStr "id"; JObj [("valueOf", JNum 1)]])
  = Return (JStr "(id:!t,[object Object]:!t)").
Proof. reflexivity. Qed.

Example url_matches_without_lead :
  url_matches "a=1&&debug&b=2&" = [("a", "1"); ("b", "2")].
Proof. reflexivity. Qed.

Example url_matches_query :
  url_matches "?a=1&b=two%20words" = [("a", "1"); ("b", "two%20words")].
Proof. reflexivity. Qed.

Example url_matches_odd_input :
  url_matches "x?a=1&?b=2&=?c=3&&d&?=5&e==6&f="
  = [("x?a", "1"); ("?b", "2"); ("c", "3"); ("?", "5"); ("e", "=6"); ("f", "")].
Proof. reflexivity. Qed.

Example decode_utf8 : decodeURIComponent "caf%C3%A9%20%F0%9F%98%80" = Return "café 😀".
Proof. reflexivity. Qed.

Example decode_overlong : decodeURIComponent "%C0%80" = Throw URIError.
Proof. reflexivity. Qed.

Example decode_surrogate : decodeURIComponent "%ED%A0%80" = Throw URIError.
Proof. reflexivity. Qed.

Example getUrlParams_spec_example_1 :
  getUrlParams "?a=1&b=two%20words" JUndefined
  = Return (WholeObject (<["b" := "two words"]> (<["a" := "1"]> ∅))).
Proof. reflexivity. Qed.

Example getUrlParams_spec_example_2 :
  getUrlParams "?a=1&a=2" JUndefined = Return (WholeObject (<["a" := "2"]> ∅)).
Proof. reflexivity. Qed.

(** ** The RISON encoder *)

Lemma toRISON_object props :
  own_property "constructor" props = None ->
  toRISON (JObj props)
  = try! param := rison_entries props in Return (JStr ("(" ++ join "," param ++ ")")).
Proof. intros H. cbn [toRISON]. rewrite H. reflexivity. Qed.

(** An own property [constructor] hides the inherited one. *)
Lemma toRISON_own_constructor props c :
  own_property "constructor" props = Some c ->
  toRISON (JObj props) = Return (JBool false).
Proof. intros H. cbn [toRISON]. now rewrite H. Qed.

Lemma converts_strings names : forallb converts (map JStr names) = true.
Proof. induction names as [|n names IH]; [reflexivity|exact IH]. Qed.

Lemma toRISON_array_strings names :
  toRISON_array (map JStr names) = Return (JStr (rison_of_array (map JStr names))).
Proof. unfold toRISON_array. now rewrite converts_strings. Qed.

(** Whatever [toRISON] throws is a [TypeError]. *)
Lemma toRISON_throws_TypeError v e : toRISON v = Throw e -> e = TypeError.
Proof.
  revert e. induction v as [| | b | n | s | elems _ | props IH] using JSValue_nested_ind;
    intros e; try (cbn; congruence).
  - cbn [toRISON]. rewrite toRISON_array_strings.
    destruct (includes_char comma s); congruence.
  - cbn [toRISON]. unfold toRISON_array. destruct (forallb converts elems); congruence.
  - destruct (own_property "constructor" props) as [c|] eqn:Hc;
      [rewrite (toRISON_own_constructor _ _ Hc); congruence|].
    rewrite (toRISON_object _ Hc). clear Hc.
    assert (Hent : forall e', rison_entries props = Throw e' -> e' = TypeError).
    { induction IH as [|[key val] ps Hval _ IHps]; intros e'; cbn [rison_entries].
      - congruence.
      - cbn [snd] in Hval.
        destruct (typeof_object val).
        + destruct (toRISON val) as [r|e0] eqn:Hr; cbn [cbind].
          * destruct (rison_entries ps) as [rest|e1]; cbn [cbind]; [congruence|].
            intros [= <-]. now apply IHps.
          * intros [= <-]. now apply Hval.
        + cbn [cbind]. destruct (rison_entries ps) as [rest|e1]; cbn [cbind]; [congruence|].
          intros [= <-]. now apply IHps. }
    destruct (rison_entries props) as [param|e1]; cbn [cbind]; [congruence|].
    intros [= <-]. now apply Hent.
Qed.

(** An object with a [null] value makes the loop throw. *)
Lemma rison_entries_null props key :
  In (key, JNull) props -> rison_entries props = Throw TypeError.
Proof.
  induction props as [|[k v] ps IH]; intros Hin; [destruct Hin|].
  cbn [rison_entries].
  destruct Hin as [[= -> ->]|Hin]; [reflexivity|].
  destruct (typeof_object v).
  - destruct (toRISON v) as [r|e] eqn:Hr; cbn [cbind].
    + rewrite (IH Hin). reflexivity.
    + now rewrite (toRISON_throws_TypeError _ _ Hr).
  - cbn [cbind]. rewrite (IH Hin). reflexivity.
Qed.

(** C7.  [toRISON] gives ["(a:!t,b:!t)"] for the object [{a:1,b:2}],
    ["(x:!t,y:!t)"] for the array [["x","y"]], ["(p:!t,q:!t)"] for the
    string ["p,q"], and returns [false] for the number [42]; but for the
    inputs [undefined] and [null], which are of no supported type either,
    it throws a [TypeError] instead of returning [false]. *)
Theorem toRISON_examples_and_unsupported_null :
  toRISON (JObj [("a", JNum 1); ("b", JNum 2)]) = Return (JStr "(a:!t,b:!t)")
  /\ toRISON (JArr [JStr "x"; JStr "y"]) = Return (JStr "(x:!t,y:!t)")
  /\ toRISON (JStr "p,q") = Return (JStr "(p:!t,q:!t)")
  /\ toRISON (JNum 42) = Return (JBool false)
  /\ toRISON JUndefined = Throw TypeError
  /\ toRISON JNull = Throw TypeError.
Proof. repeat split; reflexivity. Qed.

(** C9.  [toRISON] throws a [TypeError] on [null] and on [undefined],
    where it reads the input's [constructor], and so it does on every
    object whose constructor is [Object] (it has no own property of that
    name) and one of whose values is [null]: a [null] value passes the
    [typeof val == "object"] test, so the function is called on it.  It
    returns [false] on the numbers and the booleans, the inputs of an
    unsupported type that are neither [null] nor [undefined].  But it
    returns [false] on some inputs of a supported type as well: on the
    objects that have an own property named [constructor], as
    [{constructor: 1}], where that property hides the inherited [Object]
    and the test [arr.constructor === Object] fails.  It returns [false]
    on no other input. *)
Theorem toRISON_not_total :
  toRISON JNull = Throw TypeError
  /\ toRISON JUndefined = Throw TypeError
  /\ (forall props key,
         own_property "constructor" props = None ->
         In (key, JNull) props -> toRISON (JObj props) = Throw TypeError)
  /\ (forall v, toRISON v = Return (JBool false)
                <-> (exists n, v = JNum n) \/ (exists b, v = JBool b)
                    \/ (exists props c,
                           v = JObj props /\ own_property "constructor" props = Some c))
  /\ toRISON (JObj [("constructor", JNum 1)]) = Return (JBool false).
Proof.
  split; [reflexivity|]. split; [reflexivity|]. split; [|split; [|reflexivity]].
  - intros props key Hc Hin. rewrite (toRISON_object _ Hc).
    now rewrite (rison_entries_null _ _ Hin).
  - intros v. split.
    + destruct v as [| | b | n | s | elems | props]; try (cbn; congruence); eauto.
      * cbn [toRISON]. rewrite toRISON_array_strings.
        destruct (includes_char comma s); congruence.
      * cbn [toRISON]. unfold toRISON_array.
        destruct (forallb converts elems); congruence.
      * destruct (own_property "constructor" props) as [c|] eqn:Hc; [eauto 6|].
        rewrite (toRISON_object _ Hc).
        destruct (rison_entries props); cbn [cbind]; congruence.
    + intros [[n ->]|[[b ->]|(props & c & -> & Hc)]]; try reflexivity.
      exact (toRISON_own_constructor _ _ Hc).
Qed.

Lemma toRISON_not_total_witness :
  own_property "constructor" [("id", JBool true); ("user", JNull)] = None
  /\ In ("user", JNull) [("id", JBool true); ("user", JNull)]
  /\ toRISON (JObj [("id", JBool true); ("user", JNull)]) = Throw TypeError.
Proof.
  split; [reflexivity|]. split.
  - right. left. reflexivity.
  - apply (proj1 (proj2 (proj2 toRISON_not_total)) _ "user").
    + reflexivity.
    + right. left. reflexivity.
Defined.

(** ** The URL parameter parser *)

Lemma cbind_Return {A B} (c : Completion A) (k : A -> Completion B) b :
  cbind c k = Return b -> exists a, c = Return a /\ k a = Return b.
Proof. destruct c as [a|e]; cbn; [eauto | discriminate]. Qed.

(** [decodeURIComponent] throws nothing but [URIError]. *)
Lemma uri_tokens_throws s e : uri_tokens s = Throw e -> e = URIError.
Proof.
  remember (String.length s) as n eqn:Hn. revert s Hn e.
  induction n as [n IH] using lt_wf_ind. intros s Hn e.
  destruct s as [|c rest]; cbn [uri_tokens]; [discriminate|].
  destruct (Ascii.eqb c "%").
  - destruct rest as [|h [|l rest']]; try congruence.
    destruct (hex_digit h), (hex_digit l); try congruence.
    destruct (uri_tokens rest') eqn:Hrest; cbn [cbind]; [discriminate|].
    intros [= <-]. eapply (IH (String.length rest')); [|reflexivity|exact Hrest].
    subst n. cbn. lia.
  - destruct (uri_tokens rest) eqn:Hrest; cbn [cbind]; [discriminate|].
    intros [= <-]. eapply (IH (String.length rest)); [|reflexivity|exact Hrest].
    subst n. cbn. lia.
Qed.

Lemma utf8_decode_throws ts e : utf8_decode ts = Throw e -> e = URIError.
Proof.
  remember (length ts) as n eqn:Hn. revert ts Hn e.
  induction n as [n IH] using lt_wf_ind. intros ts Hn e.
  assert (Hrec : forall ts' e', (length ts' < length ts)%nat ->
                                utf8_decode ts' = Throw e' -> e' = URIError).
  { intros ts' e' Hlt. eapply (IH (length ts')); [lia | reflexivity]. }
  clear IH Hn.
  assert (Hbind : forall ts' (k : string -> Completion string),
             (length ts' < length ts)%nat -> (forall s, k s <> Throw e) ->
             cbind (utf8_decode ts') k = Throw e -> e = URIError).
  { intros ts' k Hlt Hk. destruct (utf8_decode ts') eqn:Hd; cbn [cbind].
    - intros H. now apply Hk in H.
    - intros [= <-]. eapply Hrec; eauto. }
  destruct ts as [|[c|b] rest]; cbn [utf8_decode]; [discriminate| |].
  - apply Hbind; [cbn; lia | discriminate].
  - repeat match goal with
           | |- context [if ?c then _ else _] => destruct c
           | |- context [match ?l with [] => _ | _ :: _ => _ end] => destruct l as [|[?|?] ?]
           | |- Throw _ = Throw _ -> _ => congruence
           | |- cbind _ _ = _ -> _ => apply Hbind; [cbn; lia | discriminate]
           end.
Qed.

Lemma decodeURIComponent_throws s e : decodeURIComponent s = Throw e -> e = URIError.
Proof.
  unfold decodeURIComponent.
  destruct (uri_tokens s) eqn:Ht; cbn [cbind].
  - apply utf8_decode_throws.
  - intros [= <-]. eapply uri_tokens_throws; eauto.
Qed.

Lemma append_nil_l (s : string) : "" ++ s = s.
Proof. reflexivity. Qed.

Lemma append_cons (c : ascii) (r s : string) : String c r ++ s = String c (r ++ s).
Proof. reflexivity. Qed.

(** A [%] that is not followed by two hexadecimal digits is malformed,
    wherever it stands. *)
Lemma decodeURIComponent_lone_percent s1 s2 :
  two_hex_digits s2 = false ->
  decodeURIComponent (s1 ++ String "%" s2) = Throw URIError.
Proof.
  intros Hs2. unfold decodeURIComponent.
  enough (Ht : uri_tokens (s1 ++ String "%" s2) = Throw URIError) by now rewrite Ht.
  remember (String.length s1) as n eqn:Hn. revert s1 Hn.
  induction n as [n IH] using lt_wf_ind. intros s1 Hn.
  destruct s1 as [|c r].
  - rewrite append_nil_l.
    destruct s2 as [|h [|l s2']]; try reflexivity.
    cbn [two_hex_digits] in Hs2. cbn [uri_tokens].
    change (Ascii.eqb "%" "%") with true. cbv iota.
    destruct (hex_digit h), (hex_digit l); try reflexivity. discriminate.
  - rewrite append_cons. cbn [uri_tokens].
    destruct (Ascii.eqb c "%").
    + destruct r as [|h [|l r']]; rewrite ?append_cons, ?append_nil_l.
      * destruct s2; reflexivity.
      * destruct (hex_digit h); reflexivity.
      * destruct (hex_digit h), (hex_digit l); try reflexivity.
        rewrite (IH (String.length r')); [reflexivity | subst n; cbn; lia | reflexivity].
    + rewrite (IH (String.length r)); [reflexivity | subst n; cbn; lia | reflexivity].
Qed.

(** A value that cannot be decoded makes the callback throw, and with it
    the whole [replace]. *)
Lemma store_matches_throws ms params key value :
  In (key, value) ms ->
  decodeURIComponent value = Throw URIError ->
  store_matches ms params = Throw URIError.
Proof.
  revert params. induction ms as [|[k v] ms IH]; intros params Hin Hbad; [destruct Hin|].
  cbn [store_matches].
  destruct Hin as [[= -> ->]|Hin].
  - now rewrite Hbad.
  - destruct (decodeURIComponent v) eqn:Hv; cbn [cbind].
    + now apply IH.
    + now rewrite (decodeURIComponent_throws _ _ Hv).
Qed.

(** C10.  When the value of some parameter found in the input is a
    malformed percent-encoding (so that [decodeURIComponent] throws on it),
    [getUrlParams] throws that [URIError], whatever the [key] argument: it
    returns neither a partial mapping nor a sentinel. *)
Theorem getUrlParams_throws_URIError url key name value :
  In (name, value) (url_matches url) ->
  decodeURIComponent value = Throw URIError ->
  getUrlParams url key = Throw URIError.
Proof.
  intros Hin Hbad. unfold getUrlParams.
  now rewrite (store_matches_throws _ _ _ _ Hin Hbad).
Qed.

Lemma getUrlParams_throws_URIError_witness :
  In ("a", "%") (url_matches "?a=%")
  /\ decodeURIComponent "%" = Throw URIError
  /\ getUrlParams "?a=%" JUndefined = Throw URIError.
Proof.
  split; [left; reflexivity|]. split; [reflexivity|].
  apply (getUrlParams_throws_URIError "?a=%" JUndefined "a" "%").
  - left. reflexivity.
  - reflexivity.
Defined.

(** *** The matches of a query string *)

Lemma append_nil_r (s : string) : s ++ "" = s.
Proof. induction s as [|c s IH]; [reflexivity|]. rewrite append_cons. now rewrite IH. Qed.

Lemma string_app_assoc (a b c : string) : (a ++ b) ++ c = a ++ b ++ c.
Proof.
  induction a as [|x a IH]; [reflexivity|].
  rewrite !append_cons. now rewrite IH.
Qed.

Lemma length_append (s t : string) :
  String.length (s ++ t) = (String.length s + String.length t)%nat.
Proof.
  induction s as [|c s IH]; [reflexivity|].
  rewrite append_cons. cbn [String.length]. now rewrite IH.
Qed.

Lemma span_stops (p : ascii -> bool) (run : string) (c : ascii) (rest : string) :
  all_chars p run = true -> p c = false ->
  span p (run ++ String c rest) = (run, String c rest).
Proof.
  intros Hrun Hc. induction run as [|a run IH].
  - rewrite append_nil_l. cbn [span]. now rewrite Hc.
  - rewrite append_cons. cbn [span]. cbn [all_chars] in Hrun.
    apply andb_prop in Hrun as [-> Hrun]. now rewrite (IH Hrun).
Qed.

Lemma span_all (p : ascii -> bool) (run : string) :
  all_chars p run = true -> span p run = (run, "").
Proof.
  intros Hrun. induction run as [|a run IH]; [reflexivity|].
  cbn [span]. cbn [all_chars] in Hrun.
  apply andb_prop in Hrun as [-> Hrun]. now rewrite (IH Hrun).
Qed.

(** A match ends before the end of the text it started in, so the rounds
    given to [scan] by [url_matches] are enough: more change nothing. *)
Lemma span_length (p : ascii -> bool) (s run after : string) :
  span p s = (run, after) ->
  String.length s = (String.length run + String.length after)%nat.
Proof.
  revert run after. induction s as [|c s IH]; intros run after; cbn [span].
  - intros [= <- <-]. reflexivity.
  - destruct (p c).
    + destruct (span p s) as [run' after'] eqn:Hs. intros [= <- <-].
      cbn [String.length]. now rewrite (IH _ _ eq_refl).
    + intros [= <- <-]. reflexivity.
Qed.

Lemma match_groups_shorter s key value rest :
  match_groups s = Some (key, value, rest) ->
  (String.length rest < String.length s)%nat.
Proof.
  unfold match_groups.
  destruct (span key_char s) as [k after] eqn:Hk.
  destruct k as [|a k']; [discriminate|].
  destruct after as [|c after']; [discriminate|].
  destruct (Ascii.eqb c "="); [|discriminate].
  destruct (span value_char after') as [v r] eqn:Hv. intros [= _ _ <-].
  apply span_length in Hk. apply span_length in Hv.
  cbn [String.length] in Hk. lia.
Qed.

Lemma match_here_shorter s key value rest :
  match_here s = Some (key, value, rest) ->
  (String.length rest < String.length s)%nat.
Proof.
  unfold match_here. destruct s as [|c s']; [discriminate|].
  destruct (Ascii.eqb c "?" || Ascii.eqb c "&").
  - destruct (match_groups s') as [[[k v] r]|] eqn:Hin.
    + intros [= _ _ <-]. apply match_groups_shorter in Hin. cbn [String.length]. lia.
    + apply match_groups_shorter.
  - apply match_groups_shorter.
Qed.

Lemma scan_fuel_enough n : forall s fuel1 fuel2,
  (String.length s <= n)%nat ->
  (String.length s <= fuel1)%nat -> (String.length s <= fuel2)%nat ->
  scan fuel1 s = scan fuel2 s.
Proof.
  induction n as [|n IH]; intros s fuel1 fuel2 Hn H1 H2.
  - destruct s; [|cbn in Hn; lia]. destruct fuel1, fuel2; reflexivity.
  - destruct s as [|c s']; [destruct fuel1, fuel2; reflexivity|].
    destruct fuel1 as [|fuel1]; [cbn in H1; lia|].
    destruct fuel2 as [|fuel2]; [cbn in H2; lia|].
    cbn [scan]. cbn [String.length] in Hn, H1, H2.
    destruct (match_here (String c s')) as [[[k v] rest]|] eqn:Hm.
    + apply match_here_shorter in Hm. cbn [String.length] in Hm.
      f_equal. apply IH; lia.
    + apply IH; lia.
Qed.

Lemma url_matches_fuel url fuel :
  (String.length url <= fuel)%nat -> scan fuel url = url_matches url.
Proof.
  intros H. unfold url_matches.
  now apply (scan_fuel_enough (String.length url)).
Qed.

Lemma query_string_cons piece rest :
  query_string (piece :: rest) = piece_text piece ++ query_tail rest.
Proof. reflexivity. Qed.

Lemma query_tail_ends rest : ends_piece (query_tail rest) = true.
Proof. destruct rest; reflexivity. Qed.

Lemma span_piece (p : ascii -> bool) run tail :
  all_chars p run = true ->
  ends_piece tail = true -> p "&"%char = false ->
  span p (run ++ tail) = (run, tail).
Proof.
  intros Hrun Htail Hamp. destruct tail as [|c tail'].
  - rewrite append_nil_r. now apply span_all.
  - cbn [ends_piece] in Htail. apply Ascii.eqb_eq in Htail. subst c.
    now apply span_stops.
Qed.

Lemma match_groups_pair k v tail :
  query_pair (k, v) = true ->
  ends_piece tail = true ->
  match_groups (k ++ String "=" (v ++ tail)) = Some (k, v, tail).
Proof.
  unfold query_pair. cbn [fst snd]. intros H Htail.
  apply andb_prop in H as [H Hv]. apply andb_prop in H as [Hne Hk].
  unfold match_groups.
  rewrite (span_stops key_char k "=" _ Hk eq_refl).
  destruct k as [|c k']; [discriminate|].
  change (Ascii.eqb "=" "=") with true. cbv iota.
  now rewrite (span_piece value_char v tail Hv Htail eq_refl).
Qed.

(** A text without [=] holds no match: the key group is never followed by
    an [=]. *)
Lemma match_groups_plain text tail :
  all_chars key_char text = true ->
  ends_piece tail = true ->
  match_groups (text ++ tail) = None.
Proof.
  intros Htext Htail. unfold match_groups.
  rewrite (span_piece key_char text tail Htext Htail eq_refl).
  destruct text as [|c text']; [reflexivity|].
  destruct tail as [|a tail']; [reflexivity|].
  cbn [ends_piece] in Htail. apply Ascii.eqb_eq in Htail. now subst a.
Qed.

(** One round of the search, without the count of rounds. *)
Lemma url_matches_step c s :
  url_matches (String c s)
  = match match_here (String c s) with
    | Some (key, value, rest) => (key, value) :: url_matches rest
    | None => url_matches s
    end.
Proof.
  unfold url_matches at 1. cbn [String.length scan].
  destruct (match_here (String c s)) as [[[k v] rest]|] eqn:Hm.
  - f_equal. apply url_matches_fuel.
    apply match_here_shorter in Hm. cbn [String.length] in Hm. lia.
  - reflexivity.
Qed.

Lemma url_matches_plain text tail :
  all_chars key_char text = true ->
  ends_piece tail = true ->
  url_matches (text ++ tail) = url_matches tail.
Proof.
  intros Htext Htail. induction text as [|c text IH]; [reflexivity|].
  cbn [all_chars] in Htext. apply andb_prop in Htext as [Hc Htext].
  rewrite append_cons, url_matches_step.
  assert (Hwhole : match_groups (String c (text ++ tail)) = None).
  { rewrite <- append_cons. apply match_groups_plain; [|exact Htail].
    cbn [all_chars]. now rewrite Hc, Htext. }
  unfold match_here.
  rewrite Hwhole, (match_groups_plain text tail Htext Htail).
  destruct (Ascii.eqb c "?" || Ascii.eqb c "&"); now apply IH.
Qed.

(** The search on a piece before which the optional prefix stands. *)
Lemma url_matches_led_piece c piece tail :
  Ascii.eqb c "?" || Ascii.eqb c "&" = true ->
  query_piece piece = true ->
  ends_piece tail = true ->
  url_matches (String c (piece_text piece ++ tail))
  = match piece with
    | PairPiece key value => (key, value) :: url_matches tail
    | PlainPiece _ => url_matches tail
    end.
Proof.
  intros Hc Hpiece Htail. rewrite url_matches_step. unfold match_here. rewrite Hc.
  destruct piece as [k v|text]; cbn [piece_text query_piece] in *.
  - rewrite !string_app_assoc. change ("=" ++ v ++ tail) with (String "=" (v ++ tail)).
    now rewrite (match_groups_pair k v tail Hpiece Htail).
  - rewrite (match_groups_plain text tail Hpiece Htail).
    assert (Hled : match_groups (String c (text ++ tail)) = None).
    { apply orb_prop in Hc as [Hc|Hc]; apply Ascii.eqb_eq in Hc; subst c.
      - rewrite <- append_cons. apply match_groups_plain; [|exact Htail].
        cbn [all_chars]. now rewrite Hpiece.
      - reflexivity. }
    rewrite Hled. now apply url_matches_plain.
Qed.

Lemma url_matches_query_tail pieces :
  forallb query_piece pieces = true ->
  url_matches (query_tail pieces) = query_pairs pieces.
Proof.
  induction pieces as [|piece rest IH]; intros Hwf; [reflexivity|].
  cbn [forallb] in Hwf. apply andb_prop in Hwf as [Hpiece Hrest].
  cbn [query_tail]. rewrite query_string_cons.
  rewrite (url_matches_led_piece "&" piece _ eq_refl Hpiece (query_tail_ends rest)).
  destruct piece; cbn [query_pairs]; now rewrite (IH Hrest).
Qed.

(** *** What the callback leaves in [params] *)

Lemma assign_param_lookup key value params k :
  assign_param key value params !! k
  = if String.eqb key "__proto__" then params !! k
    else if String.eqb key k then Some value else params !! k.
Proof.
  unfold assign_param. destruct (String.eqb key "__proto__"); [reflexivity|].
  destruct (String.eqb_spec key k) as [->|Hne].
  - apply lookup_insert_eq.
  - now apply lookup_insert_ne.
Qed.

Lemma store_matches_lookup ms : forall params0 params,
  store_matches ms params0 = Return params ->
  forall k,
    if String.eqb k "__proto__" then params !! k = params0 !! k
    else match last_value k ms with
         | Some v => exists d, decodeURIComponent v = Return d /\ params !! k = Some d
         | None => params !! k = params0 !! k
         end.
Proof.
  induction ms as [|[k0 v0] ms IH]; intros params0 params Hstore k.
  - cbn in Hstore. injection Hstore as <-. cbn [last_value].
    destruct (String.eqb k "__proto__"); reflexivity.
  - cbn [store_matches] in Hstore.
    apply cbind_Return in Hstore as (d0 & Hd0 & Hstore).
    specialize (IH _ _ Hstore k). cbn [last_value].
    rewrite assign_param_lookup in IH.
    destruct (String.eqb k "__proto__") eqn:Hk.
    + rewrite IH. apply String.eqb_eq in Hk. subst k.
      destruct (String.eqb_spec k0 "__proto__") as [Heq|Hne]; [reflexivity|].
      destruct (String.eqb_spec k0 "__proto__"); [contradiction|reflexivity].
    + destruct (last_value k ms) as [v|]; [exact IH|].
      destruct (String.eqb_spec k0 k) as [Heq|Hne].
      * subst k0. rewrite Hk in IH. eauto.
      * rewrite IH. destruct (String.eqb k0 "__proto__"); reflexivity.
Qed.

(** C8, as stated, does not hold: a [?] inside the input is not a
    separator.  In ["page?a=1"] the specification's words find the pair
    [a=1]; the program finds the key ["page?a"], so asking for [a] gives
    [undefined]. *)
Lemma getUrlParams_question_mark_is_no_separator :
  ~ (forall url key, getUrlParams url key = spec_parseURLParams url key).
Proof.
  intros H. specialize (H "page?a=1" (JStr "a")).
  vm_compute in H. discriminate H.
Qed.

(** A query string with its pieces, with or without a [?] or [&] before
    them. *)
Lemma url_matches_lead lead pieces :
  query_lead lead pieces = true ->
  forallb query_piece pieces = true ->
  url_matches (lead ++ query_string pieces) = query_pairs pieces.
Proof.
  intros Hlead Hwf.
  destruct lead as [|c [|c' lead']]; cbn [query_lead] in Hlead; [| |discriminate].
  - rewrite append_nil_l. destruct pieces as [|piece rest]; [reflexivity|].
    cbn [forallb] in Hwf. apply andb_prop in Hwf as [Hpiece Hrest].
    rewrite query_string_cons.
    destruct piece as [k v|text]; cbn [piece_text query_piece query_pairs] in *.
    + destruct k as [|a k']; [discriminate Hpiece|].
      assert (Hkey : key_char a = true).
      { unfold query_pair in Hpiece. cbn [fst snd all_chars] in Hpiece.
        apply andb_prop in Hpiece as [Hkv _]. apply andb_prop in Hkv as [_ Hkv].
        now apply andb_prop in Hkv as [Hkv _]. }
      assert (Hfirst : Ascii.eqb a "?" || Ascii.eqb a "&" = false).
      { apply negb_true_iff in Hlead. rewrite Hlead. unfold key_char in Hkey.
        apply andb_prop in Hkey as [_ Hkey]. now apply negb_true_iff in Hkey. }
      pose proof (match_groups_pair _ _ _ Hpiece (query_tail_ends rest)) as Hm.
      rewrite !string_app_assoc.
      change ("=" ++ v ++ query_tail rest) with (String "=" (v ++ query_tail rest)).
      rewrite append_cons in *. rewrite url_matches_step.
      unfold match_here. rewrite Hfirst, Hm.
      now rewrite (url_matches_query_tail rest Hrest).
    + rewrite (url_matches_plain text _ Hpiece (query_tail_ends rest)).
      now apply url_matches_query_tail.
  - rewrite append_cons, append_nil_l.
    destruct pieces as [|piece rest].
    + apply orb_prop in Hlead as [Hc|Hc]; apply Ascii.eqb_eq in Hc; subst c; reflexivity.
    + cbn [forallb] in Hwf. apply andb_prop in Hwf as [Hpiece Hrest].
      rewrite query_string_cons.
      rewrite (url_matches_led_piece c piece _ Hlead Hpiece (query_tail_ends rest)).
      destruct piece; cbn [query_pairs]; now rewrite (url_matches_query_tail rest Hrest).
Qed.

Lemma last_value_absent k pairs :
  forallb (fun kv : string * string => negb (String.eqb (fst kv) k)) pairs = true ->
  last_value k pairs = None.
Proof.
  induction pairs as [|[k0 v0] pairs IH]; intros H; [reflexivity|].
  cbn [forallb fst] in H. apply andb_prop in H as [Hk0 H].
  apply negb_true_iff in Hk0. cbn [last_value]. now rewrite (IH H), Hk0.
Qed.

(** C8, amended.  Take an input made of pieces joined by [&], with or
    without a [?] or [&] before them, each piece either a pair [key=value]
    (the key non-empty, without [=] and [&], and not [__proto__]; the
    value without [&]; the first key not starting with [?] when nothing
    stands before it) or a text without [=], and let all the values
    decode.  [getUrlParams] finds exactly the pairs, in their order; it
    percent-decodes each value and stores it under its key, a later
    duplicate overwriting an earlier one.  With no (or a falsy) [key]
    argument it returns the whole mapping; with a [key] it returns what
    [params[key]] reads: the decoded value of the last pair with that key,
    and [undefined] when no pair has that key and the key names no member
    inherited from [Object.prototype]. *)
Theorem getUrlParams_query_string lead pieces params key :
  query_lead lead pieces = true ->
  forallb query_piece pieces = true ->
  forallb (fun kv : string * string => negb (String.eqb (fst kv) "__proto__"))
          (query_pairs pieces) = true ->
  store_matches (query_pairs pieces) ∅ = Return params ->
  converts key = true ->
  url_matches (lead ++ query_string pieces) = query_pairs pieces
  /\ getUrlParams (lead ++ query_string pieces) key
     = Return (if truthy key
               then OneValue (read_param params (ToString key))
               else WholeObject params)
  /\ forall k,
       match last_value k (query_pairs pieces) with
       | Some v => exists d, decodeURIComponent v = Return d
                             /\ params !! k = Some d
                             /\ read_param params k = OwnString d
       | None => params !! k = None
                 /\ (inherited_name k = false -> read_param params k = PropUndefined)
       end.
Proof.
  intros Hlead Hwf Hproto Hstore _.
  pose proof (url_matches_lead _ _ Hlead Hwf) as Hm.
  split; [exact Hm|]. split.
  - unfold getUrlParams. rewrite Hm, Hstore. reflexivity.
  - intros k.
    pose proof (store_matches_lookup _ _ _ Hstore k) as H.
    unfold read_param.
    destruct (String.eqb_spec k "__proto__") as [Heq|Hk].
    + subst k. rewrite (last_value_absent _ _ Hproto), H, lookup_empty.
      split; [reflexivity|]. intros Hinh. now rewrite Hinh.
    + destruct (last_value k (query_pairs pieces)) as [v|].
      * destruct H as (d & Hd & Hp). exists d. now rewrite Hp.
      * rewrite H, lookup_empty. split; [reflexivity|]. intros Hinh. now rewrite Hinh.
Qed.

Lemma getUrlParams_query_string_witness :
  getUrlParams "a=1&b=two%20words&&debug&a=2" (JStr "a")
  = Return (OneValue (OwnString "2")).
Proof.
  refine (proj1 (proj2
    (getUrlParams_query_string ""
       [PairPiece "a" "1"; PairPiece "b" "two%20words"; PlainPiece ""; PlainPiece "debug";
        PairPiece "a" "2"]
       (<["a" := "2"]> (<["b" := "two words"]> (<["a" := "1"]> ∅))) (JStr "a")
       _ _ _ _ _)));
  reflexivity.
Defined.

(** ** The url of a request *)

Example url_v1_with_params (jq : JSValue -> string) :
  request_url jq
    {| method := "GET"; headers := NoHeaders; apiVersion := "v1";
       endpoint := "observations";
       params := JObj [("user_login", JStr "mickley")];
       fields := JUndefined; data := JUndefined; callbacks := AppCallbacks 0 |}
  = "https://api.inaturalist.org/v1/observations?"
    ++ jq (JObj [("user_login", JStr "mickley")]).
Proof. reflexivity. Qed.

(** C1, as stated, does not hold: the dispatcher does not call [toRISON].
    The probe of [checkAuthentication] has [fields: "login"], whose
    encoding is ["(login:!t)"]; the url ends in [fields=login]. *)
Lemma fields_are_not_encoded :
  ~ (forall (jq : JSValue -> string) request encoded,
       apiVersion request = "v2" ->
       loose_eq_empty (fields request) = false ->
       toRISON (fields request) = Return (JStr encoded) ->
       request_url jq request
       = params_url jq request
         ++ (if typeof_object (params request) then "&" else "?")
         ++ "fields=" ++ encoded).
Proof.
  intros H.
  specialize (H (fun _ => "") (probe_request 0) "(login:!t)" eq_refl eq_refl eq_refl).
  vm_compute in H. discriminate H.
Qed.

(** C1, amended.  For every request with [apiVersion] ["v2"] and a
    [fields] value that is not loosely equal to the empty string, the
    value appended as [fields=] is the [fields] value itself, converted
    to a string by the concatenation; encoding it with [toRISON] is left
    to the caller. *)
Theorem request_url_fields_verbatim (jq : JSValue -> string) request :
  apiVersion request = "v2" ->
  loose_eq_empty (fields request) = false ->
  request_url jq request
  = params_url jq request
    ++ (if typeof_object (params request) then "&" else "?")
    ++ "fields=" ++ ToString (fields request).
Proof.
  intros Hv Hf. unfold request_url. now rewrite Hv, Hf.
Qed.

Lemma request_url_fields_verbatim_witness :
  request_url (fun _ => "") (probe_request 0)
  = "https://api.inaturalist.org/v2/users/me?fields=login".
Proof.
  exact (request_url_fields_verbatim (fun _ => "") (probe_request 0) eq_refl eq_refl).
Defined.

(** What does hold of the presence of the parameter: with a string (or
    no [v2]) the url is as the specification says. *)
Lemma request_url_string_fields (jq : JSValue -> string) request s :
  fields request = JStr s ->
  request_url jq request
  = if String.eqb (apiVersion request) "v2" && negb (String.eqb s "")
    then params_url jq request
         ++ (if typeof_object (params request) then "&" else "?")
         ++ "fields=" ++ s
    else params_url jq request.
Proof. intros Hf. unfold request_url. now rewrite Hf. Qed.

Lemma request_url_not_v2 (jq : JSValue -> string) request :
  String.eqb (apiVersion request) "v2" = false ->
  request_url jq request = params_url jq request.
Proof. intros Hv. unfold request_url. now rewrite Hv. Qed.

(** C2.  The program at a [v2] request that has no [fields] key:
    [undefined != ""] holds, so a [fields] parameter is appended all the
    same, with the text [undefined]. *)
Theorem request_url_absent_fields (jq : JSValue -> string) :
  request_url jq
    {| method := "GET"; headers := NoHeaders; apiVersion := "v2";
       endpoint := "observations"; params := JUndefined;
       fields := JUndefined; data := JUndefined; callbacks := AppCallbacks 0 |}
  = "https://api.inaturalist.org/v2/observations?fields=undefined".
Proof. reflexivity. Qed.

(** ** Authentication *)

(** C3, as stated, does not hold: a missing token clears nothing.  After
    a successful verification of the token ["tok"] for the user ["bob"],
    [checkAuthentication("", 1)] reports [false] and leaves both the
    header and the identity in place. *)
Lemma missing_token_clears_nothing :
  ~ (forall jq options es token callback w,
       run jq options (es ++ [Calls (CheckAuthentication token callback)]) initial_world
       = Some w ->
       truthy token = false ->
       headers_Authorization w = JStr "" /\ iNatAuthorized w = JBool false).
Proof.
  intros H.
  set (es := [Calls (CheckAuthentication (JStr "tok") 0);
              AjaxDone 0 (Succeeds (JStr "bob")) []]).
  set (w := set_auth (JStr "tok") (JStr "bob")
              (emit (VerifyCalled 1 false)
                 (emit (AjaxCompleted 0)
                    (emit (VerifyCalled 0 true)
                       (emit (SuccessCalled (ProbeCallbacks 0))
                          (emit (AjaxSent 0 (probe_request 0)
                                   "https://api.inaturalist.org/v2/users/me?fields=login"
                                   (Some (JStr "tok")))
                             initial_world)))))).
  destruct (H (fun _ => "") apiOptions es (JStr "") 1%nat w eq_refl eq_refl) as [Hh _].
  discriminate Hh.
Qed.

(** ** The dispatcher, one function at a time *)

Section DispatcherFacts.

Variable jq : JSValue -> string.
Variable options : ApiOptions.

Lemma fired_app (l1 l2 : list Effect) : fired (l1 ++ l2) = (fired l1 ++ fired l2)%list.
Proof.
  induction l1 as [|e l1 IH]; [reflexivity|].
  destruct e; cbn [fired app]; now rewrite ?IH.
Qed.

Lemma sent_app (l1 l2 : list Effect) : sent (l1 ++ l2) = (sent l1 ++ sent l2)%list.
Proof.
  induction l1 as [|e l1 IH]; [reflexivity|].
  destruct e; cbn [sent app]; now rewrite ?IH.
Qed.

(** [makeINatRequest] on a queue that is not empty, and on an empty one. *)
Lemma makeINatRequest_dispatch w request rest :
  iNatAPIQueue w = request :: rest ->
  let w' := makeINatRequest jq options w in
  iNatAPIQueue w' = rest
  /\ iNatAPIQueued w' = iNatAPIQueued w
  /\ iNatAPIRateLimiting w'
     = (RequestsPerMinute options <? Z.of_nat (length rest)) || iNatAPIRateLimiting w
  /\ pending_ajax w' = (pending_ajax w ++ [request])%list
  /\ pending_timers w' = pending_timers w
  /\ clock w' = clock w
  /\ headers_Authorization w' = headers_Authorization w
  /\ iNatAuthorized w' = iNatAuthorized w
  /\ effects w'
     = (effects w ++ [AjaxSent (clock w) request (request_url jq request)
                               (sent_authorization request w)])%list.
Proof.
  intros Hq. unfold makeINatRequest. rewrite Hq.
  destruct (RequestsPerMinute options <? Z.of_nat (length rest));
    cbn; repeat split; reflexivity.
Qed.

Lemma makeINatRequest_idle w :
  iNatAPIQueue w = [] ->
  makeINatRequest jq options w = set_flags false false w.
Proof. intros Hq. unfold makeINatRequest. now rewrite Hq. Qed.

(** A call made while the queue is active only appends to the queue (and
    may change the header or report a missing token). *)
Lemma app_call_active c w :
  iNatAPIQueued w = true ->
  let w' := app_call jq options c w in
  iNatAPIQueue w' = (iNatAPIQueue w ++ call_requests c)%list
  /\ iNatAPIQueued w' = true
  /\ iNatAPIRateLimiting w' = iNatAPIRateLimiting w
  /\ pending_ajax w' = pending_ajax w
  /\ pending_timers w' = pending_timers w
  /\ clock w' = clock w
  /\ fired (effects w') = fired (effects w)
  /\ sent (effects w') = sent (effects w).
Proof.
  intros Hq. destruct c as [request|token callback]; cbn [app_call call_requests].
  - unfold queueINatRequest. cbn. rewrite Hq. cbn. repeat split; reflexivity.
  - unfold checkAuthentication. destruct (truthy token).
    + unfold queueINatRequest. cbn. rewrite Hq. cbn. repeat split; reflexivity.
    + cbn. rewrite app_nil_r, fired_app, sent_app. cbn. rewrite !app_nil_r.
      repeat split; first [exact Hq | reflexivity].
Qed.

Lemma app_calls_active calls : forall w,
  iNatAPIQueued w = true ->
  let w' := fold_left (fun w c => app_call jq options c w) calls w in
  iNatAPIQueue w' = (iNatAPIQueue w ++ flat_map call_requests calls)%list
  /\ iNatAPIQueued w' = true
  /\ iNatAPIRateLimiting w' = iNatAPIRateLimiting w
  /\ pending_ajax w' = pending_ajax w
  /\ pending_timers w' = pending_timers w
  /\ clock w' = clock w
  /\ fired (effects w') = fired (effects w)
  /\ sent (effects w') = sent (effects w).
Proof.
  induction calls as [|c calls IH]; intros w Hq; cbn [fold_left flat_map].
  - rewrite app_nil_r. repeat split; [exact Hq|..]; reflexivity.
  - destruct (app_call_active c w Hq) as (Hqu & Hqd & Hrl & Hpa & Hpt & Hcl & Hf & Hs).
    destruct (IH _ Hqd) as (Hqu' & Hqd' & Hrl' & Hpa' & Hpt' & Hcl' & Hf' & Hs').
    cbv zeta. rewrite Hqu', Hqu, Hrl', Hrl, Hpa', Hpa, Hpt', Hpt, Hcl', Hcl, Hf', Hf, Hs', Hs.
    rewrite <- app_assoc. repeat split; [exact Hqd'|..]; reflexivity.
Qed.

(** No call clears the rate-limiting flag. *)
Lemma app_call_keeps_limiting c w :
  iNatAPIRateLimiting w = true ->
  iNatAPIRateLimiting (app_call jq options c w) = true.
Proof.
  intros Hrl.
  assert (Hq : forall request,
             iNatAPIRateLimiting w = true ->
             forall a i, iNatAPIRateLimiting
               (queueINatRequest jq options request (set_auth a i w)) = true).
  { intros request Hw a i. unfold queueINatRequest. cbn.
    destruct (iNatAPIQueued w); cbn; [exact Hw|].
    unfold makeINatRequest. cbn.
    destruct (iNatAPIQueue w ++ [request])%list as [|r q] eqn:Hl.
    - now destruct (iNatAPIQueue w).
    - destruct (RequestsPerMinute options <? Z.of_nat (length q)); cbn; [reflexivity|exact Hw]. }
  destruct c as [request|token callback]; cbn [app_call].
  - specialize (Hq request Hrl (headers_Authorization w) (iNatAuthorized w)).
    destruct w. exact Hq.
  - unfold checkAuthentication. destruct (truthy token); [now apply Hq|exact Hrl].
Qed.

Lemma app_calls_keep_limiting calls : forall w,
  iNatAPIRateLimiting w = true ->
  iNatAPIRateLimiting (fold_left (fun w c => app_call jq options c w) calls w) = true.
Proof.
  induction calls as [|c calls IH]; intros w Hrl; [exact Hrl|].
  cbn [fold_left]. apply IH. now apply app_call_keeps_limiting.
Qed.

(** No call clears the queue-active flag. *)
Lemma app_call_keeps_active c w :
  iNatAPIQueued w = true -> iNatAPIQueued (app_call jq options c w) = true.
Proof. intros Hq. now destruct (app_call_active c w Hq) as (_ & H & _). Qed.

(** Settling a call runs the request's callback and touches nothing of
    the queue. *)
Lemma settle_state request o w :
  let w' := settle request o w in
  iNatAPIQueue w' = iNatAPIQueue w
  /\ iNatAPIQueued w' = iNatAPIQueued w
  /\ iNatAPIRateLimiting w' = iNatAPIRateLimiting w
  /\ pending_ajax w' = pending_ajax w
  /\ pending_timers w' = pending_timers w
  /\ clock w' = clock w
  /\ fired (effects w') = (fired (effects w) ++ [callbacks request])%list
  /\ sent (effects w') = sent (effects w).
Proof.
  unfold settle. destruct o, (callbacks request); cbn;
    rewrite ?fired_app, ?sent_app; cbn; rewrite ?app_nil_r, <- ?app_assoc;
    repeat split; reflexivity.
Qed.

(** The [complete] function changes no credential. *)
Lemma complete_auth w :
  headers_Authorization (complete jq options w) = headers_Authorization w
  /\ iNatAuthorized (complete jq options w) = iNatAuthorized w
  /\ exists added, effects (complete jq options w) = (effects w ++ added)%list.
Proof.
  unfold complete. cbn. destruct (iNatAPIRateLimiting w); cbn.
  - repeat split. eexists. rewrite <- app_assoc. reflexivity.
  - unfold makeINatRequest. cbn. destruct (iNatAPIQueue w) as [|r q]; cbn.
    + repeat split. eexists. reflexivity.
    + destruct (RequestsPerMinute options <? Z.of_nat (length q)); cbn;
        (repeat split; eexists; rewrite <- app_assoc; reflexivity).
Qed.

(** C3, amended.  When the probe request errors, the [Authorization]
    header and the authorized identity are cleared and [false] is reported
    through the callback of [checkAuthentication].  When the token is
    missing or falsy, [false] is reported at once, no request is queued,
    and the header and the identity stay as they were. *)
Theorem checkAuthentication_failure :
  (forall w k callback w',
      pending_ajax w !! k = Some (probe_request callback) ->
      step jq options (AjaxDone k Fails []) w = Some w' ->
      headers_Authorization w' = JStr ""
      /\ iNatAuthorized w' = JBool false
      /\ In (VerifyCalled callback false) (effects w'))
  /\ (forall token callback w,
         truthy token = false ->
         let w' := checkAuthentication jq options token callback w in
         headers_Authorization w' = headers_Authorization w
         /\ iNatAuthorized w' = iNatAuthorized w
         /\ iNatAPIQueue w' = iNatAPIQueue w
         /\ pending_ajax w' = pending_ajax w
         /\ effects w' = (effects w ++ [VerifyCalled callback false])%list).
Proof.
  split.
  - intros w k callback w' Hk Hstep. cbn [step] in Hstep. rewrite Hk in Hstep.
    injection Hstep as <-. cbn [fold_left].
    match goal with |- context [complete jq options ?x] =>
      destruct (complete_auth x) as (-> & -> & added & ->) end.
    cbn. repeat split. apply in_or_app. left. apply in_or_app. right. now left.
  - intros token callback w Hfalsy. unfold checkAuthentication. rewrite Hfalsy.
    cbn. repeat split; reflexivity.
Qed.

(** ** The rate-limiting flag *)

(** Where the flag comes from.  A dispatch step that sets it has sent a
    request and left more than the threshold behind. *)
Lemma makeINatRequest_sets_limiting w :
  iNatAPIRateLimiting w = false ->
  iNatAPIRateLimiting (makeINatRequest jq options w) = true ->
  RequestsPerMinute options < Z.of_nat (length (iNatAPIQueue (makeINatRequest jq options w)))
  /\ (length (sent (effects w)) < length (sent (effects (makeINatRequest jq options w))))%nat.
Proof.
  intros Hrl Hrl'. destruct (iNatAPIQueue w) as [|request rest] eqn:Hq.
  - rewrite (makeINatRequest_idle w Hq) in Hrl'. discriminate Hrl'.
  - destruct (makeINatRequest_dispatch w request rest Hq)
      as (Hqu & _ & Hfl & _ & _ & _ & _ & _ & Hef).
    cbv zeta in *. rewrite Hfl, Hrl, orb_false_r in Hrl'. apply Z.ltb_lt in Hrl'.
    rewrite Hqu, Hef, sent_app, length_app. cbn [sent length]. split; [exact Hrl'|lia].
Qed.

(** A call shortens no queue and takes back nothing sent; it sets the
    flag only by a dispatch step of its own. *)
Lemma app_call_sets_limiting c w :
  (length (iNatAPIQueue w) <= length (iNatAPIQueue (app_call jq options c w)))%nat
  /\ (length (sent (effects w)) <= length (sent (effects (app_call jq options c w))))%nat
  /\ (iNatAPIRateLimiting w = false ->
      iNatAPIRateLimiting (app_call jq options c w) = true ->
      RequestsPerMinute options < Z.of_nat (length (iNatAPIQueue (app_call jq options c w)))
      /\ (length (sent (effects w))
          < length (sent (effects (app_call jq options c w))))%nat).
Proof.
  assert (Hq : forall request a i,
             let w' := queueINatRequest jq options request (set_auth a i w) in
             (length (iNatAPIQueue w) <= length (iNatAPIQueue w'))%nat
             /\ (length (sent (effects w)) <= length (sent (effects w')))%nat
             /\ (iNatAPIRateLimiting w = false -> iNatAPIRateLimiting w' = true ->
                 RequestsPerMinute options < Z.of_nat (length (iNatAPIQueue w'))
                 /\ (length (sent (effects w)) < length (sent (effects w')))%nat)).
  { intros request a i. unfold queueINatRequest. cbn.
    destruct (iNatAPIQueued w); cbn.
    - rewrite length_app. cbn [length]. split; [lia|]. split; [lia|]. congruence.
    - unfold makeINatRequest. cbn.
      destruct (iNatAPIQueue w ++ [request])%list as [|r q] eqn:Hl.
      + now destruct (iNatAPIQueue w).
      + apply (f_equal (@length _)) in Hl. rewrite length_app in Hl. cbn [length] in Hl.
        destruct (RequestsPerMinute options <? Z.of_nat (length q)) eqn:Hlt; cbn;
          rewrite sent_app, length_app; cbn [sent length];
          (split; [lia|]; split; [lia|]).
        * intros _ _. apply Z.ltb_lt in Hlt. split; [exact Hlt|lia].
        * congruence. }
  destruct c as [request|token callback]; cbn [app_call].
  - specialize (Hq request (headers_Authorization w) (iNatAuthorized w)).
    destruct w. exact Hq.
  - unfold checkAuthentication. destruct (truthy token); [apply Hq|].
    cbn. rewrite sent_app. cbn [sent]. rewrite app_nil_r.
    split; [lia|]. split; [lia|]. congruence.
Qed.

Lemma app_calls_set_limiting calls : forall w,
  let w' := fold_left (fun w c => app_call jq options c w) calls w in
  (length (iNatAPIQueue w) <= length (iNatAPIQueue w'))%nat
  /\ (length (sent (effects w)) <= length (sent (effects w')))%nat
  /\ (iNatAPIRateLimiting w = false -> iNatAPIRateLimiting w' = true ->
      RequestsPerMinute options < Z.of_nat (length (iNatAPIQueue w'))
      /\ (length (sent (effects w)) < length (sent (effects w')))%nat).
Proof.
  induction calls as [|c calls IH]; intros w; cbn [fold_left].
  - split; [lia|]. split; [lia|]. congruence.
  - destruct (app_call_sets_limiting c w) as (Hqu & Hse & Hfl).
    destruct (IH (app_call jq options c w)) as (Hqu' & Hse' & Hfl'). cbv zeta in *.
    split; [lia|]. split; [lia|]. intros Hrl Hrl'.
    destruct (iNatAPIRateLimiting (app_call jq options c w)) eqn:Hmid.
    + destruct (Hfl Hrl eq_refl) as [Hlt Hgrow]. split; lia.
    + destruct (Hfl' eq_refl Hrl') as [Hlt Hgrow]. split; lia.
Qed.

(** C5.  A dispatch step that pops a request sets the rate-limiting flag
    exactly when the remaining queue is longer than the threshold, and
    otherwise leaves both flags as they are; a dispatch step that finds the
    queue empty clears both flags.  No other step clears them: a set
    rate-limiting flag is cleared only by a timer's dispatch step that
    finds the queue empty, and the queue-active flag only by a dispatch
    step (after a completion or a timer) that finds the queue empty.  And
    no other step sets the rate-limiting flag: whatever event sets it has
    sent a request, and the queue it leaves behind is longer than the
    threshold. *)
Theorem rate_limiting_flag :
  (forall w request rest,
      iNatAPIQueue w = request :: rest ->
      iNatAPIRateLimiting (makeINatRequest jq options w)
      = (RequestsPerMinute options <? Z.of_nat (length rest)) || iNatAPIRateLimiting w
      /\ iNatAPIQueued (makeINatRequest jq options w) = iNatAPIQueued w)
  /\ (forall w,
         iNatAPIQueue w = [] ->
         iNatAPIRateLimiting (makeINatRequest jq options w) = false
         /\ iNatAPIQueued (makeINatRequest jq options w) = false)
  /\ (forall e w w',
         step jq options e w = Some w' ->
         iNatAPIRateLimiting w = true ->
         iNatAPIRateLimiting w' = false ->
         (exists k, e = TimerFires k) /\ iNatAPIQueue w = [] /\ iNatAPIQueued w' = false)
  /\ (forall e w w',
         step jq options e w = Some w' ->
         iNatAPIQueued w = true ->
         iNatAPIQueued w' = false ->
         ((exists k o calls, e = AjaxDone k o calls) \/ (exists k, e = TimerFires k))
         /\ iNatAPIQueue w' = [] /\ iNatAPIRateLimiting w' = false)
  /\ (forall e w w',
         step jq options e w = Some w' ->
         iNatAPIRateLimiting w = false ->
         iNatAPIRateLimiting w' = true ->
         RequestsPerMinute options < Z.of_nat (length (iNatAPIQueue w'))
         /\ (length (sent (effects w)) < length (sent (effects w')))%nat).
Proof.
  split; [|split; [|split; [|split]]].
  - intros w request rest Hq.
    destruct (makeINatRequest_dispatch w request rest Hq) as (_ & Hqd & Hrl & _).
    now split.
  - intros w Hq. rewrite (makeINatRequest_idle w Hq). now split.
  - intros e w w' Hstep Hrl Hrl'.
    destruct e as [c|k o calls|k|dt]; cbn [step] in Hstep.
    + injection Hstep as <-. now rewrite app_call_keeps_limiting in Hrl'.
    + destruct (pending_ajax w !! k) as [request|]; [|discriminate].
      injection Hstep as <-. exfalso. revert Hrl'.
      match goal with |- context [fold_left ?f calls ?x] =>
        assert (Hmid : iNatAPIRateLimiting (fold_left f calls x) = true) end.
      { apply app_calls_keep_limiting.
        match goal with |- context [settle request o ?y] =>
          destruct (settle_state request o y) as (_ & _ & -> & _) end.
        exact Hrl. }
      unfold complete. cbn. rewrite Hmid. cbn. now rewrite Hmid.
    + destruct (pending_timers w !! k) as [due|]; [|discriminate].
      destruct (due <=? clock w); [|discriminate].
      injection Hstep as <-. revert Hrl'.
      unfold makeINatRequest. cbn.
      destruct (iNatAPIQueue w) as [|r q]; cbn.
      * intros _. eauto.
      * destruct (RequestsPerMinute options <? Z.of_nat (length q)); cbn; congruence.
    + destruct (0 <=? dt); [|discriminate].
      injection Hstep as <-. cbn in Hrl'. congruence.
  - intros e w w' Hstep Hq Hq'.
    destruct e as [c|k o calls|k|dt]; cbn [step] in Hstep.
    + injection Hstep as <-. now rewrite app_call_keeps_active in Hq'.
    + destruct (pending_ajax w !! k) as [request|]; [|discriminate].
      injection Hstep as <-. split; [eauto 6|]. revert Hq'.
      match goal with |- context [fold_left ?f calls ?x] =>
        assert (Hx : iNatAPIQueued x = true)
          by (match goal with |- context [settle request o ?y] =>
                destruct (settle_state request o y) as (_ & -> & _) end; exact Hq);
        destruct (app_calls_active calls x Hx) as (_ & Hmid & _);
        cbv zeta in Hmid; set (mid := fold_left f calls x) in * end.
      unfold complete. cbn. destruct (iNatAPIRateLimiting mid); cbn; [congruence|].
      unfold makeINatRequest. cbn.
      destruct (iNatAPIQueue mid) as [|r q] eqn:Hmq; cbn.
      * intros _. now rewrite Hmq.
      * destruct (RequestsPerMinute options <? Z.of_nat (length q)); cbn; congruence.
    + destruct (pending_timers w !! k) as [due|]; [|discriminate].
      destruct (due <=? clock w); [|discriminate].
      injection Hstep as <-. split; [eauto|]. revert Hq'.
      unfold makeINatRequest. cbn.
      destruct (iNatAPIQueue w) as [|r q] eqn:Hwq; cbn.
      * intros _. now rewrite Hwq.
      * destruct (RequestsPerMinute options <? Z.of_nat (length q)); cbn; congruence.
    + destruct (0 <=? dt); [|discriminate].
      injection Hstep as <-. cbn in Hq'. congruence.
  - intros e w w' Hstep Hrl Hrl'.
    destruct e as [c|k o calls|k|dt]; cbn [step] in Hstep.
    + injection Hstep as <-.
      now apply (proj2 (proj2 (app_call_sets_limiting c w))).
    + destruct (pending_ajax w !! k) as [request|]; [|discriminate].
      injection Hstep as <-. revert Hrl'.
      match goal with |- context [fold_left ?f calls ?x] =>
        assert (Hx : iNatAPIRateLimiting x = false
                     /\ sent (effects x) = sent (effects w))
          by (match goal with |- context [settle request o ?y] =>
                destruct (settle_state request o y) as (_ & _ & -> & _ & _ & _ & _ & ->)
              end; split; [exact Hrl|reflexivity]);
        destruct (app_calls_set_limiting calls x) as (_ & Hse & Hfl);
        cbv zeta in Hse, Hfl; set (mid := fold_left f calls x) in * end.
      destruct Hx as [Hx Hsx]. rewrite Hsx in *. specialize (Hfl Hx).
      unfold complete. cbn. destruct (iNatAPIRateLimiting mid) eqn:Hmid; cbn.
      * intros _. rewrite <- app_assoc, sent_app. cbn [sent app]. rewrite app_nil_r.
        exact (Hfl eq_refl).
      * intros Hrl'.
        match type of Hrl' with iNatAPIRateLimiting (makeINatRequest _ _ ?z) = true =>
          destruct (makeINatRequest_sets_limiting z Hmid Hrl') as [Hlt Hgrow];
          cbn in Hgrow; rewrite sent_app in Hgrow; cbn [sent] in Hgrow;
          rewrite app_nil_r in Hgrow end.
        split; [exact Hlt|lia].
    + destruct (pending_timers w !! k) as [due|]; [|discriminate].
      destruct (due <=? clock w); [|discriminate].
      injection Hstep as <-.
      match type of Hrl' with iNatAPIRateLimiting (makeINatRequest _ _ ?z) = true =>
        exact (makeINatRequest_sets_limiting z Hrl Hrl') end.
    + destruct (0 <=? dt); [|discriminate].
      injection Hstep as <-. cbn in Hrl'. congruence.
Qed.

(** ** One completion, one timer *)

Lemma inv_in_flight w request others :
  queue_inv w -> pending_ajax w = request :: others ->
  others = [] /\ pending_timers w = [] /\ iNatAPIQueued w = true.
Proof.
  unfold queue_inv. intros Hinv Hp. rewrite Hp in Hinv.
  destruct (iNatAPIQueued w).
  - cbn in Hinv. destruct others, (pending_timers w); cbn in Hinv; try lia. now repeat split.
  - now destruct Hinv as (_ & ? & _).
Qed.

Lemma inv_timer w due others :
  queue_inv w -> pending_timers w = due :: others ->
  others = [] /\ pending_ajax w = [] /\ iNatAPIQueued w = true.
Proof.
  unfold queue_inv. intros Hinv Hp. rewrite Hp in Hinv.
  destruct (iNatAPIQueued w).
  - cbn in Hinv. destruct others, (pending_ajax w); cbn in Hinv; try lia. now repeat split.
  - now destruct Hinv as (_ & _ & ?).
Qed.

(** The dispatch step of an active queue with nothing outstanding. *)
Lemma makeINatRequest_next w :
  iNatAPIQueued w = true -> pending_ajax w = [] -> pending_timers w = [] ->
  let w' := makeINatRequest jq options w in
  queue_inv w'
  /\ (pending_ajax w' ++ iNatAPIQueue w')%list = iNatAPIQueue w
  /\ pending_timers w' = []
  /\ fired (effects w') = fired (effects w)
  /\ sent (effects w')
     = (sent (effects w) ++ map (pair (clock w)) (firstn 1 (iNatAPIQueue w)))%list
  /\ clock w' = clock w.
Proof.
  intros Hact Hpa Hpt. destruct (iNatAPIQueue w) as [|r q] eqn:Hq.
  - rewrite (makeINatRequest_idle w Hq). unfold queue_inv. cbn.
    rewrite Hq, Hpa, Hpt, !app_nil_r. repeat split; congruence.
  - destruct (makeINatRequest_dispatch w r q Hq)
      as (Hqu & Hqd & Hrl & Hpa' & Hpt' & Hcl & _ & _ & Heff).
    cbv zeta in *. unfold queue_inv.
    rewrite Hqu, Hqd, Hpa', Hpt', Hcl, Heff, Hpa, Hpt, fired_app, sent_app, Hact.
    cbn. rewrite !app_nil_r. repeat split; congruence.
Qed.

(** What a completion does to a well-shaped world. *)
Lemma step_ajax_done w k o calls w' :
  queue_inv w ->
  step jq options (AjaxDone k o calls) w = Some w' ->
  exists request,
    pending_ajax w = [request] /\ pending_timers w = [] /\ k = 0%nat
    /\ fired (effects w') = (fired (effects w) ++ [callbacks request])%list
    /\ clock w' = clock w
    /\ if iNatAPIRateLimiting w
       then iNatAPIQueue w' = (iNatAPIQueue w ++ flat_map call_requests calls)%list
            /\ pending_ajax w' = []
            /\ pending_timers w' = [clock w + APITimeout options]
            /\ iNatAPIQueued w' = true
            /\ iNatAPIRateLimiting w' = true
            /\ sent (effects w') = sent (effects w)
       else queue_inv w'
            /\ (pending_ajax w' ++ iNatAPIQueue w')%list
               = (iNatAPIQueue w ++ flat_map call_requests calls)%list
            /\ pending_timers w' = []
            /\ sent (effects w')
               = (sent (effects w)
                  ++ map (pair (clock w))
                       (firstn 1 (iNatAPIQueue w ++ flat_map call_requests calls)))%list.
Proof.
  intros Hinv Hstep. cbn [step] in Hstep.
  destruct (pending_ajax w) as [|request others] eqn:Hpa; [discriminate|].
  destruct (inv_in_flight w request others Hinv Hpa) as (-> & Hpt & Hact).
  destruct k as [|k]; [|discriminate]. cbn in Hstep.
  injection Hstep as <-. exists request.
  match goal with |- context [settle request o ?x] =>
    pose proof (settle_state request o x) as Hs; cbv zeta in Hs; cbn in Hs;
    destruct Hs as (Hs1 & Hs2 & Hs3 & Hs4 & Hs5 & Hs6 & Hs7 & Hs8);
    set (w1 := settle request o x) in * end.
  rewrite Hact in Hs2.
  pose proof (app_calls_active calls w1 Hs2) as Hc. cbv zeta in Hc.
  destruct Hc as (Hc1 & Hc2 & Hc3 & Hc4 & Hc5 & Hc6 & Hc7 & Hc8).
  set (w2 := fold_left (fun w c => app_call jq options c w) calls w1) in *.
  split; [reflexivity|]. split; [exact Hpt|]. split; [reflexivity|].
  split; [|split].
  - unfold complete. cbn. destruct (iNatAPIRateLimiting w2); cbn.
    + rewrite !fired_app. cbn. rewrite !app_nil_r. congruence.
    + destruct (makeINatRequest_next (emit (AjaxCompleted (clock w2)) w2))
        as (_ & _ & _ & -> & _); cbn; try congruence.
      rewrite fired_app. cbn. rewrite app_nil_r. congruence.
  - unfold complete. cbn. destruct (iNatAPIRateLimiting w2); cbn; [congruence|].
    destruct (makeINatRequest_next (emit (AjaxCompleted (clock w2)) w2))
      as (_ & _ & _ & _ & _ & ->); cbn; congruence.
  - unfold complete. cbn. rewrite Hc3, Hs3.
    destruct (iNatAPIRateLimiting w) eqn:Hrl; cbn.
    + rewrite Hc1, Hs1, Hc4, Hs4, Hc5, Hs5, Hpt, Hc6, Hs6, !sent_app.
      cbn. rewrite !app_nil_r. repeat split; congruence.
    + destruct (makeINatRequest_next (emit (AjaxCompleted (clock w2)) w2))
        as (Hi & Hpq & Ht & _ & Hsent & _); cbn; try congruence.
      cbn in Hpq, Hsent. rewrite sent_app in Hsent. cbn in Hsent.
      rewrite app_nil_r in Hsent.
      repeat split; [exact Hi | congruence | exact Ht | congruence].
Qed.

(** What a timer does to a well-shaped world. *)
Lemma step_timer w k w' :
  queue_inv w ->
  step jq options (TimerFires k) w = Some w' ->
  exists due,
    pending_timers w = [due] /\ pending_ajax w = [] /\ k = 0%nat
    /\ due <= clock w
    /\ queue_inv w'
    /\ (pending_ajax w' ++ iNatAPIQueue w')%list = iNatAPIQueue w
    /\ pending_timers w' = []
    /\ fired (effects w') = fired (effects w)
    /\ sent (effects w')
       = (sent (effects w) ++ map (pair (clock w)) (firstn 1 (iNatAPIQueue w)))%list
    /\ clock w' = clock w.
Proof.
  intros Hinv Hstep. cbn [step] in Hstep.
  destruct (pending_timers w) as [|due others] eqn:Hpt; [discriminate|].
  destruct (inv_timer w due others Hinv Hpt) as (-> & Hpa & Hact).
  destruct k as [|k]; [|discriminate]. cbn in Hstep.
  destruct (due <=? clock w) eqn:Hdue; [|discriminate].
  injection Hstep as <-. exists due.
  match goal with |- context [makeINatRequest jq options ?x] =>
    destruct (makeINatRequest_next x) as (Hi & Hpq & Ht & Hf & Hsent & Hcl);
    [exact Hact | exact Hpa | reflexivity |] end.
  repeat split; try assumption. lia.
Qed.

(** What a call does to a well-shaped world. *)
Lemma step_call w c :
  queue_inv w ->
  let w' := app_call jq options c w in
  queue_inv w'
  /\ (pending_ajax w' ++ iNatAPIQueue w')%list
     = (pending_ajax w ++ iNatAPIQueue w ++ call_requests c)%list
  /\ pending_timers w' = pending_timers w
  /\ fired (effects w') = fired (effects w)
  /\ clock w' = clock w.
Proof.
  intros Hinv. destruct (iNatAPIQueued w) eqn:Hact.
  - destruct (app_call_active c w Hact) as (Hc1 & Hc2 & Hc3 & Hc4 & Hc5 & Hc6 & Hc7 & Hc8).
    cbv zeta in *. unfold queue_inv in *. rewrite Hact in Hinv.
    rewrite Hc1, Hc2, Hc4, Hc5. repeat split; assumption.
  - unfold queue_inv in Hinv. rewrite Hact in Hinv. destruct Hinv as (Hq & Hpa & Hpt).
    assert (Hqueue : forall request a i,
               let w' := queueINatRequest jq options request (set_auth a i w) in
               queue_inv w'
               /\ (pending_ajax w' ++ iNatAPIQueue w')%list = [request]
               /\ pending_timers w' = []
               /\ fired (effects w') = fired (effects w)
               /\ clock w' = clock w).
    { intros request a i. unfold queueINatRequest, makeINatRequest, queue_inv. cbn.
      rewrite Hact, Hq. cbn.
      destruct (RequestsPerMinute options <? Z.of_nat 0); cbn;
        rewrite Hpa, Hpt, fired_app; cbn; rewrite app_nil_r; repeat split; reflexivity. }
    rewrite Hq, Hpa, Hpt. cbn [app]. cbv zeta.
    destruct c as [request|token callback]; cbn [app_call call_requests].
    + specialize (Hqueue request (headers_Authorization w) (iNatAuthorized w)).
      destruct w. exact Hqueue.
    + unfold checkAuthentication. destruct (truthy token); [apply Hqueue|].
      unfold queue_inv. cbn. rewrite Hact, Hq, Hpa, Hpt, fired_app. cbn.
      rewrite app_nil_r. repeat split; reflexivity.
Qed.

(** ** First in, first out, exactly once *)

(** Every event keeps the shape of the dispatcher, and keeps the account:
    the callbacks that have run, then those of the requests in flight and
    in the queue, are those of all requests queued so far, in order. *)
Lemma step_history e w w' :
  queue_inv w ->
  step jq options e w = Some w' ->
  queue_inv w'
  /\ (fired (effects w') ++ map callbacks (pending_ajax w' ++ iNatAPIQueue w'))%list
     = (fired (effects w) ++ map callbacks (pending_ajax w ++ iNatAPIQueue w)
        ++ map callbacks (event_requests e))%list.
Proof.
  intros Hinv Hstep. destruct e as [c|k o calls|k|dt].
  - cbn [step] in Hstep. injection Hstep as <-.
    destruct (step_call w c Hinv) as (Hi & Hpq & _ & Hf & _). cbv zeta in *.
    split; [exact Hi|]. rewrite Hpq, Hf. cbn [event_requests].
    now rewrite app_assoc, map_app.
  - destruct (step_ajax_done w k o calls w' Hinv Hstep)
      as (request & Hpa & Hpt & _ & Hf & _ & Hcase).
    cbn [event_requests]. rewrite Hf, Hpa.
    destruct (iNatAPIRateLimiting w).
    + destruct Hcase as (Hq & Hpa' & Hpt' & Hact & _).
      split.
      * unfold queue_inv. now rewrite Hact, Hpa', Hpt'.
      * rewrite Hpa', Hq. cbn [app map]. rewrite map_app, <- app_assoc. reflexivity.
    + destruct Hcase as (Hi & Hpq & _). split; [exact Hi|].
      rewrite Hpq. cbn [app map]. rewrite map_app, <- app_assoc. reflexivity.
  - destruct (step_timer w k w' Hinv Hstep)
      as (due & Hpt & Hpa & _ & _ & Hi & Hpq & _ & Hf & _).
    split; [exact Hi|]. rewrite Hf, Hpq, Hpa. cbn. now rewrite app_nil_r.
  - cbn [step] in Hstep. destruct (0 <=? dt); [|discriminate].
    injection Hstep as <-. split; [exact Hinv|]. cbn. now rewrite app_nil_r.
Qed.

Lemma run_history es : forall w w',
  queue_inv w ->
  run jq options es w = Some w' ->
  queue_inv w'
  /\ (fired (effects w') ++ map callbacks (pending_ajax w' ++ iNatAPIQueue w'))%list
     = (fired (effects w) ++ map callbacks (pending_ajax w ++ iNatAPIQueue w)
        ++ map callbacks (requested es))%list.
Proof.
  induction es as [|e es IH]; intros w w' Hinv Hrun; cbn [run] in Hrun.
  - injection Hrun as <-. split; [exact Hinv|]. cbn. now rewrite !app_nil_r.
  - destruct (step jq options e w) as [w1|] eqn:Hstep; [|discriminate].
    destruct (step_history e w w1 Hinv Hstep) as (Hi1 & Hh1).
    destruct (IH w1 w' Hi1 Hrun) as (Hi' & Hh').
    split; [exact Hi'|]. rewrite Hh', app_assoc, Hh1.
    unfold requested. cbn [flat_map]. rewrite !map_app, <- !app_assoc. reflexivity.
Qed.

(** While something is outstanding, the host can act, and each of its
    acts brings the world nearer to rest. *)
Lemma host_event_progress outcome w e :
  queue_inv w ->
  next_host_event outcome w = Some e ->
  exists w', step jq options e w = Some w'
             /\ (work w' < work w)%nat
             /\ event_requests e = [].
Proof.
  intros Hinv Hnext. unfold next_host_event in Hnext.
  destruct (pending_ajax w) as [|request others] eqn:Hpa.
  - destruct (pending_timers w) as [|due others] eqn:Hpt; [discriminate|].
    destruct (inv_timer w due others Hinv Hpt) as (-> & _ & Hact).
    destruct (due <=? clock w) eqn:Hdue; injection Hnext as <-.
    + assert (Hstep : exists w', step jq options (TimerFires 0) w = Some w').
      { cbn [step]. rewrite Hpt. cbn. rewrite Hdue. eauto. }
      destruct Hstep as (w' & Hstep). exists w'. split; [exact Hstep|].
      destruct (step_timer w 0 w' Hinv Hstep)
        as (due' & _ & _ & _ & _ & _ & Hpq & Hpt' & _).
      split; [|reflexivity]. unfold work.
      rewrite Hpt', Hpt, Hpa, <- Hpq, length_app. cbn. rewrite Hdue. lia.
    + cbn [step]. assert (H0 : (0 <=? due - clock w) = true) by lia. rewrite H0.
      eexists. split; [reflexivity|]. split; [|reflexivity].
      unfold work. cbn. rewrite Hpt. cbn. rewrite Hdue.
      assert (H1 : (due <=? clock w + (due - clock w)) = true) by lia. rewrite H1. lia.
  - destruct (inv_in_flight w request others Hinv Hpa) as (-> & Hpt & Hact).
    injection Hnext as <-.
    assert (Hstep : exists w', step jq options (AjaxDone 0 (outcome request) []) w = Some w').
    { cbn [step]. rewrite Hpa. cbn. eauto. }
    destruct Hstep as (w' & Hstep). exists w'. split; [exact Hstep|].
    destruct (step_ajax_done w 0 _ _ w' Hinv Hstep) as (r & _ & _ & _ & _ & Hcl & Hcase).
    split; [|reflexivity]. unfold work. rewrite Hpa, Hpt. cbn [flat_map] in Hcase.
    rewrite app_nil_r in Hcase.
    destruct (iNatAPIRateLimiting w).
    + destruct Hcase as (-> & -> & -> & _). cbn.
      destruct (_ <=? _); lia.
    + destruct Hcase as (_ & Hpq & -> & _). rewrite <- Hpq, length_app. cbn. lia.
Qed.

(** With enough rounds, the host brings every well-shaped world to rest,
    and by then every outstanding and queued request has had its callback
    run, in order. *)
Lemma settle_all_rest outcome fuel : forall w,
  queue_inv w ->
  (work w <= fuel)%nat ->
  let w' := settle_all jq options outcome fuel w in
  at_rest w'
  /\ iNatAPIQueue w' = []
  /\ fired (effects w')
     = (fired (effects w) ++ map callbacks (pending_ajax w ++ iNatAPIQueue w))%list.
Proof.
  induction fuel as [|fuel IH]; intros w Hinv Hwork; cbv zeta.
  - cbn [settle_all]. unfold work in Hwork.
    destruct (iNatAPIQueue w) eqn:Hq, (pending_ajax w) eqn:Hpa,
             (pending_timers w) eqn:Hpt; cbn in Hwork; try lia.
    + unfold at_rest. rewrite ?Hq, ?Hpa, ?Hpt. cbn. now rewrite app_nil_r.
    + destruct (_ <=? _); lia.
  - cbn [settle_all].
    destruct (next_host_event outcome w) as [e|] eqn:Hnext.
    + destruct (host_event_progress outcome w e Hinv Hnext) as (w1 & Hstep & Hlt & He).
      rewrite Hstep.
      destruct (step_history e w w1 Hinv Hstep) as (Hi1 & Hh1).
      destruct (IH w1 Hi1 ltac:(lia)) as (Hrest & Hq & Hf).
      split; [exact Hrest|]. split; [exact Hq|].
      rewrite Hf, Hh1, He. cbn. now rewrite app_nil_r.
    + unfold next_host_event in Hnext.
      destruct (pending_ajax w) eqn:Hpa; [|discriminate].
      destruct (pending_timers w) eqn:Hpt; [|destruct (_ <=? _); discriminate].
      unfold queue_inv in Hinv. rewrite Hpa, Hpt in Hinv.
      destruct (iNatAPIQueued w); [cbn in Hinv; lia|].
      destruct Hinv as (Hq & _). unfold at_rest.
      rewrite Hq, Hpa, Hpt. cbn. now rewrite app_nil_r.
Qed.

Lemma initial_world_inv : queue_inv initial_world.
Proof. unfold queue_inv. cbn. now repeat split. Qed.

(** C4.  After any history of calls, completions and timers, the request
    callbacks that have run, followed by those of the requests in flight
    and still queued, are exactly those of the requests passed to
    [queueINatRequest], in the order they were passed; and once the host
    has settled what is outstanding (the transport settling every call,
    with whatever outcome), the callbacks that have run are exactly those
    of the requests passed, one for each, in that order. *)
Theorem callbacks_fifo_exactly_once es w :
  run jq options es initial_world = Some w ->
  (fired (effects w) ++ map callbacks (pending_ajax w ++ iNatAPIQueue w))%list
  = map callbacks (requested es)
  /\ forall outcome fuel,
       (4 * length (requested es) + 3 <= fuel)%nat ->
       let w' := settle_all jq options outcome fuel w in
       at_rest w' /\ iNatAPIQueue w' = []
       /\ fired (effects w') = map callbacks (requested es).
Proof.
  intros Hrun.
  destruct (run_history es initial_world w initial_world_inv Hrun) as (Hinv & Hh).
  cbn in Hh. split; [exact Hh|].
  intros outcome fuel Hfuel.
  assert (Hwork : (work w <= fuel)%nat).
  { apply (f_equal (@length _)) in Hh.
    rewrite length_app, !length_map, length_app in Hh.
    unfold work. unfold queue_inv in Hinv.
    destruct (iNatAPIQueued w).
    - destruct (pending_timers w) as [|due [|]]; cbn in *; try lia.
      destruct (_ <=? _); lia.
    - destruct Hinv as (_ & _ & ->). cbn. lia. }
  destruct (settle_all_rest outcome fuel w Hinv Hwork) as (Hrest & Hq & Hf).
  cbv zeta. now rewrite Hf, Hh.
Qed.

(** ** The cooldown *)

(** The clock never runs backwards. *)
Lemma step_clock e w w' :
  queue_inv w -> step jq options e w = Some w' -> clock w <= clock w'.
Proof.
  intros Hinv Hstep. destruct e as [c|k o calls|k|dt].
  - cbn [step] in Hstep. injection Hstep as <-.
    destruct (step_call w c Hinv) as (_ & _ & _ & _ & Hcl). cbv zeta in Hcl. lia.
  - destruct (step_ajax_done w k o calls w' Hinv Hstep) as (_ & _ & _ & _ & _ & Hcl & _).
    lia.
  - destruct (step_timer w k w' Hinv Hstep) as (_ & _ & _ & _ & _ & _ & _ & _ & _ & _ & Hcl).
    lia.
  - cbn [step] in Hstep. destruct (0 <=? dt) eqn:Hdt; [|discriminate].
    injection Hstep as <-. cbn. lia.
Qed.

Lemma run_clock es : forall w w',
  queue_inv w -> run jq options es w = Some w' -> clock w <= clock w'.
Proof.
  induction es as [|e es IH]; intros w w' Hinv Hrun; cbn [run] in Hrun.
  - injection Hrun as <-. lia.
  - destruct (step jq options e w) as [w1|] eqn:Hstep; [|discriminate].
    pose proof (step_clock e w w1 Hinv Hstep).
    destruct (step_history e w w1 Hinv Hstep) as (Hi1 & _).
    pose proof (IH w1 w' Hi1 Hrun). lia.
Qed.

(** While a timer is pending, nothing is sent before it is due. *)
Lemma nothing_sent_before_due es : forall w w' due,
  queue_inv w ->
  pending_timers w = [due] ->
  run jq options es w = Some w' ->
  sent (effects w') = sent (effects w) \/ due <= clock w'.
Proof.
  induction es as [|e es IH]; intros w w' due Hinv Hpt Hrun; cbn [run] in Hrun.
  - injection Hrun as <-. now left.
  - destruct (step jq options e w) as [w1|] eqn:Hstep; [|discriminate].
    destruct (step_history e w w1 Hinv Hstep) as (Hi1 & _).
    destruct (inv_timer w due [] Hinv Hpt) as (_ & Hpa & Hact).
    destruct e as [c|k o calls|k|dt].
    + cbn [step] in Hstep. injection Hstep as <-.
      destruct (app_call_active c w Hact) as (_ & _ & _ & _ & Hpt1 & _ & _ & Hs1).
      cbv zeta in *. rewrite <- Hs1. apply IH; [exact Hi1 | congruence | exact Hrun].
    + cbn [step] in Hstep. rewrite Hpa in Hstep. discriminate.
    + destruct (step_timer w k w1 Hinv Hstep) as (due' & Hpt' & _ & _ & Hdue & _).
      right. assert (due' = due) by congruence. subst due'.
      pose proof (step_clock _ _ _ Hinv Hstep).
      pose proof (run_clock es w1 w' Hi1 Hrun). lia.
    + cbn [step] in Hstep. destruct (0 <=? dt); [|discriminate].
      injection Hstep as <-.
      apply (IH _ w' due Hi1); [exact Hpt | exact Hrun].
Qed.

(** C6, amended.  What starts the cooldown is the rate-limiting flag, which
    a dispatch step sets when the queue it leaves behind is longer than the
    threshold; a queue that grows beyond the threshold between two dispatch
    steps does not start it.  When a call completes while the flag is set,
    nothing is sent at once; a timer is set for the configured cooldown
    after the completion, and whatever happens next, no request is sent
    before the clock has reached that time.  When a call completes while
    the flag is not set, the head of the queue, if any, is sent in the same
    step, at the time of the completion, and no timer is set. *)
Theorem cooldown_follows_flag es w k o calls w1 :
  run jq options es initial_world = Some w ->
  step jq options (AjaxDone k o calls) w = Some w1 ->
  if iNatAPIRateLimiting w
  then pending_ajax w1 = []
       /\ pending_timers w1 = [clock w + APITimeout options]
       /\ sent (effects w1) = sent (effects w)
       /\ iNatAPIRateLimiting w1 = true
       /\ forall es' w2,
            run jq options es' w1 = Some w2 ->
            sent (effects w2) = sent (effects w)
            \/ clock w + APITimeout options <= clock w2
  else pending_timers w1 = []
       /\ clock w1 = clock w
       /\ sent (effects w1)
          = (sent (effects w)
             ++ map (pair (clock w))
                  (firstn 1 (iNatAPIQueue w ++ flat_map call_requests calls)))%list.
Proof.
  intros Hrun Hstep.
  destruct (run_history es initial_world w initial_world_inv Hrun) as (Hinv & _).
  destruct (step_history _ w w1 Hinv Hstep) as (Hi1 & _).
  destruct (step_ajax_done w k o calls w1 Hinv Hstep)
    as (request & _ & _ & _ & _ & Hcl & Hcase).
  destruct (iNatAPIRateLimiting w).
  - destruct Hcase as (_ & Hpa & Hpt & _ & Hrl & Hsent).
    repeat split; try assumption.
    intros es' w2 Hrun'. rewrite <- Hsent.
    now apply (nothing_sent_before_due es' w1 w2 _ Hi1 Hpt).
  - destruct Hcase as (_ & _ & Hpt & Hsent). now repeat split.
Qed.

End DispatcherFacts.

(** ** Instances *)

Lemma checkAuthentication_failure_witness :
  (exists w',
      step (fun _ => "") apiOptions (AjaxDone 0 Fails [])
        (world_after (fun _ => "") apiOptions [Calls (CheckAuthentication (JStr "tok") 3)])
      = Some w'
      /\ headers_Authorization w' = JStr ""
      /\ iNatAuthorized w' = JBool false
      /\ In (VerifyCalled 3 false) (effects w'))
  /\ truthy (JStr "") = false
  /\ headers_Authorization
       (checkAuthentication (fun _ => "") apiOptions (JStr "") 7
          (set_auth (JStr "tok") (JStr "bob") initial_world))
     = JStr "tok".
Proof.
  split; [|split; [reflexivity|]].
  - eexists. split; [vm_compute; reflexivity|].
    apply (proj1 (checkAuthentication_failure (fun _ => "") apiOptions)
             (world_after (fun _ => "") apiOptions
                [Calls (CheckAuthentication (JStr "tok") 3)]) 0%nat 3%nat);
      vm_compute; reflexivity.
  - exact (proj1 (proj2 (checkAuthentication_failure (fun _ => "") apiOptions)
                   (JStr "") 7%nat
                   (set_auth (JStr "tok") (JStr "bob") initial_world) eq_refl)).
Defined.

Lemma callbacks_fifo_exactly_once_witness :
  run (fun _ => "") apiOptions (burst 3) initial_world
  = Some (world_after (fun _ => "") apiOptions (burst 3))
  /\ (4 * length (requested (burst 3)) + 3 <= 15)%nat
  /\ fired (effects (settle_all (fun _ => "") apiOptions (fun _ => Fails) 15
                       (world_after (fun _ => "") apiOptions (burst 3))))
     = [AppCallbacks 0; AppCallbacks 1; AppCallbacks 2].
Proof.
  split; [vm_compute; reflexivity|]. split; [vm_compute; lia|].
  refine (proj2 (proj2 (proj2 (callbacks_fifo_exactly_once (fun _ => "") apiOptions
            (burst 3) (world_after (fun _ => "") apiOptions (burst 3)) _)
            (fun _ => Fails) 15%nat _))).
  - vm_compute. reflexivity.
  - vm_compute. lia.
Defined.

Lemma rate_limiting_flag_witness :
  (iNatAPIQueue (world_after (fun _ => "") small_options (burst 4))
   = [sample_request 1; sample_request 2; sample_request 3]
   /\ iNatAPIRateLimiting (world_after (fun _ => "") small_options (burst 4)) = false
   /\ iNatAPIRateLimiting
        (makeINatRequest (fun _ => "") small_options
           (world_after (fun _ => "") small_options (burst 4)))
      = (1 <? Z.of_nat 2)
        || iNatAPIRateLimiting (world_after (fun _ => "") small_options (burst 4)))
  /\ (exists w',
       step (fun _ => "") small_options (TimerFires 0)
         (world_after (fun _ => "") small_options drained_but_for_the_timer) = Some w'
       /\ iNatAPIRateLimiting
            (world_after (fun _ => "") small_options drained_but_for_the_timer) = true
       /\ iNatAPIRateLimiting w' = false
       /\ iNatAPIQueue (world_after (fun _ => "") small_options drained_but_for_the_timer) = []
       /\ iNatAPIQueued w' = false)
  /\ exists w',
       step (fun _ => "") small_options (AjaxDone 0 Fails [])
         (world_after (fun _ => "") small_options (burst 4)) = Some w'
       /\ iNatAPIRateLimiting (world_after (fun _ => "") small_options (burst 4)) = false
       /\ iNatAPIRateLimiting w' = true
       /\ RequestsPerMinute small_options < Z.of_nat (length (iNatAPIQueue w'))
       /\ (length (sent (effects (world_after (fun _ => "") small_options (burst 4))))
           < length (sent (effects w')))%nat.
Proof.
  split; [|split].
  - split; [vm_compute; reflexivity|]. split; [vm_compute; reflexivity|].
    refine (proj1 (proj1 (rate_limiting_flag (fun _ => "") small_options)
                     (world_after (fun _ => "") small_options (burst 4))
                     (sample_request 1) [sample_request 2; sample_request 3] _)).
    vm_compute. reflexivity.
  - eexists. split; [vm_compute; reflexivity|].
    split; [vm_compute; reflexivity|]. split; [vm_compute; reflexivity|].
    refine (proj2 (proj1 (proj2 (proj2 (rate_limiting_flag (fun _ => "") small_options)))
                     (TimerFires 0)
                     (world_after (fun _ => "") small_options drained_but_for_the_timer)
                     _ _ _ _)); vm_compute; reflexivity.
  - eexists. split; [vm_compute; reflexivity|].
    split; [vm_compute; reflexivity|]. split; [vm_compute; reflexivity|].
    refine (proj2 (proj2 (proj2 (proj2 (rate_limiting_flag (fun _ => "") small_options))))
              (AjaxDone 0 Fails [])
              (world_after (fun _ => "") small_options (burst 4))
              _ _ _ _); vm_compute; reflexivity.
Defined.

(** C6, as stated, does not hold: the depth of the queue alone starts no
    cooldown.  Sixty-two requests are queued in a row under the options of
    the source; the first is sent at once and sixty-one wait, more than the
    threshold of sixty.  When the first completes, the second is sent in
    the same step, without a timer: the dispatch step left sixty behind,
    which is not more than the threshold. *)
Lemma queue_depth_alone_starts_no_cooldown :
  ~ (forall (jq : JSValue -> string) es w k o calls w1,
       run jq apiOptions es initial_world = Some w ->
       RequestsPerMinute apiOptions < Z.of_nat (length (iNatAPIQueue w)) ->
       step jq apiOptions (AjaxDone k o calls) w = Some w1 ->
       pending_ajax w1 = []
       /\ pending_timers w1 = [clock w + APITimeout apiOptions]).
Proof.
  intros H.
  assert (Hrun : run (fun _ => "") apiOptions (burst 62) initial_world
                 = Some (world_after (fun _ => "") apiOptions (burst 62)))
    by (vm_compute; reflexivity).
  assert (Hdeep : RequestsPerMinute apiOptions
                  < Z.of_nat (length (iNatAPIQueue
                                        (world_after (fun _ => "") apiOptions (burst 62)))))
    by (vm_compute; reflexivity).
  assert (Hstep : step (fun _ => "") apiOptions (AjaxDone 0 Fails [])
                    (world_after (fun _ => "") apiOptions (burst 62))
                  = Some (world_after (fun _ => "") apiOptions
                            (burst 62 ++ [AjaxDone 0 Fails []])))
    by (vm_compute; reflexivity).
  destruct (H _ _ _ _ _ _ _ Hrun Hdeep Hstep) as [Hpa _].
  vm_compute in Hpa. discriminate Hpa.
Qed.

Lemma cooldown_follows_flag_witness :
  run (fun _ => "") apiOptions (burst 63 ++ [AjaxDone 0 Fails []]) initial_world
  = Some (world_after (fun _ => "") apiOptions (burst 63 ++ [AjaxDone 0 Fails []]))
  /\ step (fun _ => "") apiOptions (AjaxDone 0 Fails [])
       (world_after (fun _ => "") apiOptions (burst 63 ++ [AjaxDone 0 Fails []]))
     = Some (world_after (fun _ => "") apiOptions
               (burst 63 ++ [AjaxDone 0 Fails []; AjaxDone 0 Fails []]))
  /\ pending_timers (world_after (fun _ => "") apiOptions
                       (burst 63 ++ [AjaxDone 0 Fails []; AjaxDone 0 Fails []]))
     = [1000].
Proof.
  assert (Hrun : run (fun _ => "") apiOptions (burst 63 ++ [AjaxDone 0 Fails []])
                   initial_world
                 = Some (world_after (fun _ => "") apiOptions
                           (burst 63 ++ [AjaxDone 0 Fails []])))
    by (vm_compute; reflexivity).
  assert (Hstep : step (fun _ => "") apiOptions (AjaxDone 0 Fails [])
                    (world_after (fun _ => "") apiOptions
                       (burst 63 ++ [AjaxDone 0 Fails []]))
                  = Some (world_after (fun _ => "") apiOptions
                            (burst 63 ++ [AjaxDone 0 Fails []; AjaxDone 0 Fails []])))
    by (vm_compute; reflexivity).
  split; [exact Hrun|]. split; [exact Hstep|].
  pose proof (cooldown_follows_flag (fun _ => "") apiOptions _ _ _ _ _ _ Hrun Hstep) as H.
  assert (Hrl : iNatAPIRateLimiting
                  (world_after (fun _ => "") apiOptions
                     (burst 63 ++ [AjaxDone 0 Fails []])) = true)
    by (vm_compute; reflexivity).
  rewrite Hrl in H. destruct H as (_ & Hpt & _).
  rewrite Hpt. vm_compute. reflexivity.
Defined.

(** * Further properties *)

(** ** The RISON encoder on all inputs *)

Lemma rison_entries_outcome props :
  Forall (fun kv : string * JSValue =>
            (reaches_failure (snd kv) = true -> toRISON (snd kv) = Throw TypeError)
            /\ (reaches_failure (snd kv) = false -> exists r, toRISON (snd kv) = Return r))
         props ->
  if existsb (fun kv => typeof_object (snd kv) && reaches_failure (snd kv)) props
  then rison_entries props = Throw TypeError
  else exists param, rison_entries props = Return param.
Proof.
  induction 1 as [|[key val] ps [Hthrow Hret] _ IH]; cbn [existsb rison_entries snd].
  - eauto.
  - cbn [snd] in Hthrow, Hret.
    destruct (typeof_object val); cbn [andb orb].
    + destruct (reaches_failure val).
      * now rewrite (Hthrow eq_refl).
      * destruct (Hret eq_refl) as (r & ->). cbn [cbind orb].
        destruct (existsb _ ps).
        -- now rewrite IH.
        -- destruct IH as (rest & ->). cbn [cbind]. eauto.
    + cbn [cbind]. destruct (existsb _ ps).
      * now rewrite IH.
      * destruct IH as (rest & ->). cbn [cbind]. eauto.
Qed.

(** X1.  [toRISON] throws (a [TypeError]) exactly when it comes to a
    [null] or [undefined] whose constructor it reads, or to an array with
    an element that has no string conversion: at the input itself, or at a
    value of an object it descends into (an object with an own property
    [constructor] is not descended into).  On every other input it
    returns, a string or [false]. *)
Theorem toRISON_throws_exactly v :
  (reaches_failure v = true -> toRISON v = Throw TypeError)
  /\ (reaches_failure v = false ->
      (exists s, toRISON v = Return (JStr s)) \/ toRISON v = Return (JBool false)).
Proof.
  induction v as [| | b | n | s | elems _ | props IH] using JSValue_nested_ind;
    cbn [reaches_failure]; (split; [intros H | intros H]);
    try discriminate; try reflexivity; try (right; reflexivity).
  - left. cbn [toRISON]. rewrite toRISON_array_strings.
    destruct (includes_char comma s); eauto.
  - cbn [toRISON]. unfold toRISON_array. apply negb_true_iff in H. now rewrite H.
  - left. cbn [toRISON]. unfold toRISON_array. apply negb_false_iff in H.
    rewrite H. eauto.
  - destruct (own_property "constructor" props) as [c|] eqn:Hc; [discriminate|].
    rewrite (toRISON_object _ Hc).
    assert (Hps : Forall (fun kv : string * JSValue =>
              (reaches_failure (snd kv) = true -> toRISON (snd kv) = Throw TypeError)
              /\ (reaches_failure (snd kv) = false -> exists r, toRISON (snd kv) = Return r))
              props).
    { eapply Forall_impl; [exact IH|]. intros kv [Ht Hr]. split; [exact Ht|].
      intros Hf. destruct (Hr Hf) as [[s ->]| ->]; eauto. }
    apply rison_entries_outcome in Hps. rewrite H in Hps. now rewrite Hps.
  - destruct (own_property "constructor" props) as [c|] eqn:Hc;
      [right; exact (toRISON_own_constructor _ _ Hc)|].
    rewrite (toRISON_object _ Hc).
    assert (Hps : Forall (fun kv : string * JSValue =>
              (reaches_failure (snd kv) = true -> toRISON (snd kv) = Throw TypeError)
              /\ (reaches_failure (snd kv) = false -> exists r, toRISON (snd kv) = Return r))
              props).
    { eapply Forall_impl; [exact IH|]. intros kv [Ht Hr]. split; [exact Ht|].
      intros Hf. destruct (Hr Hf) as [[s ->]| ->]; eauto. }
    apply rison_entries_outcome in Hps. rewrite H in Hps.
    destruct Hps as (param & ->). left. cbn [cbind]. eauto.
Qed.

Lemma toRISON_throws_exactly_witness :
  toRISON (JObj [("id", JUndefined); ("user", JObj [("login", JNull)])]) = Throw TypeError
  /\ toRISON (JObj [("tags", JArr [JObj [("toString", JNum 1)]])]) = Throw TypeError
  /\ ((exists s, toRISON (JObj [("id", JUndefined); ("tags", JArr [JNull])])
                 = Return (JStr s))
      \/ toRISON (JObj [("id", JUndefined); ("tags", JArr [JNull])]) = Return (JBool false))
  /\ ((exists s, toRISON (JObj [("constructor", JNum 1); ("user", JNull)])
                 = Return (JStr s))
      \/ toRISON (JObj [("constructor", JNum 1); ("user", JNull)]) = Return (JBool false)).
Proof.
  split; [|split; [|split]].
  - exact (proj1 (toRISON_throws_exactly
                    (JObj [("id", JUndefined); ("user", JObj [("login", JNull)])])) eq_refl).
  - exact (proj1 (toRISON_throws_exactly
                    (JObj [("tags", JArr [JObj [("toString", JNum 1)]])])) eq_refl).
  - exact (proj2 (toRISON_throws_exactly
                    (JObj [("id", JUndefined); ("tags", JArr [JNull])])) eq_refl).
  - exact (proj2 (toRISON_throws_exactly
                    (JObj [("constructor", JNum 1); ("user", JNull)])) eq_refl).
Defined.

(** ** The three ways of naming fields *)

Lemma join_marked names :
  names <> [] -> join ":!t," names ++ ":!t" = join "," (map marked names).
Proof.
  induction names as [|n [|m rest] IH]; intros Hne; [contradiction|reflexivity|].
  change (join ":!t," (n :: m :: rest)) with (n ++ ":!t," ++ join ":!t," (m :: rest)).
  change (join "," (map marked (n :: m :: rest)))
    with (marked n ++ "," ++ join "," (map marked (m :: rest))).
  rewrite <- IH by discriminate. unfold marked.
  rewrite !string_app_assoc. reflexivity.
Qed.

Lemma array_join_strings sep names : array_join sep (map JStr names) = join sep names.
Proof.
  unfold array_join. f_equal. induction names as [|n names IH]; [reflexivity|].
  cbn [map]. now rewrite IH.
Qed.

Lemma split_char_none c s : includes_char c s = false -> split_char c s = [s].
Proof.
  induction s as [|a s IH]; cbn [includes_char split_char]; [reflexivity|].
  destruct (Ascii.eqb a c); [discriminate|]. intros H. now rewrite (IH H).
Qed.

Lemma split_char_at c s rest :
  includes_char c s = false ->
  split_char c (s ++ String c rest) = s :: split_char c rest.
Proof.
  induction s as [|a s IH]; intros H.
  - rewrite append_nil_l. cbn [split_char]. now rewrite Ascii.eqb_refl.
  - rewrite append_cons. cbn [includes_char] in H. cbn [split_char].
    destruct (Ascii.eqb a c); [discriminate|]. now rewrite (IH H).
Qed.

Lemma includes_char_app c s t :
  includes_char c (s ++ t) = includes_char c s || includes_char c t.
Proof.
  induction s as [|a s IH]; [reflexivity|].
  rewrite append_cons. cbn [includes_char]. destruct (Ascii.eqb a c); [reflexivity|exact IH].
Qed.

Lemma split_join names :
  names <> [] ->
  forallb (fun n => negb (includes_char comma n)) names = true ->
  split_char comma (join "," names) = names.
Proof.
  induction names as [|n [|m rest] IH]; intros Hne Hfree; [contradiction| |].
  - cbn in Hfree. rewrite andb_true_r in Hfree. apply negb_true_iff in Hfree.
    now apply split_char_none.
  - change (join "," (n :: m :: rest)) with (n ++ String comma (join "," (m :: rest))).
    cbn [forallb] in Hfree. apply andb_prop in Hfree as [Hn Hrest].
    apply negb_true_iff in Hn. rewrite (split_char_at _ _ _ Hn).
    f_equal. apply IH; [discriminate | exact Hrest].
Qed.

(** X2.  For a non-empty list of field names, [toRISON] of the array of
    the names is ["(n1:!t,n2:!t,...)"], every name followed by the marker;
    and when no name contains a comma, [toRISON] of the names joined by
    commas into one string gives the same. *)
Theorem toRISON_field_names names :
  names <> [] ->
  toRISON (JArr (map JStr names))
  = Return (JStr ("(" ++ join "," (map marked names) ++ ")"))
  /\ (forallb (fun n => negb (includes_char comma n)) names = true ->
      toRISON (JStr (join "," names)) = toRISON (JArr (map JStr names))).
Proof.
  intros Hne.
  assert (Harr : forall l, l <> [] ->
             rison_of_array (map JStr l) = "(" ++ join "," (map marked l) ++ ")").
  { intros l Hl. unfold rison_of_array. rewrite array_join_strings.
    rewrite <- (join_marked l Hl), string_app_assoc. reflexivity. }
  split.
  - cbn [toRISON]. now rewrite toRISON_array_strings, Harr.
  - intros Hfree. cbn [toRISON].
    destruct (includes_char comma (join "," names)) eqn:Hinc.
    + now rewrite (split_join names Hne Hfree).
    + destruct names as [|n [|m rest]]; [contradiction| |].
      * cbn [join map]. unfold toRISON_array, rison_of_array, array_join.
        cbn [forallb converts andb map join_element ToString join].
        reflexivity.
      * change (join "," (n :: m :: rest)) with (n ++ String comma (join "," (m :: rest))) in Hinc.
        rewrite includes_char_app in Hinc. cbn [includes_char] in Hinc.
        rewrite Ascii.eqb_refl, orb_true_r in Hinc. discriminate.
Qed.

Lemma toRISON_field_names_witness :
  toRISON (JStr (join "," ["id"; "user.login"; "place_guess"]))
  = Return (JStr "(id:!t,user.login:!t,place_guess:!t)").
Proof.
  destruct (toRISON_field_names ["id"; "user.login"; "place_guess"] ltac:(discriminate))
    as [Harr Hstr].
  rewrite (Hstr eq_refl). exact Harr.
Defined.

Lemma rison_entries_flat props :
  forallb (fun kv : string * JSValue => negb (typeof_object (snd kv))) props = true ->
  rison_entries props = Return (map (fun kv => marked (fst kv)) props).
Proof.
  induction props as [|[key val] ps IH]; intros Hflat; [reflexivity|].
  cbn [forallb snd] in Hflat. apply andb_prop in Hflat as [Hval Hps].
  apply negb_true_iff in Hval. cbn [rison_entries]. rewrite Hval, (IH Hps). reflexivity.
Qed.

(** X3.  Take an object none of whose values is an object, an array or
    [null].  When it has no own property [constructor], [toRISON] gives
    ["(k1:!t,k2:!t,...)"] over its keys, whatever the values are, and when
    the object is not empty this is what [toRISON] gives for the array of
    its keys; when it has such a property, [toRISON] returns [false].
    (The empty object gives ["()"], the empty array ["(:!t)"].) *)
Theorem toRISON_flat_object props :
  forallb (fun kv : string * JSValue => negb (typeof_object (snd kv))) props = true ->
  (own_property "constructor" props = None ->
   toRISON (JObj props)
   = Return (JStr ("(" ++ join "," (map marked (map fst props)) ++ ")"))
   /\ (props <> [] -> toRISON (JObj props) = toRISON (JArr (map JStr (map fst props)))))
  /\ (own_property "constructor" props <> None ->
      toRISON (JObj props) = Return (JBool false))
  /\ toRISON (JObj []) = Return (JStr "()")
  /\ toRISON (JArr []) = Return (JStr "(:!t)").
Proof.
  intros Hflat. split; [|split; [|split; reflexivity]].
  - intros Hc.
    assert (Hobj : toRISON (JObj props)
                   = Return (JStr ("(" ++ join "," (map marked (map fst props)) ++ ")"))).
    { rewrite (toRISON_object _ Hc), (rison_entries_flat props Hflat), map_map.
      reflexivity. }
    split; [exact Hobj|].
    intros Hne. rewrite Hobj.
    assert (Hkeys : map fst props <> []) by (destruct props; [contradiction|discriminate]).
    symmetry. cbn [toRISON]. rewrite toRISON_array_strings.
    unfold rison_of_array. rewrite array_join_strings.
    rewrite <- (join_marked _ Hkeys), string_app_assoc. reflexivity.
  - intros Hc. destruct (own_property "constructor" props) as [c|] eqn:Hown;
      [|contradiction].
    exact (toRISON_own_constructor _ _ Hown).
Qed.

Lemma toRISON_flat_object_witness :
  toRISON (JObj [("id", JBool true); ("uuid", JNum 1); ("geojson", JStr "yes")])
  = toRISON (JArr [JStr "id"; JStr "uuid"; JStr "geojson"])
  /\ toRISON (JObj [("id", JBool true); ("constructor", JNum 1)]) = Return (JBool false).
Proof.
  split.
  - exact (proj2 (proj1 (toRISON_flat_object
             [("id", JBool true); ("uuid", JNum 1); ("geojson", JStr "yes")] eq_refl)
             eq_refl) ltac:(discriminate)).
  - exact (proj1 (proj2 (toRISON_flat_object
             [("id", JBool true); ("constructor", JNum 1)] eq_refl))
             ltac:(discriminate)).
Defined.

(** X4.  Whatever [toRISON] returns other than [false] is a string that
    opens with a parenthesis and closes with one. *)
Theorem toRISON_parenthesised v r :
  toRISON v = Return r ->
  r = JBool false \/ exists body, r = JStr ("(" ++ body ++ ")").
Proof.
  assert (Harr : forall elems, exists body, rison_of_array elems = "(" ++ body ++ ")").
  { intros elems. exists (array_join ":!t," elems ++ ":!t").
    unfold rison_of_array. now rewrite string_app_assoc. }
  destruct v as [| | b | n | s | elems | props]; try discriminate.
  - intros [= <-]. now left.
  - intros [= <-]. now left.
  - cbn [toRISON]. rewrite toRISON_array_strings.
    destruct (includes_char comma s); intros [= <-]; right.
    + destruct (Harr (map JStr (split_char comma s))) as (body & ->). eauto.
    + exists (s ++ ":!t"). now rewrite string_app_assoc.
  - cbn [toRISON]. unfold toRISON_array.
    destruct (forallb converts elems); [|discriminate]. intros [= <-]. right.
    destruct (Harr elems) as (body & ->). eauto.
  - destruct (own_property "constructor" props) as [c|] eqn:Hc.
    + rewrite (toRISON_own_constructor _ _ Hc). intros [= <-]. now left.
    + rewrite (toRISON_object _ Hc).
      destruct (rison_entries props) as [param|]; cbn [cbind]; [|discriminate].
      intros [= <-]. right. eauto.
Qed.

Lemma toRISON_parenthesised_witness :
  JStr "(user:(login:!t,id:!t))" = JBool false
  \/ exists body, JStr "(user:(login:!t,id:!t))" = JStr ("(" ++ body ++ ")").
Proof.
  exact (toRISON_parenthesised
           (JObj [("user", JArr [JStr "login"; JStr "id"])])
           (JStr "(user:(login:!t,id:!t))") eq_refl).
Defined.

(** ** The URL parameter parser on all inputs *)

Lemma span_run_in_class (p : ascii -> bool) s run after :
  span p s = (run, after) -> all_chars p run = true.
Proof.
  revert run after. induction s as [|c s IH]; intros run after; cbn [span].
  - intros [= <- <-]. reflexivity.
  - destruct (p c) eqn:Hc.
    + destruct (span p s) as [run' after'] eqn:Hs. intros [= <- <-].
      cbn [all_chars]. now rewrite Hc, (IH _ _ eq_refl).
    + intros [= <- <-]. reflexivity.
Qed.

Lemma match_groups_shape s key value rest :
  match_groups s = Some (key, value, rest) ->
  key <> "" /\ all_chars key_char key = true /\ all_chars value_char value = true.
Proof.
  unfold match_groups.
  destruct (span key_char s) as [k after] eqn:Hk.
  destruct k as [|a k']; [discriminate|].
  destruct after as [|c after']; [discriminate|].
  destruct (Ascii.eqb c "="); [|discriminate].
  destruct (span value_char after') as [v r] eqn:Hv. intros [= <- <- <-].
  split; [discriminate|]. split.
  - exact (span_run_in_class _ _ _ _ Hk).
  - exact (span_run_in_class _ _ _ _ Hv).
Qed.

Lemma match_here_shape s key value rest :
  match_here s = Some (key, value, rest) ->
  key <> "" /\ all_chars key_char key = true /\ all_chars value_char value = true.
Proof.
  unfold match_here. destruct s as [|c s']; [discriminate|].
  destruct (Ascii.eqb c "?" || Ascii.eqb c "&").
  - destruct (match_groups s') as [[[k v] r]|] eqn:Hin.
    + intros [= <- <- <-]. exact (match_groups_shape _ _ _ _ Hin).
    + apply match_groups_shape.
  - apply match_groups_shape.
Qed.

(** X5.  Whatever the input, every key [getUrlParams] finds is non-empty
    and free of [=] and [&], and every raw value is free of [&]. *)
Theorem url_matches_shape url key value :
  In (key, value) (url_matches url) ->
  key <> "" /\ all_chars key_char key = true /\ all_chars value_char value = true.
Proof.
  unfold url_matches. generalize (String.length url) as fuel. intros fuel. revert url.
  induction fuel as [|fuel IH]; intros url Hin; cbn [scan] in Hin; [destruct Hin|].
  destruct (match_here url) as [[[k v] rest]|] eqn:Hm.
  - destruct Hin as [[= <- <-]|Hin].
    + exact (match_here_shape _ _ _ _ Hm).
    + exact (IH _ Hin).
  - destruct url as [|c url']; [destruct Hin|]. exact (IH _ Hin).
Qed.

Lemma url_matches_shape_witness :
  "x?a" <> "" /\ all_chars key_char "x?a" = true /\ all_chars value_char "1=2" = true.
Proof.
  apply (url_matches_shape "x?a=1=2&&=3" "x?a" "1=2"). left. reflexivity.
Defined.

Lemma span_rebuild (p : ascii -> bool) s run after :
  span p s = (run, after) -> s = run ++ after.
Proof.
  revert run after. induction s as [|c s IH]; intros run after; cbn [span].
  - intros [= <- <-]. reflexivity.
  - destruct (p c).
    + destruct (span p s) as [run' after'] eqn:Hs. intros [= <- <-].
      rewrite append_cons. now rewrite <- (IH _ _ eq_refl).
    + intros [= <- <-]. reflexivity.
Qed.

(** A match is made of text of the input: key, [=], value, and what is
    left after it. *)
Lemma match_groups_text s key value rest :
  match_groups s = Some (key, value, rest) ->
  s = key ++ String "=" (value ++ rest).
Proof.
  unfold match_groups.
  destruct (span key_char s) as [k after] eqn:Hk.
  destruct k as [|a k']; [discriminate|].
  destruct after as [|c after']; [discriminate|].
  destruct (Ascii.eqb_spec c "=") as [->|]; [|discriminate].
  destruct (span value_char after') as [v r] eqn:Hv. intros [= <- <- <-].
  apply span_rebuild in Hk. apply span_rebuild in Hv. now subst.
Qed.

Lemma match_here_text s key value rest :
  match_here s = Some (key, value, rest) ->
  exists before, s = before ++ key ++ String "=" (value ++ rest).
Proof.
  unfold match_here. destruct s as [|c s']; [discriminate|].
  destruct (Ascii.eqb c "?" || Ascii.eqb c "&").
  - destruct (match_groups s') as [[[k v] r]|] eqn:Hin.
    + intros [= <- <- <-]. exists (String c "").
      now rewrite (match_groups_text _ _ _ _ Hin).
    + intros H. exists "". now rewrite (match_groups_text _ _ _ _ H).
  - intros H. exists "". now rewrite (match_groups_text _ _ _ _ H).
Qed.

(** A character that occurs in a key or a raw value occurs in the input. *)
Lemma scan_text c fuel : forall s key value,
  In (key, value) (scan fuel s) ->
  includes_char c key || includes_char c value = true ->
  includes_char c s = true.
Proof.
  induction fuel as [|fuel IH]; intros s key value Hin Hc; cbn [scan] in Hin;
    [destruct Hin|].
  destruct (match_here s) as [[[k v] rest]|] eqn:Hm.
  - destruct (match_here_text _ _ _ _ Hm) as (before & ->).
    rewrite !includes_char_app. cbn [includes_char]. rewrite includes_char_app.
    destruct Hin as [[= <- <-]|Hin].
    + apply orb_prop in Hc as [-> | ->]; rewrite ?orb_true_r; try reflexivity.
      destruct (Ascii.eqb "=" c); now rewrite ?orb_true_r.
    + rewrite (IH _ _ _ Hin Hc).
      destruct (Ascii.eqb "=" c); now rewrite ?orb_true_r.
  - destruct s as [|a s']; [destruct Hin|].
    cbn [includes_char]. rewrite (IH _ _ _ Hin Hc). now destruct (Ascii.eqb a c).
Qed.

Lemma scan_needs_equals fuel : forall s,
  includes_char "=" s = false -> scan fuel s = [].
Proof.
  induction fuel as [|fuel IH]; intros s Hno; [reflexivity|]. cbn [scan].
  destruct (match_here s) as [[[k v] rest]|] eqn:Hm.
  - destruct (match_here_text _ _ _ _ Hm) as (before & ->).
    rewrite !includes_char_app in Hno. cbn [includes_char] in Hno.
    rewrite Ascii.eqb_refl, !orb_true_r in Hno. discriminate.
  - destruct s as [|a s']; [reflexivity|]. apply IH.
    cbn [includes_char] in Hno. now destruct (Ascii.eqb a "=").
Qed.

(** X6.  On an input without any [=], the empty string included,
    [getUrlParams] finds nothing: it returns the empty object, and for a
    key [undefined] (or the inherited member, for a name of
    [Object.prototype]); it does not throw. *)
Theorem getUrlParams_without_equals url key :
  includes_char "=" url = false ->
  url_matches url = []
  /\ getUrlParams url key
     = Return (if truthy key
               then OneValue (if inherited_name (ToString key)
                              then InheritedMember (ToString key)
                              else PropUndefined)
               else WholeObject ∅).
Proof.
  intros Hno.
  assert (Hm : url_matches url = []) by (now apply scan_needs_equals).
  split; [exact Hm|]. unfold getUrlParams. rewrite Hm. cbn [store_matches cbind].
  unfold read_param. now rewrite lookup_empty.
Qed.

Lemma getUrlParams_without_equals_witness :
  getUrlParams "?page&per_page" (JStr "page") = Return (OneValue PropUndefined).
Proof.
  exact (proj2 (getUrlParams_without_equals "?page&per_page" (JStr "page") eq_refl)).
Defined.

Lemma store_matches_throw_source ms : forall params e,
  store_matches ms params = Throw e ->
  exists key value, In (key, value) ms /\ decodeURIComponent value = Throw URIError.
Proof.
  induction ms as [|[k v] ms IH]; intros params e; cbn [store_matches]; [discriminate|].
  destruct (decodeURIComponent v) as [d|e'] eqn:Hv; cbn [cbind].
  - intros H. destruct (IH _ _ H) as (key & value & Hin & Hbad).
    exists key, value. split; [now right | exact Hbad].
  - intros _. exists k, v. split; [now left|].
    now rewrite <- (decodeURIComponent_throws _ _ Hv).
Qed.

(** X7.  [getUrlParams] throws exactly when the raw value of some
    parameter it finds cannot be percent-decoded; otherwise it returns. *)
Theorem getUrlParams_throws_exactly url key :
  (exists e, getUrlParams url key = Throw e)
  <-> exists name value,
        In (name, value) (url_matches url)
        /\ decodeURIComponent value = Throw URIError.
Proof.
  split.
  - intros (e & He). unfold getUrlParams in He.
    destruct (store_matches (url_matches url) ∅) as [m|e'] eqn:Hs; [discriminate|].
    exact (store_matches_throw_source _ _ _ Hs).
  - intros (name & value & Hin & Hbad). exists URIError.
    unfold getUrlParams. now rewrite (store_matches_throws _ _ _ _ Hin Hbad).
Qed.

Lemma getUrlParams_throws_exactly_witness :
  exists e, getUrlParams "?a=1&b=%E0%80" (JStr "a") = Throw e.
Proof.
  apply (proj2 (getUrlParams_throws_exactly "?a=1&b=%E0%80" (JStr "a"))).
  exists "b", "%E0%80". split.
  - vm_compute. right. left. reflexivity.
  - vm_compute. reflexivity.
Defined.

(** X8.  Whatever the input, when [getUrlParams] returns the whole object,
    the object holds, for each key found other than [__proto__], the
    decoded value of the last parameter with that key, and it holds
    nothing else. *)
Theorem getUrlParams_last_value_wins url params :
  getUrlParams url JUndefined = Return (WholeObject params) ->
  params !! "__proto__" = None
  /\ forall k, k <> "__proto__" ->
       match last_value k (url_matches url) with
       | Some v => exists d, decodeURIComponent v = Return d /\ params !! k = Some d
       | None => params !! k = None
       end.
Proof.
  unfold getUrlParams. intros H.
  apply cbind_Return in H as (m & Hstore & [= <-]).
  split.
  - pose proof (store_matches_lookup _ _ _ Hstore "__proto__") as Hp.
    cbn in Hp. now rewrite Hp.
  - intros k Hk. pose proof (store_matches_lookup _ _ _ Hstore k) as Hp.
    destruct (String.eqb_spec k "__proto__"); [contradiction|].
    destruct (last_value k (url_matches url)); [exact Hp|].
    now rewrite Hp, lookup_empty.
Qed.

Lemma getUrlParams_last_value_wins_witness :
  exists d, decodeURIComponent "%C3%A9t%C3%A9" = Return d
            /\ (<["q" := "été"]> (<["page?q" := "1"]> ∅) : gmap string string) !! "q"
               = Some d.
Proof.
  refine (proj2 (getUrlParams_last_value_wins "page?q=1&q=2&__proto__=x&q=%C3%A9t%C3%A9"
                   (<["q" := "été"]> (<["page?q" := "1"]> ∅)) _)
            "q" _).
  - vm_compute. reflexivity.
  - discriminate.
Defined.

(** Text without [%] decodes to itself. *)
Lemma decodeURIComponent_plain s :
  includes_char "%" s = false -> decodeURIComponent s = Return s.
Proof.
  intros Hno. unfold decodeURIComponent.
  enough (H : exists ts, uri_tokens s = Return ts /\ utf8_decode ts = Return s)
    by (destruct H as (ts & -> & Hd); exact Hd).
  induction s as [|c s IH]; [now exists []|].
  cbn [includes_char] in Hno. cbn [uri_tokens].
  destruct (Ascii.eqb c "%"); [discriminate|].
  destruct (IH Hno) as (ts & -> & Hd). exists (Lit c :: ts).
  cbn [cbind utf8_decode]. now rewrite Hd.
Qed.

Lemma last_value_in key pairs v :
  last_value key pairs = Some v -> In (key, v) pairs.
Proof.
  induction pairs as [|[k x] rest IH]; cbn [last_value]; [discriminate|].
  destruct (last_value key rest) as [v'|].
  - intros [= ->]. right. now apply IH.
  - destruct (String.eqb_spec k key) as [->|]; [|discriminate].
    intros [= ->]. now left.
Qed.

Lemma store_matches_decodable ms : forall params0,
  (forall key value, In (key, value) ms -> exists d, decodeURIComponent value = Return d) ->
  exists params, store_matches ms params0 = Return params.
Proof.
  induction ms as [|[k v] ms IH]; intros params0 Hall; cbn [store_matches]; [eauto|].
  destruct (Hall k v (or_introl eq_refl)) as (d & ->). cbn [cbind].
  apply IH. intros key value Hin. apply (Hall key value). now right.
Qed.

(** X9.  An input without any [%] is never rejected, and its values are
    returned as they stand (nothing but percent escapes is translated; a
    [+], for one, stays a [+]): each key other than [__proto__] maps to
    the raw value of its last parameter. *)
Theorem getUrlParams_plain_values url :
  includes_char "%" url = false ->
  exists params,
    getUrlParams url JUndefined = Return (WholeObject params)
    /\ forall k, k <> "__proto__" -> params !! k = last_value k (url_matches url).
Proof.
  intros Hno.
  assert (Hplain : forall key value,
             In (key, value) (url_matches url) -> decodeURIComponent value = Return value).
  { intros key value Hin. apply decodeURIComponent_plain.
    destruct (includes_char "%" value) eqn:Hv; [|reflexivity].
    rewrite (scan_text "%" _ _ _ _ Hin) in Hno; [discriminate|].
    now rewrite Hv, orb_true_r. }
  destruct (store_matches_decodable (url_matches url) ∅) as (params & Hstore).
  { intros key value Hin. rewrite (Hplain _ _ Hin). eauto. }
  exists params. split.
  - unfold getUrlParams. now rewrite Hstore.
  - intros k Hk. pose proof (store_matches_lookup _ _ _ Hstore k) as Hp.
    destruct (String.eqb_spec k "__proto__"); [contradiction|].
    destruct (last_value k (url_matches url)) as [v|] eqn:Hlast.
    + destruct Hp as (d & Hd & ->).
      rewrite (Hplain _ _ (last_value_in _ _ _ Hlast)) in Hd. congruence.
    + now rewrite Hp, lookup_empty.
Qed.

Lemma getUrlParams_plain_values_witness :
  exists params,
    getUrlParams "?q=a+b&lang=en" JUndefined = Return (WholeObject params)
    /\ forall k, k <> "__proto__" ->
         params !! k = last_value k (url_matches "?q=a+b&lang=en").
Proof.
  exact (getUrlParams_plain_values "?q=a+b&lang=en" eq_refl).
Defined.

(** ** The dispatcher over whole histories *)

Section DispatcherHistories.

Variable jq : JSValue -> string.
Variable options : ApiOptions.

(** [makeINatRequest] in one description for both cases. *)
Lemma makeINatRequest_pop w :
  let w' := makeINatRequest jq options w in
  iNatAPIQueue w' = skipn 1 (iNatAPIQueue w)
  /\ pending_ajax w' = (pending_ajax w ++ firstn 1 (iNatAPIQueue w))%list
  /\ pending_timers w' = pending_timers w
  /\ clock w' = clock w
  /\ sent (effects w')
     = (sent (effects w) ++ map (pair (clock w)) (firstn 1 (iNatAPIQueue w)))%list
  /\ timeouts (effects w') = timeouts (effects w)
  /\ iNatAPIQueued w'
     = match iNatAPIQueue w with [] => false | _ :: _ => iNatAPIQueued w end
  /\ iNatAPIRateLimiting w'
     = match iNatAPIQueue w with
       | [] => false
       | _ :: rest =>
           (RequestsPerMinute options <? Z.of_nat (length rest)) || iNatAPIRateLimiting w
       end.
Proof.
  assert (Hto : forall l1 l2, timeouts (l1 ++ l2) = (timeouts l1 ++ timeouts l2)%list).
  { intros l1 l2. induction l1 as [|e l1 IH]; [reflexivity|].
    destruct e; cbn [timeouts app]; now rewrite ?IH. }
  destruct (iNatAPIQueue w) as [|r q] eqn:Hq.
  - rewrite (makeINatRequest_idle jq options w Hq). cbn.
    rewrite ?Hq, !app_nil_r. repeat split; reflexivity.
  - destruct (makeINatRequest_dispatch jq options w r q Hq)
      as (Hqu & Hqd & Hrl & Hpa & Hpt & Hcl & _ & _ & Heff).
    cbv zeta in *. rewrite Hqu, Hqd, Hrl, Hpa, Hpt, Hcl, Heff, sent_app, Hto. cbn.
    rewrite !app_nil_r. repeat split; reflexivity.
Qed.

(** The requests sent so far followed by those in the queue: a dispatch
    step moves one across, a call adds its request at the end. *)
Lemma makeINatRequest_sent_queue w :
  (map snd (sent (effects (makeINatRequest jq options w)))
   ++ iNatAPIQueue (makeINatRequest jq options w))%list
  = (map snd (sent (effects w)) ++ iNatAPIQueue w)%list.
Proof.
  destruct (makeINatRequest_pop w) as (-> & _ & _ & _ & -> & _).
  rewrite map_app, map_map. cbn [snd]. rewrite map_id, <- app_assoc.
  now rewrite firstn_skipn.
Qed.

Lemma app_call_sent_queue c w :
  (map snd (sent (effects (app_call jq options c w)))
   ++ iNatAPIQueue (app_call jq options c w))%list
  = ((map snd (sent (effects w)) ++ iNatAPIQueue w) ++ call_requests c)%list.
Proof.
  assert (Hq : forall request a i,
             (map snd (sent (effects (queueINatRequest jq options request (set_auth a i w))))
              ++ iNatAPIQueue (queueINatRequest jq options request (set_auth a i w)))%list
             = ((map snd (sent (effects w)) ++ iNatAPIQueue w) ++ [request])%list).
  { intros request a i. unfold queueINatRequest. cbn.
    destruct (iNatAPIQueued w); cbn.
    - now rewrite app_assoc.
    - rewrite makeINatRequest_sent_queue. cbn. now rewrite app_assoc. }
  destruct c as [request|token callback]; cbn [app_call call_requests].
  - specialize (Hq request (headers_Authorization w) (iNatAuthorized w)).
    destruct w. exact Hq.
  - unfold checkAuthentication. destruct (truthy token); [apply Hq|].
    cbn. rewrite sent_app. cbn. now rewrite !app_nil_r.
Qed.

Lemma app_calls_sent_queue calls : forall w,
  let w' := fold_left (fun w c => app_call jq options c w) calls w in
  (map snd (sent (effects w')) ++ iNatAPIQueue w')%list
  = ((map snd (sent (effects w)) ++ iNatAPIQueue w) ++ flat_map call_requests calls)%list.
Proof.
  induction calls as [|c calls IH]; intros w; cbn [fold_left flat_map].
  - now rewrite app_nil_r.
  - cbv zeta in *. rewrite IH, app_call_sent_queue, <- !app_assoc. reflexivity.
Qed.

Lemma step_sent_queue e w w' :
  step jq options e w = Some w' ->
  (map snd (sent (effects w')) ++ iNatAPIQueue w')%list
  = ((map snd (sent (effects w)) ++ iNatAPIQueue w) ++ event_requests e)%list.
Proof.
  destruct e as [c|k o calls|k|dt]; cbn [step event_requests].
  - intros [= <-]. apply app_call_sent_queue.
  - destruct (pending_ajax w !! k) as [request|]; [|discriminate]. intros [= <-].
    assert (Hcomplete : forall x,
               (map snd (sent (effects (complete jq options x)))
                ++ iNatAPIQueue (complete jq options x))%list
               = (map snd (sent (effects x)) ++ iNatAPIQueue x)%list).
    { intros x. unfold complete. cbn. destruct (iNatAPIRateLimiting x); cbn.
      - rewrite !sent_app. cbn. now rewrite !app_nil_r.
      - rewrite makeINatRequest_sent_queue. cbn. rewrite sent_app. cbn.
        now rewrite app_nil_r. }
    rewrite Hcomplete, app_calls_sent_queue.
    match goal with |- context [settle request o ?x] =>
      destruct (settle_state request o x) as (-> & _ & _ & _ & _ & _ & _ & ->) end.
    reflexivity.
  - destruct (pending_timers w !! k) as [due|]; [|discriminate].
    destruct (due <=? clock w); [|discriminate]. intros [= <-].
    rewrite makeINatRequest_sent_queue. cbn. now rewrite app_nil_r.
  - destruct (0 <=? dt); [|discriminate]. intros [= <-]. cbn. now rewrite app_nil_r.
Qed.

(** X10.  Requests are sent in the order they were queued, none twice and
    none that was not queued: after any history, the requests sent so far
    followed by those still in the queue are the requests queued, in
    order; and the requests sent are those whose callback has run followed
    by the one in flight, if any. *)
Theorem requests_sent_in_order es w :
  run jq options es initial_world = Some w ->
  (map snd (sent (effects w)) ++ iNatAPIQueue w)%list = requested es
  /\ map callbacks (map snd (sent (effects w)))
     = (fired (effects w) ++ map callbacks (pending_ajax w))%list.
Proof.
  intros Hrun.
  assert (Hsq : forall es w0 w1, run jq options es w0 = Some w1 ->
             (map snd (sent (effects w1)) ++ iNatAPIQueue w1)%list
             = ((map snd (sent (effects w0)) ++ iNatAPIQueue w0) ++ requested es)%list).
  { clear. induction es as [|e es IH]; intros w0 w1; cbn [run].
    - intros [= <-]. cbn. now rewrite app_nil_r.
    - destruct (step jq options e w0) as [wm|] eqn:Hstep; [|discriminate].
      intros Hrun. rewrite (IH _ _ Hrun), (step_sent_queue _ _ _ Hstep).
      unfold requested. cbn [flat_map]. now rewrite <- !app_assoc. }
  pose proof (Hsq _ _ _ Hrun) as Hs. cbn in Hs. split; [exact Hs|].
  destruct (run_history jq options es initial_world w initial_world_inv Hrun) as (_ & Hh).
  cbn in Hh. rewrite <- Hs, !map_app, app_assoc in Hh.
  now apply app_inv_tail in Hh.
Qed.

End DispatcherHistories.

Lemma requests_sent_in_order_witness :
  (map snd (sent (effects (world_after (fun _ => "") apiOptions
                             (burst 3 ++ [AjaxDone 0 Fails []]))))
   ++ iNatAPIQueue (world_after (fun _ => "") apiOptions
                      (burst 3 ++ [AjaxDone 0 Fails []])))%list
  = requested (burst 3 ++ [AjaxDone 0 Fails []]).
Proof.
  refine (proj1 (requests_sent_in_order (fun _ => "") apiOptions
                   (burst 3 ++ [AjaxDone 0 Fails []])
                   (world_after (fun _ => "") apiOptions
                      (burst 3 ++ [AjaxDone 0 Fails []])) _)).
  vm_compute. reflexivity.
Defined.

(** ** What is outstanding, and the two flags *)

Section DispatcherShape.

Variable jq : JSValue -> string.
Variable options : ApiOptions.

Lemma queueINatRequest_activates request w :
  iNatAPIQueued (queueINatRequest jq options request w) = true.
Proof. reflexivity. Qed.

(** Whenever a step leaves the queue inactive, it leaves the
    rate-limiting flag cleared. *)
Lemma step_keeps_flags e w w' :
  queue_inv w ->
  (iNatAPIQueued w = false -> iNatAPIRateLimiting w = false) ->
  step jq options e w = Some w' ->
  iNatAPIQueued w' = false -> iNatAPIRateLimiting w' = false.
Proof.
  intros Hinv Hflags Hstep.
  destruct e as [c|k o calls|k|dt].
  - cbn [step] in Hstep. injection Hstep as <-.
    destruct c as [request|token callback]; cbn [app_call].
    + rewrite queueINatRequest_activates. discriminate.
    + unfold checkAuthentication. destruct (truthy token).
      * rewrite queueINatRequest_activates. discriminate.
      * exact Hflags.
  - cbn [step] in Hstep.
    destruct (pending_ajax w) as [|request others] eqn:Hpa; [discriminate|].
    destruct (inv_in_flight w request others Hinv Hpa) as (-> & Hpt & Hact).
    destruct k as [|k]; [|discriminate]. cbn in Hstep. injection Hstep as <-.
    match goal with |- context [settle request o ?x] =>
      pose proof (settle_state request o x) as Hs; cbv zeta in Hs; cbn in Hs;
      destruct Hs as (_ & Hs2 & _);
      set (w1 := settle request o x) in * end.
    rewrite Hact in Hs2.
    destruct (app_calls_active jq options calls w1 Hs2) as (_ & Hc2 & _).
    cbv zeta in Hc2.
    set (w2 := fold_left (fun w c => app_call jq options c w) calls w1) in *.
    unfold complete. cbn. destruct (iNatAPIRateLimiting w2); cbn; [congruence|].
    destruct (makeINatRequest_pop jq options (emit (AjaxCompleted (clock w2)) w2))
      as (_ & _ & _ & _ & _ & _ & -> & ->).
    cbn. destruct (iNatAPIQueue w2); congruence.
  - cbn [step] in Hstep.
    destruct (pending_timers w) as [|due others] eqn:Hpt; [discriminate|].
    destruct (inv_timer w due others Hinv Hpt) as (-> & Hpa & Hact).
    destruct k as [|k]; [|discriminate]. cbn in Hstep.
    destruct (due <=? clock w); [|discriminate]. injection Hstep as <-.
    match goal with |- context [makeINatRequest jq options ?x] =>
      destruct (makeINatRequest_pop jq options x) as (_ & _ & _ & _ & _ & _ & -> & ->) end.
    cbn. destruct (iNatAPIQueue w); congruence.
  - cbn [step] in Hstep. destruct (0 <=? dt); [|discriminate].
    injection Hstep as <-. exact Hflags.
Qed.

Lemma run_shape es : forall w w',
  queue_inv w ->
  (iNatAPIQueued w = false -> iNatAPIRateLimiting w = false) ->
  run jq options es w = Some w' ->
  queue_inv w' /\ (iNatAPIQueued w' = false -> iNatAPIRateLimiting w' = false).
Proof.
  induction es as [|e es IH]; intros w w' Hinv Hflags Hrun; cbn [run] in Hrun.
  - injection Hrun as <-. now split.
  - destruct (step jq options e w) as [w1|] eqn:Hstep; [|discriminate].
    destruct (step_history jq options e w w1 Hinv Hstep) as (Hi1 & _).
    exact (IH w1 w' Hi1 (step_keeps_flags e w w1 Hinv Hflags Hstep) Hrun).
Qed.

(** X11.  After any history at most one thing is outstanding, a call in
    flight or a cooldown timer, never both and never two; the queue-active
    flag is set exactly while there is one; and while it is not set, the
    queue is empty and the rate-limiting flag is cleared. *)
Theorem one_request_in_flight es w :
  run jq options es initial_world = Some w ->
  (length (pending_ajax w) + length (pending_timers w) <= 1)%nat
  /\ (iNatAPIQueued w = true
      <-> (length (pending_ajax w) + length (pending_timers w) = 1)%nat)
  /\ (iNatAPIQueued w = false ->
      iNatAPIQueue w = [] /\ iNatAPIRateLimiting w = false).
Proof.
  intros Hrun.
  destruct (run_shape es initial_world w initial_world_inv (fun _ => eq_refl) Hrun)
    as (Hinv & Hflags).
  unfold queue_inv in Hinv. destruct (iNatAPIQueued w).
  - rewrite Hinv. split; [lia|]. split; [tauto|discriminate].
  - destruct Hinv as (Hq & -> & ->). cbn. split; [lia|]. split.
    + split; [discriminate|lia].
    + intros _. split; [exact Hq | now apply Hflags].
Qed.

Lemma settle_all_keeps (P : World -> Prop) outcome :
  (forall e w w', P w -> step jq options e w = Some w' -> P w') ->
  forall fuel w, P w -> P (settle_all jq options outcome fuel w).
Proof.
  intros Hstep. induction fuel as [|fuel IH]; intros w Hw; cbn [settle_all]; [exact Hw|].
  destruct (next_host_event outcome w) as [e|]; [|exact Hw].
  destruct (step jq options e w) as [w1|] eqn:Hs; [|exact Hw].
  apply IH. exact (Hstep e w w1 Hw Hs).
Qed.

Lemma work_bound es w :
  run jq options es initial_world = Some w ->
  (work w <= 4 * length (requested es) + 3)%nat.
Proof.
  intros Hrun.
  destruct (run_history jq options es initial_world w initial_world_inv Hrun) as (Hinv & Hh).
  cbn in Hh. apply (f_equal (@length _)) in Hh.
  rewrite length_app, !length_map, length_app in Hh.
  unfold work. unfold queue_inv in Hinv.
  destruct (iNatAPIQueued w).
  - destruct (pending_timers w) as [|due [|]]; cbn in *; try lia.
    destruct (_ <=? _); lia.
  - destruct Hinv as (_ & _ & ->). cbn. lia.
Qed.

(** X12.  Once the host has settled everything outstanding after a
    history, both flags are cleared: rate limiting ends with the active
    period and does not carry over to the requests queued next. *)
Theorem drained_queue_clears_flags es w outcome fuel :
  run jq options es initial_world = Some w ->
  (4 * length (requested es) + 3 <= fuel)%nat ->
  iNatAPIQueued (settle_all jq options outcome fuel w) = false
  /\ iNatAPIRateLimiting (settle_all jq options outcome fuel w) = false.
Proof.
  intros Hrun Hfuel.
  destruct (run_shape es initial_world w initial_world_inv (fun _ => eq_refl) Hrun)
    as (Hinv & Hflags).
  pose proof (work_bound es w Hrun) as Hwork.
  destruct (settle_all_rest jq options outcome fuel w Hinv ltac:(lia)) as ((Hpa & Hpt) & _).
  assert (Hboth : queue_inv (settle_all jq options outcome fuel w)
                  /\ (iNatAPIQueued (settle_all jq options outcome fuel w) = false ->
                      iNatAPIRateLimiting (settle_all jq options outcome fuel w) = false)).
  { apply (settle_all_keeps
             (fun x => queue_inv x
                       /\ (iNatAPIQueued x = false -> iNatAPIRateLimiting x = false))).
    - intros e x x' [Hx Hf] Hs. split.
      + exact (proj1 (step_history jq options e x x' Hx Hs)).
      + exact (step_keeps_flags e x x' Hx Hf Hs).
    - now split. }
  destruct Hboth as (Hinv' & Hflags').
  unfold queue_inv in Hinv'. rewrite Hpa, Hpt in Hinv'.
  destruct (iNatAPIQueued (settle_all jq options outcome fuel w)).
  - cbn in Hinv'. lia.
  - split; [reflexivity | now apply Hflags'].
Qed.

End DispatcherShape.

Lemma one_request_in_flight_witness :
  (length (pending_ajax (world_after (fun _ => "") small_options drained_but_for_the_timer))
   + length (pending_timers
               (world_after (fun _ => "") small_options drained_but_for_the_timer))
   <= 1)%nat.
Proof.
  refine (proj1 (one_request_in_flight (fun _ => "") small_options
                   drained_but_for_the_timer
                   (world_after (fun _ => "") small_options drained_but_for_the_timer) _)).
  vm_compute. reflexivity.
Defined.

Lemma drained_queue_clears_flags_witness :
  iNatAPIRateLimiting
    (settle_all (fun _ => "") small_options (fun _ => Fails) 19
       (world_after (fun _ => "") small_options (burst 4 ++ [AjaxDone 0 Fails []])))
  = false.
Proof.
  refine (proj2 (drained_queue_clears_flags (fun _ => "") small_options
                   (burst 4 ++ [AjaxDone 0 Fails []])
                   (world_after (fun _ => "") small_options
                      (burst 4 ++ [AjaxDone 0 Fails []]))
                   (fun _ => Fails) 19%nat _ _)).
  - vm_compute. reflexivity.
  - vm_compute. lia.
Defined.

(** ** Queueing on an idle and on an active queue; bursts *)

Section DispatcherBursts.

Variable jq : JSValue -> string.
Variable options : ApiOptions.

Lemma timeouts_app (l1 l2 : list Effect) :
  timeouts (l1 ++ l2) = (timeouts l1 ++ timeouts l2)%list.
Proof.
  induction l1 as [|e l1 IH]; [reflexivity|].
  destruct e; cbn [timeouts app]; now rewrite ?IH.
Qed.

Lemma queueINatRequest_idle w request :
  iNatAPIQueued w = false -> iNatAPIQueue w = [] ->
  let w' := queueINatRequest jq options request w in
  iNatAPIQueue w' = []
  /\ pending_ajax w' = (pending_ajax w ++ [request])%list
  /\ pending_timers w' = pending_timers w
  /\ clock w' = clock w
  /\ iNatAPIQueued w' = true
  /\ iNatAPIRateLimiting w' = (RequestsPerMinute options <? 0) || iNatAPIRateLimiting w
  /\ effects w'
     = (effects w ++ [AjaxSent (clock w) request (request_url jq request)
                               (sent_authorization request w)])%list.
Proof.
  intros Hact Hq. unfold queueINatRequest, makeINatRequest. cbn.
  rewrite Hact, Hq. cbn. change (Z.of_nat 0) with 0.
  destruct (RequestsPerMinute options <? 0); cbn; repeat split; reflexivity.
Qed.

Lemma queueINatRequest_active w request :
  iNatAPIQueued w = true ->
  let w' := queueINatRequest jq options request w in
  iNatAPIQueue w' = (iNatAPIQueue w ++ [request])%list
  /\ pending_ajax w' = pending_ajax w
  /\ pending_timers w' = pending_timers w
  /\ clock w' = clock w
  /\ iNatAPIQueued w' = true
  /\ iNatAPIRateLimiting w' = iNatAPIRateLimiting w
  /\ effects w' = effects w.
Proof.
  intros Hact. unfold queueINatRequest. cbn. rewrite Hact. cbn.
  repeat split; reflexivity.
Qed.

(** X13.  After any history, [queueINatRequest] on an inactive queue sends
    the request in the same call, to the url built from it and with the
    credential the shared headers hold at that moment, and leaves the queue
    empty; on an active queue it sends nothing and only appends the
    request. *)
Theorem queueINatRequest_sends_when_idle es w request :
  run jq options es initial_world = Some w ->
  let w' := queueINatRequest jq options request w in
  if iNatAPIQueued w
  then effects w' = effects w
       /\ iNatAPIQueue w' = (iNatAPIQueue w ++ [request])%list
       /\ pending_ajax w' = pending_ajax w
  else effects w'
       = (effects w ++ [AjaxSent (clock w) request (request_url jq request)
                                 (sent_authorization request w)])%list
       /\ iNatAPIQueue w' = []
       /\ pending_ajax w' = [request].
Proof.
  intros Hrun.
  destruct (run_history jq options es initial_world w initial_world_inv Hrun) as (Hinv & _).
  unfold queue_inv in Hinv. destruct (iNatAPIQueued w) eqn:Hact.
  - destruct (queueINatRequest_active w request Hact) as (Hq & Hpa & _ & _ & _ & _ & Heff).
    now repeat split.
  - destruct Hinv as (Hq & Hpa & _).
    destruct (queueINatRequest_idle w request Hact Hq) as (Hq' & Hpa' & _ & _ & _ & _ & Heff).
    cbv zeta in *. rewrite Hpa in Hpa'. now repeat split.
Qed.

(** Queueing several requests on an active queue. *)
Lemma run_enqueue_active requests : forall w,
  iNatAPIQueued w = true ->
  exists w',
    run jq options (enqueue_all requests) w = Some w'
    /\ iNatAPIQueue w' = (iNatAPIQueue w ++ requests)%list
    /\ pending_ajax w' = pending_ajax w
    /\ pending_timers w' = pending_timers w
    /\ clock w' = clock w
    /\ iNatAPIQueued w' = true
    /\ iNatAPIRateLimiting w' = iNatAPIRateLimiting w
    /\ effects w' = effects w.
Proof.
  induction requests as [|r rs IH]; intros w Hact; cbn [enqueue_all map run].
  - exists w. rewrite app_nil_r. now repeat split.
  - cbn [step app_call].
    destruct (queueINatRequest_active w r Hact) as (Hq & Hpa & Hpt & Hcl & Hact' & Hrl & Heff).
    cbv zeta in *.
    destruct (IH _ Hact') as (w' & Hrun & Hq' & Hpa' & Hpt' & Hcl' & Hact'' & Hrl' & Heff').
    exists w'. rewrite Hq', Hq, Hpa', Hpa, Hpt', Hpt, Hcl', Hcl, Hrl', Hrl, Heff', Heff.
    rewrite <- app_assoc. now repeat split.
Qed.

(** A completion, with a callback that queues nothing, while the
    rate-limiting flag is not set. *)
Lemma completion_unthrottled w request o w' :
  queue_inv w ->
  pending_ajax w = [request] ->
  iNatAPIRateLimiting w = false ->
  step jq options (AjaxDone 0 o []) w = Some w' ->
  queue_inv w'
  /\ iNatAPIQueue w' = skipn 1 (iNatAPIQueue w)
  /\ pending_ajax w' = firstn 1 (iNatAPIQueue w)
  /\ pending_timers w' = []
  /\ clock w' = clock w
  /\ iNatAPIRateLimiting w'
     = match iNatAPIQueue w with
       | [] => false
       | _ :: rest => RequestsPerMinute options <? Z.of_nat (length rest)
       end
  /\ sent (effects w')
     = (sent (effects w) ++ map (pair (clock w)) (firstn 1 (iNatAPIQueue w)))%list
  /\ timeouts (effects w') = timeouts (effects w).
Proof.
  intros Hinv Hpa Hrl Hstep.
  destruct (step_history jq options _ w w' Hinv Hstep) as (Hinv' & _).
  destruct (inv_in_flight w request [] Hinv Hpa) as (_ & Hpt & Hact).
  cbn [step] in Hstep. rewrite Hpa in Hstep. cbn in Hstep. injection Hstep as <-.
  split; [exact Hinv'|]. clear Hinv'.
  match goal with |- context [settle request o ?x] =>
    pose proof (settle_state request o x) as Hs; cbv zeta in Hs; cbn in Hs;
    destruct Hs as (Hs1 & Hs2 & Hs3 & Hs4 & Hs5 & Hs6 & Hs7 & Hs8);
    assert (Hs9 : timeouts (effects (settle request o x)) = timeouts (effects w))
      by (unfold settle; destruct o, (callbacks request); cbn;
          rewrite ?timeouts_app; cbn; now rewrite ?app_nil_r);
    set (w1 := settle request o x) in * end.
  unfold complete. cbn. rewrite Hs3, Hrl.
  destruct (makeINatRequest_pop jq options (emit (AjaxCompleted (clock w1)) w1))
    as (-> & -> & -> & -> & -> & -> & _ & ->).
  cbn. rewrite sent_app, timeouts_app. cbn.
  rewrite !app_nil_r, Hs1, Hs3, Hs4, Hs5, Hs6, Hs8, Hs9, Hpt, Hrl.
  repeat split; try reflexivity.
  destruct (iNatAPIQueue w); [reflexivity|]. now rewrite orb_false_r.
Qed.

(** A queue not longer than the threshold plus one drains without the
    flag ever being set: everything is sent at the time of the first
    completion. *)
Lemma drain_unthrottled outcome fuel : forall w,
  queue_inv w ->
  iNatAPIRateLimiting w = false ->
  pending_timers w = [] ->
  Z.of_nat (length (iNatAPIQueue w)) <= RequestsPerMinute options + 1 ->
  (work w <= fuel)%nat ->
  let w' := settle_all jq options outcome fuel w in
  sent (effects w') = (sent (effects w) ++ map (pair (clock w)) (iNatAPIQueue w))%list
  /\ timeouts (effects w') = timeouts (effects w)
  /\ clock w' = clock w
  /\ iNatAPIRateLimiting w' = false.
Proof.
  induction fuel as [|fuel IH]; intros w Hinv Hrl Hpt Hlen Hwork; cbv zeta.
  - cbn [settle_all]. unfold work in Hwork.
    destruct (iNatAPIQueue w); [|cbn in Hwork; lia].
    cbn. rewrite app_nil_r. now repeat split.
  - cbn [settle_all].
    destruct (next_host_event outcome w) as [e|] eqn:Hnext.
    + destruct (host_event_progress jq options outcome w e Hinv Hnext)
        as (w1 & Hstep & Hlt & _).
      rewrite Hstep. unfold next_host_event in Hnext. rewrite Hpt in Hnext.
      destruct (pending_ajax w) as [|request others] eqn:Hpa; [discriminate|].
      destruct (inv_in_flight w request others Hinv Hpa) as (-> & _ & _).
      injection Hnext as <-.
      destruct (completion_unthrottled w request _ w1 Hinv Hpa Hrl Hstep)
        as (Hinv1 & Hq1 & Hpa1 & Hpt1 & Hcl1 & Hrl1 & Hsent1 & Hto1).
      assert (Hrl1' : iNatAPIRateLimiting w1 = false).
      { rewrite Hrl1. destruct (iNatAPIQueue w) as [|r rest]; [reflexivity|].
        cbn [length] in Hlen. lia. }
      assert (Hlen1 : Z.of_nat (length (iNatAPIQueue w1)) <= RequestsPerMinute options + 1).
      { rewrite Hq1, length_skipn. lia. }
      destruct (IH w1 Hinv1 Hrl1' Hpt1 Hlen1 ltac:(lia)) as (Hsent & Hto & Hcl & Hrl').
      rewrite Hsent, Hto, Hcl, Hsent1, Hto1, Hcl1, Hq1, <- app_assoc, <- map_app.
      now rewrite firstn_skipn.
    + unfold next_host_event in Hnext. rewrite Hpt in Hnext.
      destruct (pending_ajax w) eqn:Hpa; [|discriminate].
      unfold queue_inv in Hinv. rewrite Hpa, Hpt in Hinv.
      destruct (iNatAPIQueued w); [cbn in Hinv; lia|].
      destruct Hinv as (-> & _). cbn. rewrite app_nil_r. now repeat split.
Qed.

(** X14.  A burst of at most the threshold plus two requests, queued in a
    row on the dispatcher in its initial state, is never throttled:
    whatever the outcomes, when the host settles the calls one after the
    other every request is sent in the step that completes the one before
    it (here all at time 0, no time having to pass), no cooldown timer is
    ever set, and the rate-limiting flag ends cleared. *)
Theorem small_burst_not_throttled requests outcome fuel w :
  0 <= RequestsPerMinute options ->
  Z.of_nat (length requests) <= RequestsPerMinute options + 2 ->
  (4 * length requests + 3 <= fuel)%nat ->
  run jq options (enqueue_all requests) initial_world = Some w ->
  let w' := settle_all jq options outcome fuel w in
  sent (effects w') = map (pair 0) requests
  /\ timeouts (effects w') = []
  /\ clock w' = 0
  /\ iNatAPIRateLimiting w' = false.
Proof.
  intros Hrpm Hlen Hfuel Hrun.
  destruct (run_history jq options _ initial_world w initial_world_inv Hrun) as (Hinv & _).
  destruct requests as [|r0 rest].
  - cbn in Hrun. injection Hrun as <-.
    destruct fuel; cbn; now repeat split.
  - cbn [enqueue_all map run step app_call] in Hrun.
    destruct (queueINatRequest_idle initial_world r0 eq_refl eq_refl)
      as (Hq0 & Hpa0 & Hpt0 & Hcl0 & Hact0 & Hrl0 & Heff0).
    cbv zeta in *.
    destruct (run_enqueue_active rest _ Hact0)
      as (w1 & Hrun1 & Hq1 & Hpa1 & Hpt1 & Hcl1 & Hact1 & Hrl1 & Heff1).
    change (run jq options (enqueue_all rest)
              (queueINatRequest jq options r0 initial_world) = Some w) in Hrun.
    rewrite Hrun1 in Hrun. injection Hrun as ->.
    rewrite Hq0 in Hq1. rewrite Hpa0 in Hpa1. rewrite Hpt0 in Hpt1. rewrite Hcl0 in Hcl1.
    rewrite Hrl0 in Hrl1. rewrite Heff0 in Heff1. cbn in Hq1, Hpa1, Hpt1, Hcl1, Hrl1, Heff1.
    assert (Hrl : iNatAPIRateLimiting w = false).
    { rewrite Hrl1, orb_false_r. lia. }
    cbn [length] in Hlen, Hfuel.
    destruct (drain_unthrottled outcome fuel w Hinv Hrl Hpt1) as (Hsent & Hto & Hcl & Hrl').
    + rewrite Hq1. lia.
    + unfold work. rewrite Hq1, Hpa1, Hpt1. cbn. lia.
    + rewrite Hsent, Hto, Hcl, Hrl', Heff1, Hq1, Hcl1. cbn. now repeat split.
Qed.

(** X15.  When more requests than that are queued in a row on the idle
    dispatcher, throttling starts with the second dispatch: the first two
    requests are sent without delay, and the first completion sets the
    rate-limiting flag exactly when the requests behind the second are
    more than the threshold. *)
Theorem burst_sets_flag_at_second_dispatch first second rest o w :
  0 <= RequestsPerMinute options ->
  run jq options (enqueue_all (first :: second :: rest) ++ [AjaxDone 0 o []]) initial_world
  = Some w ->
  iNatAPIRateLimiting w = (RequestsPerMinute options <? Z.of_nat (length rest))
  /\ sent (effects w) = [(0, first); (0, second)]
  /\ pending_ajax w = [second]
  /\ iNatAPIQueue w = rest
  /\ pending_timers w = [].
Proof.
  intros Hrpm Hrun.
  destruct (queueINatRequest_idle initial_world first eq_refl eq_refl)
    as (Hq0 & Hpa0 & Hpt0 & Hcl0 & Hact0 & Hrl0 & Heff0).
  cbv zeta in *.
  destruct (run_enqueue_active (second :: rest) _ Hact0)
    as (w1 & Hrun1 & Hq1 & Hpa1 & Hpt1 & Hcl1 & Hact1 & Hrl1 & Heff1).
  rewrite Hq0 in Hq1. rewrite Hpa0 in Hpa1. rewrite Hpt0 in Hpt1. rewrite Hcl0 in Hcl1.
  rewrite Hrl0 in Hrl1. rewrite Heff0 in Heff1. cbn in Hq1, Hpa1, Hpt1, Hcl1, Hrl1, Heff1.
  assert (Hrun0 : run jq options (enqueue_all (first :: second :: rest)) initial_world
                  = Some w1) by exact Hrun1.
  destruct (run_history jq options _ initial_world w1 initial_world_inv Hrun0) as (Hinv1 & _).
  assert (Hsplit : forall es1 es2 x y,
             run jq options es1 x = Some y ->
             run jq options (es1 ++ es2) x = run jq options es2 y).
  { induction es1 as [|e es1 IH]; intros es2 x y; cbn [run app].
    - now intros [= ->].
    - destruct (step jq options e x); [apply IH|discriminate]. }
  rewrite (Hsplit _ _ _ _ Hrun0) in Hrun. cbn [run] in Hrun.
  destruct (step jq options (AjaxDone 0 o []) w1) as [w2|] eqn:Hstep; [|discriminate].
  injection Hrun as ->.
  assert (Hrl : iNatAPIRateLimiting w1 = false) by (rewrite Hrl1, orb_false_r; lia).
  destruct (completion_unthrottled w1 first o w Hinv1 Hpa1 Hrl Hstep)
    as (_ & Hq & Hpa & Hpt & _ & Hrlw & Hsent & _).
  rewrite Hq1 in Hq, Hpa, Hrlw, Hsent. rewrite Heff1, Hcl1 in Hsent.
  cbn in Hq, Hpa, Hsent. now repeat split.
Qed.

End DispatcherBursts.

Lemma queueINatRequest_sends_when_idle_witness :
  effects (queueINatRequest (fun _ => "") apiOptions (sample_request 5)
             (world_after (fun _ => "") apiOptions
                [Calls (CheckAuthentication (JStr "tok") 1);
                 AjaxDone 0 (Succeeds (JStr "bob")) []]))
  = (effects (world_after (fun _ => "") apiOptions
                [Calls (CheckAuthentication (JStr "tok") 1);
                 AjaxDone 0 (Succeeds (JStr "bob")) []])
     ++ [AjaxSent 0 (sample_request 5)
           "https://api.inaturalist.org/v1/observations" None])%list.
Proof.
  pose proof (queueINatRequest_sends_when_idle (fun _ => "") apiOptions
                [Calls (CheckAuthentication (JStr "tok") 1);
                 AjaxDone 0 (Succeeds (JStr "bob")) []]
                (world_after (fun _ => "") apiOptions
                   [Calls (CheckAuthentication (JStr "tok") 1);
                    AjaxDone 0 (Succeeds (JStr "bob")) []])
                (sample_request 5) ltac:(vm_compute; reflexivity)) as H.
  cbv zeta in H.
  replace (iNatAPIQueued (world_after (fun _ => "") apiOptions
                            [Calls (CheckAuthentication (JStr "tok") 1);
                             AjaxDone 0 (Succeeds (JStr "bob")) []]))
    with false in H by (vm_compute; reflexivity).
  destruct H as (Heff & _). rewrite Heff. vm_compute. reflexivity.
Defined.

Lemma small_burst_not_throttled_witness :
  sent (effects (settle_all (fun _ => "") small_options (fun _ => Fails) 15
                   (world_after (fun _ => "") small_options (burst 3))))
  = [(0, sample_request 0); (0, sample_request 1); (0, sample_request 2)].
Proof.
  refine (proj1 (small_burst_not_throttled (fun _ => "") small_options
                   [sample_request 0; sample_request 1; sample_request 2]
                   (fun _ => Fails) 15%nat
                   (world_after (fun _ => "") small_options (burst 3)) _ _ _ _)).
  - vm_compute. discriminate.
  - vm_compute. discriminate.
  - vm_compute. lia.
  - vm_compute. reflexivity.
Defined.

Lemma burst_sets_flag_at_second_dispatch_witness :
  iNatAPIRateLimiting
    (world_after (fun _ => "") small_options (burst 4 ++ [AjaxDone 0 Fails []]))
  = (1 <? Z.of_nat 2).
Proof.
  refine (proj1 (burst_sets_flag_at_second_dispatch (fun _ => "") small_options
                   (sample_request 0) (sample_request 1)
                   [sample_request 2; sample_request 3] Fails
                   (world_after (fun _ => "") small_options
                      (burst 4 ++ [AjaxDone 0 Fails []])) _ _)).
  - vm_compute. discriminate.
  - vm_compute. reflexivity.
Defined.

(** ** Outcomes do not steer the queue *)

Section DispatcherOutcomes.

Variable jq : JSValue -> string.
Variable options : ApiOptions.

Lemma view_makeINatRequest a b :
  queue_view a = queue_view b ->
  queue_view (makeINatRequest jq options a) = queue_view (makeINatRequest jq options b).
Proof.
  unfold queue_view. intros [= Hq Hqd Hrl Hcl Hpa Hpt Hs].
  destruct (makeINatRequest_pop jq options a) as (-> & -> & -> & -> & -> & _ & -> & ->).
  destruct (makeINatRequest_pop jq options b) as (-> & -> & -> & -> & -> & _ & -> & ->).
  now rewrite Hq, Hqd, Hrl, Hcl, Hpa, Hpt, Hs.
Qed.

Lemma view_queueINatRequest request a b :
  queue_view a = queue_view b ->
  queue_view (queueINatRequest jq options request a)
  = queue_view (queueINatRequest jq options request b).
Proof.
  intros Hv. unfold queueINatRequest.
  assert (Hpush : queue_view (set_queue (iNatAPIQueue a ++ [request]) a)
                  = queue_view (set_queue (iNatAPIQueue b ++ [request]) b)).
  { revert Hv. unfold queue_view. cbn. intros [= -> -> -> -> -> -> ->]. reflexivity. }
  assert (Hqd : iNatAPIQueued a = iNatAPIQueued b).
  { revert Hv. unfold queue_view. now intros [= _ -> _ _ _ _ _]. }
  cbn [iNatAPIQueued set_queue]. rewrite Hqd.
  assert (Hfl : forall x y, queue_view x = queue_view y ->
            queue_view (set_flags true (iNatAPIRateLimiting x) x)
            = queue_view (set_flags true (iNatAPIRateLimiting y) y)).
  { intros x y. unfold queue_view. cbn. intros [= -> _ -> -> -> -> ->]. reflexivity. }
  destruct (negb (iNatAPIQueued b)); apply Hfl; [|exact Hpush].
  now apply view_makeINatRequest.
Qed.

Lemma view_app_call c a b :
  queue_view a = queue_view b ->
  queue_view (app_call jq options c a) = queue_view (app_call jq options c b).
Proof.
  intros Hv. destruct c as [request|token callback]; cbn [app_call].
  - now apply view_queueINatRequest.
  - unfold checkAuthentication. destruct (truthy token).
    + apply view_queueINatRequest. revert Hv. unfold queue_view. cbn.
      intros [= -> -> -> -> -> -> ->]. reflexivity.
    + revert Hv. unfold queue_view. cbn. rewrite !sent_app. cbn.
      intros [= -> -> -> -> -> -> ->]. reflexivity.
Qed.

Lemma view_app_calls calls : forall a b,
  queue_view a = queue_view b ->
  queue_view (fold_left (fun w c => app_call jq options c w) calls a)
  = queue_view (fold_left (fun w c => app_call jq options c w) calls b).
Proof.
  induction calls as [|c calls IH]; intros a b Hv; [exact Hv|].
  cbn [fold_left]. apply IH. now apply view_app_call.
Qed.

Lemma view_settle request o w : queue_view (settle request o w) = queue_view w.
Proof.
  destruct (settle_state request o w) as (H1 & H2 & H3 & H4 & H5 & H6 & _ & H8).
  cbv zeta in *. unfold queue_view. now rewrite H1, H2, H3, H4, H5, H6, H8.
Qed.

Lemma view_complete a b :
  queue_view a = queue_view b ->
  queue_view (complete jq options a) = queue_view (complete jq options b).
Proof.
  intros Hv. unfold complete.
  assert (Hparts := Hv). unfold queue_view in Hparts.
  injection Hparts as Hq Hqd Hrl Hcl Hpa Hpt Hs.
  cbn [iNatAPIRateLimiting emit]. rewrite Hrl.
  destruct (iNatAPIRateLimiting b) eqn:Hb.
  - unfold queue_view. cbn. rewrite !sent_app. cbn.
    now rewrite Hq, Hqd, Hrl, Hb, Hcl, Hpa, Hpt, Hs.
  - apply view_makeINatRequest. unfold queue_view. cbn. rewrite !sent_app. cbn.
    now rewrite Hq, Hqd, Hrl, Hb, Hcl, Hpa, Hpt, Hs.
Qed.

Lemma view_step e1 e2 a b a' :
  same_but_outcome e1 e2 ->
  queue_view a = queue_view b ->
  step jq options e1 a = Some a' ->
  exists b', step jq options e2 b = Some b' /\ queue_view a' = queue_view b'.
Proof.
  intros Hsame Hv Hstep.
  assert (Hparts := Hv). unfold queue_view in Hparts.
  injection Hparts as Hq Hqd Hrl Hcl Hpa Hpt Hs.
  destruct e1 as [c|k o calls|k|dt], e2 as [c2|k2 o2 calls2|k2|dt2]; cbn in Hsame;
    try discriminate; try (injection Hsame as <-).
  - cbn [step] in *. injection Hstep as <-. eexists. split; [reflexivity|].
    now apply view_app_call.
  - destruct Hsame as [<- <-]. cbn [step] in *. rewrite <- Hpa.
    destruct (pending_ajax a !! k) as [request|]; [|discriminate].
    injection Hstep as <-. eexists. split; [reflexivity|].
    apply view_complete, view_app_calls. rewrite !view_settle.
    unfold queue_view. cbn. now rewrite Hq, Hqd, Hrl, Hcl, Hpa, Hpt, Hs.
  - cbn [step] in *. rewrite <- Hpt, <- Hcl.
    destruct (pending_timers a !! k) as [due|]; [|discriminate].
    destruct (due <=? clock a); [|discriminate].
    injection Hstep as <-. eexists. split; [reflexivity|].
    apply view_makeINatRequest.
    unfold queue_view. cbn. now rewrite Hq, Hqd, Hrl, Hcl, Hpa, Hpt, Hs.
  - cbn [step] in *. destruct (0 <=? dt); [|discriminate].
    injection Hstep as <-. eexists. split; [reflexivity|].
    unfold queue_view. cbn. now rewrite Hq, Hqd, Hrl, Hcl, Hpa, Hpt, Hs.
Qed.

(** X16.  How calls settle has no influence on the queue.  Two histories
    that differ only in the outcomes of the calls (the application making
    the same calls) can both happen or neither, and lead to the same queue,
    the same flags, the same call in flight and timer, and the same
    requests sent at the same times: an error never stops or reorders the
    requests behind it. *)
Theorem outcomes_do_not_steer_the_queue es1 es2 w1 :
  Forall2 same_but_outcome es1 es2 ->
  run jq options es1 initial_world = Some w1 ->
  exists w2, run jq options es2 initial_world = Some w2
             /\ queue_view w1 = queue_view w2.
Proof.
  intros Hsame.
  enough (H : forall a b, queue_view a = queue_view b ->
                run jq options es1 a = Some w1 ->
                exists w2, run jq options es2 b = Some w2 /\ queue_view w1 = queue_view w2)
    by (apply H; reflexivity).
  induction Hsame as [|e1 e2 es1 es2 He _ IH]; intros a b Hv Hrun; cbn [run] in *.
  - injection Hrun as <-. eauto.
  - destruct (step jq options e1 a) as [a'|] eqn:Hstep; [|discriminate].
    destruct (view_step e1 e2 a b a' He Hv Hstep) as (b' & -> & Hv').
    exact (IH a' b' Hv' Hrun).
Qed.

End DispatcherOutcomes.

Lemma outcomes_do_not_steer_the_queue_witness :
  exists w2,
    run (fun _ => "") apiOptions
      (burst 3 ++ [AjaxDone 0 (Succeeds JNull) []; AjaxDone 0 Fails []]) initial_world
    = Some w2
    /\ queue_view (world_after (fun _ => "") apiOptions
                     (burst 3 ++ [AjaxDone 0 Fails []; AjaxDone 0 (Succeeds JNull) []]))
       = queue_view w2.
Proof.
  refine (outcomes_do_not_steer_the_queue (fun _ => "") apiOptions
            (burst 3 ++ [AjaxDone 0 Fails []; AjaxDone 0 (Succeeds JNull) []])
            (burst 3 ++ [AjaxDone 0 (Succeeds JNull) []; AjaxDone 0 Fails []])
            (world_after (fun _ => "") apiOptions
               (burst 3 ++ [AjaxDone 0 Fails []; AjaxDone 0 (Succeeds JNull) []])) _ _).
  - repeat constructor.
  - vm_compute. reflexivity.
Defined.

(** ** Credentials *)

Section DispatcherCredentials.

Variable jq : JSValue -> string.
Variable options : ApiOptions.

(** An inactive world after a history: nothing queued, nothing
    outstanding, no rate limiting. *)
Lemma idle_world es w :
  run jq options es initial_world = Some w ->
  iNatAPIQueued w = false ->
  iNatAPIQueue w = [] /\ pending_ajax w = [] /\ pending_timers w = []
  /\ iNatAPIRateLimiting w = false.
Proof.
  intros Hrun Hidle.
  destruct (run_shape jq options es initial_world w initial_world_inv (fun _ => eq_refl) Hrun)
    as (Hinv & Hflags).
  unfold queue_inv in Hinv. rewrite Hidle in Hinv. destruct Hinv as (Hq & Hpa & Hpt).
  repeat split; try assumption. now apply Hflags.
Qed.

(** The calls and the completion on worlds written out, with a
    non-negative threshold. *)
Lemma queueINatRequest_on_idle request ia ha cl ef :
  0 <= RequestsPerMinute options ->
  queueINatRequest jq options request
    {| iNatAPIQueue := []; iNatAPIQueued := false; iNatAPIRateLimiting := false;
       iNatAuthorized := ia; headers_Authorization := ha; clock := cl;
       pending_ajax := []; pending_timers := []; effects := ef |}
  = {| iNatAPIQueue := []; iNatAPIQueued := true; iNatAPIRateLimiting := false;
       iNatAuthorized := ia; headers_Authorization := ha; clock := cl;
       pending_ajax := [request]; pending_timers := [];
       effects := ef ++ [AjaxSent cl request (request_url jq request)
                           match headers request with
                           | NoHeaders => None
                           | SharedHeaders => Some ha
                           | OwnHeaders a => Some a
                           end] |}.
Proof.
  intros Hrpm. unfold queueINatRequest, makeINatRequest.
  cbn [iNatAPIQueue iNatAPIQueued set_queue app negb length].
  assert (H0 : (RequestsPerMinute options <? Z.of_nat 0) = false)
    by (change (Z.of_nat 0) with 0; lia).
  rewrite H0. reflexivity.
Qed.

Lemma queueINatRequest_on_active request q rl ia ha cl pa pt ef :
  queueINatRequest jq options request
    {| iNatAPIQueue := q; iNatAPIQueued := true; iNatAPIRateLimiting := rl;
       iNatAuthorized := ia; headers_Authorization := ha; clock := cl;
       pending_ajax := pa; pending_timers := pt; effects := ef |}
  = {| iNatAPIQueue := q ++ [request]; iNatAPIQueued := true; iNatAPIRateLimiting := rl;
       iNatAuthorized := ia; headers_Authorization := ha; clock := cl;
       pending_ajax := pa; pending_timers := pt; effects := ef |}.
Proof. reflexivity. Qed.

Lemma checkAuthentication_on_idle token callback ia ha cl ef :
  0 <= RequestsPerMinute options ->
  truthy token = true ->
  checkAuthentication jq options token callback
    {| iNatAPIQueue := []; iNatAPIQueued := false; iNatAPIRateLimiting := false;
       iNatAuthorized := ia; headers_Authorization := ha; clock := cl;
       pending_ajax := []; pending_timers := []; effects := ef |}
  = {| iNatAPIQueue := []; iNatAPIQueued := true; iNatAPIRateLimiting := false;
       iNatAuthorized := ia; headers_Authorization := token; clock := cl;
       pending_ajax := [probe_request callback]; pending_timers := [];
       effects := ef ++ [AjaxSent cl (probe_request callback)
                           "https://api.inaturalist.org/v2/users/me?fields=login"
                           (Some token)] |}.
Proof.
  intros Hrpm Htok. unfold checkAuthentication. rewrite Htok.
  unfold set_auth.
  cbn [iNatAPIQueue iNatAPIQueued iNatAPIRateLimiting iNatAuthorized
       headers_Authorization clock pending_ajax pending_timers effects].
  now rewrite queueINatRequest_on_idle.
Qed.

Lemma checkAuthentication_on_active token callback q rl ia ha cl pa pt ef :
  truthy token = true ->
  checkAuthentication jq options token callback
    {| iNatAPIQueue := q; iNatAPIQueued := true; iNatAPIRateLimiting := rl;
       iNatAuthorized := ia; headers_Authorization := ha; clock := cl;
       pending_ajax := pa; pending_timers := pt; effects := ef |}
  = {| iNatAPIQueue := q ++ [probe_request callback]; iNatAPIQueued := true;
       iNatAPIRateLimiting := rl;
       iNatAuthorized := ia; headers_Authorization := token; clock := cl;
       pending_ajax := pa; pending_timers := pt; effects := ef |}.
Proof.
  intros Htok. unfold checkAuthentication. rewrite Htok. reflexivity.
Qed.

(** The completion of the only call in flight, the flag not set and the
    callback making no call: the request's callback, then the dispatch
    step. *)
Lemma completion_on_record request o q ia ha cl ef :
  step jq options (AjaxDone 0 o [])
    {| iNatAPIQueue := q; iNatAPIQueued := true; iNatAPIRateLimiting := false;
       iNatAuthorized := ia; headers_Authorization := ha; clock := cl;
       pending_ajax := [request]; pending_timers := []; effects := ef |}
  = Some (makeINatRequest jq options
            (emit (AjaxCompleted cl)
               (settle request o
                  {| iNatAPIQueue := q; iNatAPIQueued := true;
                     iNatAPIRateLimiting := false;
                     iNatAuthorized := ia; headers_Authorization := ha; clock := cl;
                     pending_ajax := []; pending_timers := []; effects := ef |}))).
Proof.
  cbn [step pending_ajax]. change ([request] !! 0%nat) with (Some request).
  cbv iota. cbn [fold_left]. f_equal. unfold set_host.
  cbn [iNatAPIQueue iNatAPIQueued iNatAPIRateLimiting iNatAuthorized
       headers_Authorization clock pending_ajax pending_timers effects].
  change (delete 0%nat [request]) with (@nil Request).
  match goal with |- context [settle request o ?x] =>
    destruct (settle_state request o x) as (_ & _ & Hrl & _ & _ & Hcl & _);
    cbv zeta in Hrl, Hcl; cbn [iNatAPIRateLimiting clock] in Hrl, Hcl;
    set (w1 := settle request o x) in * end.
  unfold complete. cbn [iNatAPIRateLimiting emit clock]. rewrite Hrl, Hcl. reflexivity.
Qed.

Lemma run_call c es w :
  run jq options (Calls c :: es) w = run jq options es (app_call jq options c w).
Proof. reflexivity. Qed.

Lemma run_last e w : run jq options [e] w = step jq options e w.
Proof. cbn [run]. now destruct (step jq options e w). Qed.

(** X17.  A verification that succeeds, started on the idle dispatcher
    with a non-negative threshold: the probe is sent at once to
    [v2/users/me] with [fields=login] and the token as credential; when it
    succeeds the token stays in the shared headers, the login of the
    response becomes the authorized identity, the callback is called with
    [true], and the dispatcher is idle again. *)
Theorem verification_succeeds es w token callback login w' :
  run jq options es initial_world = Some w ->
  iNatAPIQueued w = false ->
  0 <= RequestsPerMinute options ->
  truthy token = true ->
  run jq options [Calls (CheckAuthentication token callback);
                  AjaxDone 0 (Succeeds login) []] w = Some w' ->
  headers_Authorization w' = token
  /\ iNatAuthorized w' = login
  /\ effects w'
     = (effects w
        ++ [AjaxSent (clock w) (probe_request callback)
              "https://api.inaturalist.org/v2/users/me?fields=login" (Some token);
            SuccessCalled (ProbeCallbacks callback);
            VerifyCalled callback true;
            AjaxCompleted (clock w)])%list
  /\ iNatAPIQueued w' = false
  /\ iNatAPIQueue w' = [].
Proof.
  intros Hrun Hidle Hrpm Htok Hrun'.
  destruct (idle_world es w Hrun Hidle) as (Hq & Hpa & Hpt & Hrl).
  destruct w as [q qd rl ia ha cl pa pt ef]. cbn in Hidle, Hq, Hpa, Hpt, Hrl. subst.
  rewrite run_call, run_last in Hrun'. cbn [app_call] in Hrun'.
  rewrite (checkAuthentication_on_idle _ _ _ _ _ _ Hrpm Htok) in Hrun'.
  rewrite completion_on_record in Hrun'. injection Hrun' as <-.
  unfold settle. cbn [callbacks probe_request].
  rewrite makeINatRequest_idle by reflexivity.
  cbn. rewrite <- !app_assoc. cbn. now repeat split.
Qed.

(** X18.  The shared headers are read when a request is sent, not when
    it is queued.  A request that refers to the shared [headers] and waits
    behind another one, while [checkAuthentication] stores a new token, is
    sent with that new token as its credential. *)
Theorem shared_headers_read_when_sent es w blocker id request token callback o w' :
  run jq options es initial_world = Some w ->
  iNatAPIQueued w = false ->
  0 <= RequestsPerMinute options ->
  callbacks blocker = AppCallbacks id ->
  headers request = SharedHeaders ->
  truthy token = true ->
  run jq options [Calls (QueueRequest blocker);
                  Calls (QueueRequest request);
                  Calls (CheckAuthentication token callback);
                  AjaxDone 0 o []] w = Some w' ->
  In (AjaxSent (clock w) request (request_url jq request) (Some token)) (effects w')
  /\ pending_ajax w' = [request]
  /\ iNatAPIQueue w' = [probe_request callback].
Proof.
  intros Hrun Hidle Hrpm Hcb Hshared Htok Hrun'.
  destruct (idle_world es w Hrun Hidle) as (Hq & Hpa & Hpt & Hrl).
  destruct w as [q qd rl ia ha cl pa pt ef]. cbn in Hidle, Hq, Hpa, Hpt, Hrl. subst.
  rewrite !run_call, run_last in Hrun'. cbn [app_call] in Hrun'.
  rewrite (queueINatRequest_on_idle _ _ _ _ _ Hrpm) in Hrun'.
  rewrite queueINatRequest_on_active in Hrun'.
  rewrite (checkAuthentication_on_active _ _ _ _ _ _ _ _ _ _ Htok) in Hrun'.
  rewrite completion_on_record in Hrun'. injection Hrun' as <-.
  cbn [app clock].
  match goal with |- context [makeINatRequest jq options ?x] =>
    destruct (makeINatRequest_dispatch jq options x request [probe_request callback])
      as (Hq' & _ & _ & Hpa' & _ & _ & _ & _ & Heff');
      [unfold settle; rewrite Hcb; destruct o; reflexivity|];
    cbv zeta in Hq', Hpa', Heff'; rewrite Hq', Hpa', Heff' end.
  split; [|split; [|reflexivity]].
  - apply in_or_app. right. left.
    unfold settle, sent_authorization. rewrite Hcb, Hshared. destruct o; reflexivity.
  - unfold settle. rewrite Hcb. destruct o; reflexivity.
Qed.

(** X19.  The error callback of a probe clears the shared header whatever
    it holds by then.  When a second verification has stored its token
    while the first probe was in flight and the first probe fails, the
    header is cleared, and the second probe is sent without credential. *)
Theorem failed_probe_clears_newer_token es w token1 callback1 token2 callback2 w' :
  run jq options es initial_world = Some w ->
  iNatAPIQueued w = false ->
  0 <= RequestsPerMinute options ->
  truthy token1 = true ->
  truthy token2 = true ->
  run jq options [Calls (CheckAuthentication token1 callback1);
                  Calls (CheckAuthentication token2 callback2);
                  AjaxDone 0 Fails []] w = Some w' ->
  headers_Authorization w' = JStr ""
  /\ In (AjaxSent (clock w) (probe_request callback2)
           "https://api.inaturalist.org/v2/users/me?fields=login" (Some (JStr "")))
        (effects w')
  /\ In (VerifyCalled callback1 false) (effects w').
Proof.
  intros Hrun Hidle Hrpm Htok1 Htok2 Hrun'.
  destruct (idle_world es w Hrun Hidle) as (Hq & Hpa & Hpt & Hrl).
  destruct w as [q qd rl ia ha cl pa pt ef]. cbn in Hidle, Hq, Hpa, Hpt, Hrl. subst.
  rewrite !run_call, run_last in Hrun'. cbn [app_call] in Hrun'.
  rewrite (checkAuthentication_on_idle _ _ _ _ _ _ Hrpm Htok1) in Hrun'.
  rewrite (checkAuthentication_on_active _ _ _ _ _ _ _ _ _ _ Htok2) in Hrun'.
  rewrite completion_on_record in Hrun'. injection Hrun' as <-.
  cbn [app]. unfold settle. cbn [callbacks probe_request].
  match goal with |- context [makeINatRequest jq options ?x] =>
    destruct (makeINatRequest_dispatch jq options x (probe_request callback2) [])
      as (_ & _ & _ & _ & _ & _ & Hh & _ & Heff); [reflexivity|];
    cbv zeta in Hh, Heff; rewrite Hh, Heff end.
  cbn. split; [reflexivity|].
  split; apply in_or_app; [right; now left | left].
  rewrite <- !app_assoc. apply in_or_app. right. cbn. tauto.
Qed.

End DispatcherCredentials.

Lemma verification_succeeds_witness :
  headers_Authorization
    (world_after (fun _ => "") apiOptions
       [Calls (CheckAuthentication (JStr "tok") 1); AjaxDone 0 (Succeeds (JStr "bob")) []])
  = JStr "tok"
  /\ iNatAuthorized
       (world_after (fun _ => "") apiOptions
          [Calls (CheckAuthentication (JStr "tok") 1);
           AjaxDone 0 (Succeeds (JStr "bob")) []])
     = JStr "bob".
Proof.
  destruct (verification_succeeds (fun _ => "") apiOptions [] initial_world
              (JStr "tok") 1%nat (JStr "bob")
              (world_after (fun _ => "") apiOptions
                 [Calls (CheckAuthentication (JStr "tok") 1);
                  AjaxDone 0 (Succeeds (JStr "bob")) []]))
    as (Hh & Hi & _).
  - reflexivity.
  - reflexivity.
  - vm_compute. discriminate.
  - reflexivity.
  - vm_compute. reflexivity.
  - now split.
Defined.

Lemma shared_headers_read_when_sent_witness :
  In (AjaxSent 0 (probe_request 1) (request_url (fun _ => "") (probe_request 1))
        (Some (JStr "second")))
     (effects (world_after (fun _ => "") apiOptions
                 [Calls (QueueRequest (sample_request 0));
                  Calls (QueueRequest (probe_request 1));
                  Calls (CheckAuthentication (JStr "second") 2);
                  AjaxDone 0 Fails []])).
Proof.
  refine (proj1 (shared_headers_read_when_sent (fun _ => "") apiOptions
            [] initial_world
            (sample_request 0) 0%nat (probe_request 1) (JStr "second") 2%nat Fails
            (world_after (fun _ => "") apiOptions
               [Calls (QueueRequest (sample_request 0));
                Calls (QueueRequest (probe_request 1));
                Calls (CheckAuthentication (JStr "second") 2);
                AjaxDone 0 Fails []])
            _ _ _ _ _ _ _)).
  all: try (vm_compute; reflexivity).
  vm_compute. discriminate.
Defined.

Lemma failed_probe_clears_newer_token_witness :
  headers_Authorization
    (world_after (fun _ => "") apiOptions
       [Calls (CheckAuthentication (JStr "old") 1);
        Calls (CheckAuthentication (JStr "new") 2);
        AjaxDone 0 Fails []])
  = JStr "".
Proof.
  refine (proj1 (failed_probe_clears_newer_token (fun _ => "") apiOptions [] initial_world
            (JStr "old") 1%nat (JStr "new") 2%nat
            (world_after (fun _ => "") apiOptions
               [Calls (CheckAuthentication (JStr "old") 1);
                Calls (CheckAuthentication (JStr "new") 2);
                AjaxDone 0 Fails []]) _ _ _ _ _ _)).
  all: try (vm_compute; reflexivity).
  vm_compute. discriminate.
Defined.

(** ** The poller *)

Section Polling.

Variable jq : JSValue -> string.
Variable options : ApiOptions.

(** X20.  After any history, [checkiNatQueue] reports [false], and sets
    no timer, exactly when nothing is outstanding; while a call is in
    flight or a cooldown timer is pending, also when the queue itself is
    already empty, it reports [true] and sets one timer for [freq] later
    that will poll again with the same arguments. *)
Theorem checkiNatQueue_reports_activity es w freq callback timers said :
  run jq options es initial_world = Some w ->
  let p' := checkiNatQueue freq callback
              {| polled := w; poll_timers := timers; reports := said |} in
  (pending_ajax w = [] /\ pending_timers w = [] ->
   reports p' = (said ++ [(callback, false)])%list /\ poll_timers p' = timers)
  /\ (pending_ajax w <> [] \/ pending_timers w <> [] ->
      reports p' = (said ++ [(callback, true)])%list
      /\ poll_timers p' = (timers ++ [(clock w + freq, (freq, callback))])%list).
Proof.
  intros Hrun.
  destruct (run_history jq options es initial_world w initial_world_inv Hrun) as (Hinv & _).
  unfold queue_inv in Hinv. unfold checkiNatQueue. cbn.
  destruct (iNatAPIQueued w); cbn; split.
  - intros (Hpa & Hpt). rewrite Hpa, Hpt in Hinv. cbn in Hinv. lia.
  - now intros _.
  - now intros _.
  - destruct Hinv as (_ & Hpa & Hpt). intros [H|H]; contradiction.
Qed.

Lemma repeat_snoc {A} (x : A) n : (repeat x n ++ [x])%list = repeat x (S n).
Proof. induction n as [|n IH]; [reflexivity|]. cbn. now rewrite IH. Qed.

Lemma poll_step_chain freq callback e p p' :
  no_poll_call e = true ->
  poll_chain_state freq callback p ->
  poll_step jq options e p = Some p' ->
  poll_chain_state freq callback p'.
Proof.
  intros Hno (Hinv & n & Hcase) Hstep.
  destruct e as [e|f c|k]; [| discriminate |]; cbn [poll_step] in Hstep.
  - destruct (step jq options e (polled p)) as [w1|] eqn:Hs; [|discriminate].
    injection Hstep as <-. unfold poll_chain_state. cbn [polled poll_timers reports].
    split; [exact (proj1 (step_history jq options e _ _ Hinv Hs))|].
    exists n. destruct Hcase as [(Hr & t & Ht & Hle)|(Hr & Ht)]; [left|right].
    + split; [exact Hr|]. exists t. split; [exact Ht|].
      pose proof (step_clock jq options e _ _ Hinv Hs). lia.
    + now split.
  - destruct Hcase as [(Hr & t & Ht & Hle)|(Hr & Ht)]; rewrite Ht in Hstep.
    + destruct k as [|k]; [|discriminate]. cbn in Hstep.
      destruct (t + freq <=? clock (polled p)); [|discriminate].
      injection Hstep as <-. unfold checkiNatQueue, poll_chain_state.
      cbn [polled poll_timers reports].
      destruct (iNatAPIQueued (polled p)); cbn [polled poll_timers reports delete];
        (split; [exact Hinv|]).
      * exists (S n). left. rewrite Hr, repeat_snoc. split; [reflexivity|].
        exists (clock (polled p)). split; [reflexivity|lia].
      * exists (S n). right. now rewrite Hr.
    + discriminate.
Qed.

(** X21.  One call of [checkiNatQueue] after any history, followed by any
    events other than further calls of it, calls the callback with [true]
    some number of times and then, at most once and last of all, with
    [false].  As long as [false] has not been reported exactly one poll
    timer is pending, set [freq] after a moment not later than now; once it
    has been reported none is, so nothing follows it. *)
Theorem poll_chain es0 w freq callback es p :
  run jq options es0 initial_world = Some w ->
  forallb no_poll_call es = true ->
  poll_run jq options es
    (checkiNatQueue freq callback {| polled := w; poll_timers := []; reports := [] |})
  = Some p ->
  exists n,
    (reports p = repeat (callback, true) (S n)
     /\ exists t, poll_timers p = [(t + freq, (freq, callback))]
                  /\ t <= clock (polled p))
    \/ (reports p = (repeat (callback, true) n ++ [(callback, false)])%list
        /\ poll_timers p = []).
Proof.
  intros Hrun Hno Hpoll.
  destruct (run_history jq options es0 initial_world w initial_world_inv Hrun) as (Hinv & _).
  enough (H : poll_chain_state freq callback p) by exact (proj2 H).
  assert (Hstart : poll_chain_state freq callback
                     (checkiNatQueue freq callback
                        {| polled := w; poll_timers := []; reports := [] |})).
  { unfold checkiNatQueue, poll_chain_state. cbn.
    destruct (iNatAPIQueued w); cbn; (split; [exact Hinv|]); exists 0%nat.
    - left. split; [reflexivity|]. exists (clock w). split; [reflexivity|lia].
    - right. now split. }
  revert Hstart Hpoll.
  generalize (checkiNatQueue freq callback {| polled := w; poll_timers := []; reports := [] |}).
  induction es as [|e es IH]; intros p0 Hstart Hpoll; cbn [poll_run] in Hpoll.
  - now injection Hpoll as <-.
  - cbn [forallb] in Hno. apply andb_prop in Hno as [He Hes].
    destruct (poll_step jq options e p0) as [p1|] eqn:Hs; [|discriminate].
    exact (IH Hes p1 (poll_step_chain freq callback e p0 p1 He Hstart Hs) Hpoll).
Qed.

End Polling.

Lemma checkiNatQueue_reports_activity_witness :
  reports (checkiNatQueue 250 4
             {| polled := world_after (fun _ => "") small_options drained_but_for_the_timer;
                poll_timers := [];
                reports := [] |})
  = [(4%nat, true)].
Proof.
  refine (proj1 (proj2 (checkiNatQueue_reports_activity (fun _ => "") small_options
            drained_but_for_the_timer
            (world_after (fun _ => "") small_options drained_but_for_the_timer)
            250 4%nat [] [] _) _)).
  - vm_compute. reflexivity.
  - right. vm_compute. discriminate.
Defined.

Lemma poll_chain_witness :
  exists p,
    poll_run (fun _ => "") apiOptions
      [Dispatcher (Elapse 250); PollTimerFires 0; Dispatcher (AjaxDone 0 Fails []);
       Dispatcher (Elapse 250); PollTimerFires 0]
      (checkiNatQueue 250 4
         {| polled := world_after (fun _ => "") apiOptions (burst 1);
            poll_timers := [];
            reports := [] |})
    = Some p
    /\ exists n,
         (reports p = repeat (4%nat, true) (S n)
          /\ exists t, poll_timers p = [(t + 250, (250, 4%nat))]
                       /\ t <= clock (polled p))
         \/ (reports p = (repeat (4%nat, true) n ++ [(4%nat, false)])%list
             /\ poll_timers p = []).
Proof.
  eexists. split; [vm_compute; reflexivity|].
  apply (poll_chain (fun _ => "") apiOptions (burst 1)
           (world_after (fun _ => "") apiOptions (burst 1)) 250 4%nat
           [Dispatcher (Elapse 250); PollTimerFires 0; Dispatcher (AjaxDone 0 Fails []);
            Dispatcher (Elapse 250); PollTimerFires 0]).
  - vm_compute. reflexivity.
  - reflexivity.
  - vm_compute. reflexivity.
Defined.

(** ** The cooldown over whole histories *)

Section DispatcherCooldown.

Variable jq : JSValue -> string.
Variable options : ApiOptions.

Lemma cooling_app l1 : forall due l2,
  cooling due (l1 ++ l2) = cooling (cooling due l1) l2.
Proof.
  induction l1 as [|e l1 IH]; intros due l2; [reflexivity|].
  destruct e; cbn [cooling app]; apply IH.
Qed.

Lemma cooled_app l1 : forall due l2,
  cooled due (l1 ++ l2) <-> cooled due l1 /\ cooled (cooling due l1) l2.
Proof.
  induction l1 as [|e l1 IH]; intros due l2; cbn [app].
  - cbn. tauto.
  - destruct e; cbn [cooled cooling]; rewrite IH; tauto.
Qed.

Lemma quiet_cooling l : forall due, quiet l = true -> cooling due l = due /\ cooled due l.
Proof.
  induction l as [|e l IH]; intros due Hq; [now split|].
  cbn [quiet forallb] in Hq. apply andb_prop in Hq as [He Hl].
  destruct e; try discriminate; cbn [cooling cooled]; now apply IH.
Qed.

(** Three ways to go on: quietly, by sending, by setting a timer. *)
Lemma extend_quiet effs l :
  quiet l = true ->
  cooled None effs ->
  cooled None (effs ++ l) /\ cooling None (effs ++ l) = cooling None effs.
Proof.
  intros Hq Hc. destruct (quiet_cooling l (cooling None effs) Hq) as (Hst & Hcl).
  rewrite cooled_app, cooling_app. now repeat split.
Qed.

Lemma extend_sent effs time request url authorization :
  cooled None effs ->
  (forall x, cooling None effs = Some x -> x <= time) ->
  cooled None (effs ++ [AjaxSent time request url authorization])
  /\ cooling None (effs ++ [AjaxSent time request url authorization]) = None.
Proof.
  intros Hc Hdue. rewrite cooled_app, cooling_app. cbn.
  repeat split; [exact Hc|]. destruct (cooling None effs); [now apply Hdue | exact I].
Qed.

Lemma extend_timeout effs time delay :
  cooled None effs ->
  cooled None (effs ++ [TimeoutSet time delay])
  /\ cooling None (effs ++ [TimeoutSet time delay]) = Some (time + delay).
Proof.
  intros Hc. rewrite cooled_app, cooling_app. cbn. now repeat split.
Qed.

(** What each function adds to the effects. *)
Lemma makeINatRequest_effects w :
  effects (makeINatRequest jq options w)
  = (effects w
     ++ match iNatAPIQueue w with
        | [] => []
        | request :: _ =>
            [AjaxSent (clock w) request (request_url jq request)
                      (sent_authorization request w)]
        end)%list.
Proof.
  destruct (iNatAPIQueue w) as [|r q] eqn:Hq.
  - rewrite (makeINatRequest_idle jq options w Hq). cbn. now rewrite app_nil_r.
  - now destruct (makeINatRequest_dispatch jq options w r q Hq)
      as (_ & _ & _ & _ & _ & _ & _ & _ & ->).
Qed.

Lemma app_call_active_effects c w :
  iNatAPIQueued w = true ->
  exists l, effects (app_call jq options c w) = (effects w ++ l)%list /\ quiet l = true.
Proof.
  intros Hact. destruct c as [request|token callback]; cbn [app_call].
  - exists []. unfold queueINatRequest. cbn. rewrite Hact. cbn.
    now rewrite app_nil_r.
  - unfold checkAuthentication. destruct (truthy token).
    + exists []. unfold queueINatRequest. cbn. rewrite Hact. cbn.
      now rewrite app_nil_r.
    + exists [VerifyCalled callback false]. now split.
Qed.

Lemma app_calls_active_effects calls : forall w,
  iNatAPIQueued w = true ->
  exists l,
    effects (fold_left (fun w c => app_call jq options c w) calls w) = (effects w ++ l)%list
    /\ quiet l = true.
Proof.
  induction calls as [|c calls IH]; intros w Hact; cbn [fold_left].
  - exists []. now rewrite app_nil_r.
  - destruct (app_call_active_effects c w Hact) as (l1 & Hl1 & Hq1).
    destruct (IH _ (app_call_keeps_active jq options c w Hact)) as (l2 & Hl2 & Hq2).
    exists (l1 ++ l2)%list. rewrite Hl2, Hl1, <- app_assoc. split; [reflexivity|].
    unfold quiet in *. now rewrite forallb_app, Hq1, Hq2.
Qed.

Lemma settle_effects request o w :
  exists l, effects (settle request o w) = (effects w ++ l)%list /\ quiet l = true.
Proof.
  unfold settle. destruct o, (callbacks request); cbn; rewrite <- ?app_assoc; cbn;
    eexists; (split; [reflexivity|reflexivity]).
Qed.

(** The dispatch step of a world whose timer, if any was set, has run. *)
Lemma cool_makeINatRequest w :
  cooled None (effects w) ->
  pending_timers w = [] ->
  (forall x, cooling None (effects w) = Some x -> x <= clock w) ->
  cool_inv (makeINatRequest jq options w).
Proof.
  intros Hc Hpt Hdue. unfold cool_inv.
  destruct (makeINatRequest_pop jq options w) as (_ & _ & Hpt' & Hcl' & _).
  cbv zeta in *. rewrite makeINatRequest_effects, Hpt', Hcl', Hpt.
  destruct (iNatAPIQueue w) as [|r q].
  - rewrite app_nil_r. split; [exact Hc|].
    destruct (cooling None (effects w)) as [x|]; [|reflexivity].
    right. split; [reflexivity | now apply Hdue].
  - destruct (extend_sent (effects w) (clock w) r (request_url jq r)
                (sent_authorization r w) Hc Hdue) as (Hc' & ->).
    now split.
Qed.

Lemma cool_step e w w' :
  queue_inv w -> cool_inv w -> step jq options e w = Some w' -> cool_inv w'.
Proof.
  intros Hinv (Hc & Hst) Hstep.
  destruct e as [c|k o calls|k|dt].
  - cbn [step] in Hstep. injection Hstep as <-.
    destruct (step_call jq options w c Hinv) as (_ & _ & Hpt & _ & Hcl).
    cbv zeta in *. destruct (iNatAPIQueued w) eqn:Hact.
    + destruct (app_call_active_effects c w Hact) as (l & Hl & Hq).
      destruct (extend_quiet (effects w) l Hq Hc) as (Hc' & Hst').
      unfold cool_inv. now rewrite Hl, Hst', Hpt, Hcl.
    + unfold queue_inv in Hinv. rewrite Hact in Hinv. destruct Hinv as (Hq & Hpa & Hptw).
      assert (Hdue : forall x, cooling None (effects w) = Some x -> x <= clock w).
      { intros x Hx. rewrite Hx, Hptw in Hst. destruct Hst as [?|[_ ?]];
          [discriminate|assumption]. }
      assert (Hqueue : forall request a i,
                 cool_inv (queueINatRequest jq options request (set_auth a i w))).
      { intros request a i.
        destruct (queueINatRequest_idle jq options (set_auth a i w) request Hact Hq)
          as (_ & _ & Hpt1 & Hcl1 & _ & _ & Heff1).
        cbv zeta in *. unfold cool_inv. rewrite Heff1, Hpt1. cbn.
        destruct (extend_sent (effects w) (clock w) request (request_url jq request)
                    (sent_authorization request (set_auth a i w)) Hc Hdue) as (Hc' & ->).
        now split. }
      destruct c as [request|token callback]; cbn [app_call].
      * specialize (Hqueue request (headers_Authorization w) (iNatAuthorized w)).
        destruct w. exact Hqueue.
      * unfold checkAuthentication. destruct (truthy token); [apply Hqueue|].
        unfold cool_inv. cbn.
        destruct (extend_quiet (effects w) [VerifyCalled callback false] eq_refl Hc)
          as (Hc' & ->).
        now split.
  - cbn [step] in Hstep.
    destruct (pending_ajax w) as [|request others] eqn:Hpa; [discriminate|].
    destruct (inv_in_flight w request others Hinv Hpa) as (-> & Hpt & Hact).
    destruct k as [|k]; [|discriminate]. cbn in Hstep. injection Hstep as <-.
    assert (Hdue : forall x, cooling None (effects w) = Some x -> x <= clock w).
    { intros x Hx. rewrite Hx, Hpt in Hst. destruct Hst as [?|[_ ?]];
        [discriminate|assumption]. }
    match goal with |- context [settle request o ?x] =>
      pose proof (settle_state request o x) as Hs; cbv zeta in Hs; cbn in Hs;
      destruct Hs as (_ & Hs2 & _ & _ & Hs5 & Hs6 & _);
      destruct (settle_effects request o x) as (l1 & Hl1 & Hq1); cbn in Hl1;
      set (w1 := settle request o x) in * end.
    rewrite Hact in Hs2.
    destruct (app_calls_active jq options calls w1 Hs2) as (_ & _ & _ & _ & Hc5 & Hc6 & _).
    destruct (app_calls_active_effects calls w1 Hs2) as (l2 & Hl2 & Hq2).
    cbv zeta in *.
    set (w2 := fold_left (fun w c => app_call jq options c w) calls w1) in *.
    assert (Hw2 : effects w2 = (effects w ++ (l1 ++ l2))%list)
      by (rewrite Hl2, Hl1, <- app_assoc; reflexivity).
    assert (Hq12 : quiet (l1 ++ l2 ++ [AjaxCompleted (clock w2)]) = true)
      by (unfold quiet in *; rewrite !forallb_app, Hq1, Hq2; reflexivity).
    destruct (extend_quiet (effects w) _ Hq12 Hc) as (Hc' & Hst').
    assert (Heff : effects (emit (AjaxCompleted (clock w2)) w2)
                   = (effects w ++ l1 ++ l2 ++ [AjaxCompleted (clock w2)])%list)
      by (cbn; rewrite Hw2, <- !app_assoc; reflexivity).
    unfold complete. cbn [iNatAPIRateLimiting emit].
    destruct (iNatAPIRateLimiting w2).
    + unfold cool_inv. cbn. rewrite Hw2.
      replace (((effects w ++ l1 ++ l2) ++ [AjaxCompleted (clock w2)])
               ++ [TimeoutSet (clock w2) (APITimeout options)])%list
        with ((effects w ++ l1 ++ l2 ++ [AjaxCompleted (clock w2)])
              ++ [TimeoutSet (clock w2) (APITimeout options)])%list
        by (rewrite <- !app_assoc; reflexivity).
      destruct (extend_timeout _ (clock w2) (APITimeout options) Hc') as (Hc'' & ->).
      split; [exact Hc''|]. left. rewrite Hc5, Hs5, Hpt. reflexivity.
    + apply cool_makeINatRequest.
      * now rewrite Heff.
      * cbn. now rewrite Hc5, Hs5.
      * intros x. rewrite Heff, Hst'. cbn. rewrite Hc6, Hs6. apply Hdue.
  - cbn [step] in Hstep.
    destruct (pending_timers w) as [|due others] eqn:Hpt; [discriminate|].
    destruct (inv_timer w due others Hinv Hpt) as (-> & Hpa & Hact).
    destruct k as [|k]; [|discriminate]. cbn in Hstep.
    destruct (due <=? clock w) eqn:Hdue; [|discriminate]. injection Hstep as <-.
    apply cool_makeINatRequest; cbn; [exact Hc | reflexivity |].
    intros x Hx. rewrite Hx in Hst. destruct Hst as [[= ->]|[? _]]; [lia|discriminate].
  - cbn [step] in Hstep. destruct (0 <=? dt) eqn:Hdt; [|discriminate].
    injection Hstep as <-. unfold cool_inv. cbn. split; [exact Hc|].
    destruct (cooling None (effects w)) as [x|]; [|exact Hst].
    destruct Hst as [?|[? ?]]; [now left|right]. split; [assumption|lia].
Qed.

(** X22.  After any history, every request that was sent after a cooldown
    timer had been set, with nothing sent in between, was sent no earlier
    than that timer was due: no earlier than the time it was set at, by
    [complete], plus its delay. *)
Theorem cooldown_respected es w :
  run jq options es initial_world = Some w ->
  cooled None (effects w).
Proof.
  intros Hrun.
  enough (H : forall es a b, queue_inv a -> cool_inv a ->
                run jq options es a = Some b -> cool_inv b).
  { apply (H es initial_world w initial_world_inv); [|exact Hrun].
    unfold cool_inv. cbn. now split. }
  clear. induction es as [|e es IH]; intros a b Hinv Hcool Hrun; cbn [run] in Hrun.
  - now injection Hrun as <-.
  - destruct (step jq options e a) as [a'|] eqn:Hstep; [|discriminate].
    apply (IH a' b); [|exact (cool_step e a a' Hinv Hcool Hstep)|exact Hrun].
    exact (proj1 (step_history jq options e a a' Hinv Hstep)).
Qed.

End DispatcherCooldown.

Lemma cooldown_respected_witness :
  cooled None
    (effects (world_after (fun _ => "") small_options drained_but_for_the_timer)).
Proof.
  apply (cooldown_respected (fun _ => "") small_options drained_but_for_the_timer).
  vm_compute. reflexivity.
Defined.
